(** * go2cache: the cache item and the cache table

    A shallow embedding of [cacheItem.go] and [cacheTable.go] and the
    properties of the table's operations: the expiration sweep, the
    add / value / delete / flush operations, and the item bookkeeping.

    Go pointers are addresses into a heap of items, the table is one
    record of the world, every method is a computation of the monad [M]
    over the world.  What the Go runtime decides (the clock, the order in
    which [range] walks a map) and what the caller supplies (callbacks, the
    miss loader) are variables of the section.  One execution is modelled:
    a lock another goroutine would have to release leaves it [Blocked].

    [sort.Sort], which [MostAccessed] calls, is a variable as well, known
    by its contract. *)

From Stdlib Require Import ZArith Lia.
From stdpp Require Import gmap list fin_maps sorting.

Local Open Scope Z_scope.

(** ** Machine integers and time *)

(** [time.Duration] and [int64] counters are 64-bit signed integers. *)
Definition int64_min : Z := - 2 ^ 63.
Definition int64_max : Z := 2 ^ 63 - 1.

(** Two's complement wrap-around of an integer to [int64]. *)
Definition wrap64 (z : Z) : Z := (z + 2 ^ 63) mod 2 ^ 64 - 2 ^ 63.

(** [a - b] on [time.Duration]. *)
Definition dur_sub (a b : Z) : Z := wrap64 (a - b).

(** [t.Sub(u)] for two readings of the monotonic clock (every value
    [time.Now()] returns carries one): the difference, saturated to the
    largest or smallest [Duration] when it does not fit. *)
Definition time_Sub (t u : Z) : Z :=
  let d := wrap64 (t - u) in
  if (d <? 0) && (u <? t) then int64_max
  else if (0 <? d) && (t <? u) then int64_min
  else d.

(** ** sync.RWMutex *)

(** The state of a reader/writer lock: whether a writer holds it and how
    many readers do. *)
Record RWMutex := mkRWMutex { writer : bool; readers : nat }.

Definition rw_free : RWMutex := mkRWMutex false 0.

(** What the Go runtime aborts the process with. *)
Inductive FatalError :=
  | UnlockOfUnlockedRWMutex     (* "sync: Unlock of unlocked RWMutex" *)
  | RUnlockOfUnlockedRWMutex    (* "sync: RUnlock of unlocked RWMutex" *)
  | NilDereference.             (* invalid memory address or nil pointer dereference *)

(** One lock operation either goes through, has to wait for another
    holder, or is a run-time error. *)
Inductive LockResult :=
  | Acquired (m : RWMutex)
  | MustWait
  | Throws (e : FatalError).

(** [Lock] waits while a reader or a writer holds the lock. *)
Definition rw_Lock (m : RWMutex) : LockResult :=
  if writer m || negb (Nat.eqb (readers m) 0) then MustWait
  else Acquired (mkRWMutex true 0).

(** [Unlock]: a run-time error if the lock is not held for writing. *)
Definition rw_Unlock (m : RWMutex) : LockResult :=
  if writer m then Acquired (mkRWMutex false (readers m))
  else Throws UnlockOfUnlockedRWMutex.

(** [RLock] waits while a writer holds the lock. *)
Definition rw_RLock (m : RWMutex) : LockResult :=
  if writer m then MustWait
  else Acquired (mkRWMutex false (S (readers m))).

(** [RUnlock]: a run-time error if the lock is not held for reading. *)
Definition rw_RUnlock (m : RWMutex) : LockResult :=
  match readers m with
  | O => Throws RUnlockOfUnlockedRWMutex
  | S n => Acquired (mkRWMutex (writer m) n)
  end.

(** ** Data model *)

(** Addresses of items and of timers, and function values (a callback or
    a loader is known by its identity; what it does is given by the
    interpreters below). *)
Abbreviation ptr := nat (only parsing).
Abbreviation Func := nat (only parsing).

(** Modelled from the spec: the error values [ErrKeyNotFound] and
    [ErrKeyNotFoundOrLoadable] that cacheTable.go returns; their
    declarations are not among the sources (the spec's error taxonomy names
    the two: KeyNotFound, KeyNotFoundOrLoadable). *)
Inductive TableError := ErrKeyNotFound | ErrKeyNotFoundOrLoadable.

(** A [*time.Timer]: the duration it was armed for and whether it is
    still pending. *)
Record Timer := mkTimer { duration : Z; pending : bool }.

Section Cache.

Context {Key : Type} `{Countable Key} {Any : Type}.

(** [type CacheItem struct] *)
Record CacheItem := mkCacheItem {
  item_mu : RWMutex;
  key : Key;
  data : Any;
  lifeSpan : Z;
  createdOn : Z;
  accessedOn : Z;
  accessCount : Z;
  aboutToExpire : list Func;
}.

(** [type CacheTable struct] *)
Record CacheTable := mkCacheTable {
  table_mu : RWMutex;
  name : list Ascii.ascii;
  items : gmap Key ptr;
  cleanupTimer : option ptr;
  cleanupInterval : Z;
  logger : option ptr;
  loadData : option Func;
  addedItem : list Func;
  aboutToDeleteItem : list Func;
}.

(** What an argument of the loader holds.  The loader is variadic,
    [func(interface{}, ...interface{}) *CacheItem], and so is [Value],
    whose extra arguments are the slice [args].  [Value] calls
    [loadData(key, args)], without [...]: the slice is passed as one
    argument, and the loader's variadic parameter is a slice of one
    element that holds it ([ArgSlice]); [loadData(key, args...)] would
    pass the caller's values themselves ([ArgValue] each). *)
Inductive Arg :=
  | ArgValue (a : Any)
  | ArgSlice (l : list Any).

(** The lines the table writes to its logger. *)
Inductive LogLine :=
  | LogCheckAfter (interval : Z) (table_name : list Ascii.ascii)
  | LogCheckSetup (table_name : list Ascii.ascii)
  | LogDelete (k : Key) (created : Z) (hits : Z) (table_name : list Ascii.ascii)
  | LogAdd (k : Key) (life : Z)
  | LogFlush (table_name : list Ascii.ascii).

(** The trace of an execution: the log lines it writes and the calls of
    user functions it makes, which its environment sees, and (so that
    statements can order them against those) the three ways in which it
    writes the item map. *)
Inductive Event :=
  | EvLog (sink : ptr) (line : LogLine)
  | EvAddedItem (f : Func) (item : ptr)
  | EvAboutToDeleteItem (f : Func) (item : ptr)
  | EvAboutToExpire (f : Func) (k : Key)
  | EvLoadData (f : Func) (k : Key) (args : list Arg)
  | EvMapStore (k : Key) (item : ptr)
  | EvMapDelete (k : Key)
  | EvMapReplace.

Record World := mkWorld {
  heap : list CacheItem;
  table : CacheTable;
  timers : list Timer;
  ticks : nat;
  trace : list Event;
}.

(** *** Field updates *)

Definition set_item_mu (m : RWMutex) (it : CacheItem) : CacheItem :=
  mkCacheItem m (key it) (data it) (lifeSpan it) (createdOn it)
    (accessedOn it) (accessCount it) (aboutToExpire it).

Definition set_access (t : Z) (n : Z) (it : CacheItem) : CacheItem :=
  mkCacheItem (item_mu it) (key it) (data it) (lifeSpan it) (createdOn it)
    t n (aboutToExpire it).

Definition set_table_mu (m : RWMutex) (tb : CacheTable) : CacheTable :=
  mkCacheTable m (name tb) (items tb) (cleanupTimer tb) (cleanupInterval tb)
    (logger tb) (loadData tb) (addedItem tb) (aboutToDeleteItem tb).

Definition set_items (m : gmap Key ptr) (tb : CacheTable) : CacheTable :=
  mkCacheTable (table_mu tb) (name tb) m (cleanupTimer tb) (cleanupInterval tb)
    (logger tb) (loadData tb) (addedItem tb) (aboutToDeleteItem tb).

Definition set_cleanupTimer (t : option ptr) (tb : CacheTable) : CacheTable :=
  mkCacheTable (table_mu tb) (name tb) (items tb) t (cleanupInterval tb)
    (logger tb) (loadData tb) (addedItem tb) (aboutToDeleteItem tb).

Definition set_cleanupInterval (d : Z) (tb : CacheTable) : CacheTable :=
  mkCacheTable (table_mu tb) (name tb) (items tb) (cleanupTimer tb) d
    (logger tb) (loadData tb) (addedItem tb) (aboutToDeleteItem tb).

Definition set_loadData (f : option Func) (tb : CacheTable) : CacheTable :=
  mkCacheTable (table_mu tb) (name tb) (items tb) (cleanupTimer tb)
    (cleanupInterval tb) (logger tb) f (addedItem tb) (aboutToDeleteItem tb).

Definition set_aboutToExpire (l : list Func) (it : CacheItem) : CacheItem :=
  mkCacheItem (item_mu it) (key it) (data it) (lifeSpan it) (createdOn it)
    (accessedOn it) (accessCount it) l.

Definition set_logger (l : option ptr) (tb : CacheTable) : CacheTable :=
  mkCacheTable (table_mu tb) (name tb) (items tb) (cleanupTimer tb)
    (cleanupInterval tb) l (loadData tb) (addedItem tb) (aboutToDeleteItem tb).

Definition set_addedItem (l : list Func) (tb : CacheTable) : CacheTable :=
  mkCacheTable (table_mu tb) (name tb) (items tb) (cleanupTimer tb)
    (cleanupInterval tb) (logger tb) (loadData tb) l (aboutToDeleteItem tb).

Definition set_aboutToDeleteItem (l : list Func) (tb : CacheTable) : CacheTable :=
  mkCacheTable (table_mu tb) (name tb) (items tb) (cleanupTimer tb)
    (cleanupInterval tb) (logger tb) (loadData tb) (addedItem tb) l.


Definition with_heap (h : list CacheItem) (w : World) : World :=
  mkWorld h (table w) (timers w) (ticks w) (trace w).

Definition with_table (tb : CacheTable) (w : World) : World :=
  mkWorld (heap w) tb (timers w) (ticks w) (trace w).

Definition with_timers (ts : list Timer) (w : World) : World :=
  mkWorld (heap w) (table w) ts (ticks w) (trace w).

Definition with_ticks (n : nat) (w : World) : World :=
  mkWorld (heap w) (table w) (timers w) n (trace w).

Definition with_trace (tr : list Event) (w : World) : World :=
  mkWorld (heap w) (table w) (timers w) (ticks w) tr.

(** ** The monad of table computations *)

(** A computation returns normally with a value, is aborted by the
    runtime, or is left waiting for a lock nobody in this execution will
    release. *)
Inductive Outcome (A : Type) :=
  | Done (a : A) (w : World)
  | Fatal (e : FatalError) (w : World)
  | Blocked (w : World).

#[global] Arguments Done {A} a w.
#[global] Arguments Fatal {A} e w.
#[global] Arguments Blocked {A} w.

Definition M (A : Type) : Type := World -> Outcome A.

Definition ret {A} (a : A) : M A := fun w => Done a w.

Definition bind {A B} (c : M A) (k : A -> M B) : M B :=
  fun w =>
    match c w with
    | Done a w' => k a w'
    | Fatal e w' => Fatal e w'
    | Blocked w' => Blocked w'
    end.

Declare Scope cache_scope.
Delimit Scope cache_scope with cache.
Notation "x <- c ;; k" := (bind c (fun x => k))
  (at level 100, c at next level, k at level 200, right associativity) : cache_scope.
Notation "c ;; k" := (bind c (fun _ => k))
  (at level 100, k at level 200, right associativity) : cache_scope.
Local Open Scope cache_scope.

(** ** The operations *)

(** The [n]-th reading of the monotonic clock, in nanoseconds. *)
Variable clock : nat -> Z.

(** The order in which [range] walks a map (Go leaves it unspecified). *)
Variable range_order : gmap Key ptr -> list Key.

(** The user's functions: callbacks on an item ([func(item *CacheItem)], for
    [addedItem] and [aboutToDeleteItem]), callbacks on a key
    ([func(interface{})], for [aboutToExpire]), and miss loaders. *)
Variable item_callback : Func -> ptr -> M unit.
Variable key_callback : Func -> Key -> M unit.
Variable data_loader : Func -> Key -> list Arg -> M (option ptr).

(** *** Primitive steps *)

Definition get_table : M CacheTable := fun w => Done (table w) w.

Definition modify_table (f : CacheTable -> CacheTable) : M unit :=
  fun w => Done tt (with_table (f (table w)) w).

Definition emit (e : Event) : M unit :=
  fun w => Done tt (with_trace (trace w ++ [e]) w).

(** [time.Now()] *)
Definition time_Now : M Z :=
  fun w => Done (clock (ticks w)) (with_ticks (S (ticks w)) w).

(** [&CacheItem{...}] *)
Definition alloc (it : CacheItem) : M ptr :=
  fun w => Done (length (heap w)) (with_heap (heap w ++ [it]) w).

(** [*p] *)
Definition load (p : ptr) : M CacheItem :=
  fun w =>
    match heap w !! p with
    | Some it => Done it w
    | None => Fatal NilDereference w
    end.

Definition store (p : ptr) (it : CacheItem) : M unit :=
  fun w => Done tt (with_heap (<[p := it]> (heap w)) w).

Definition lock_step (r : LockResult) (k : RWMutex -> M unit) : M unit :=
  match r with
  | Acquired m => k m
  | MustWait => fun w => Blocked w
  | Throws e => fun w => Fatal e w
  end.

Definition on_table_mu (op : RWMutex -> LockResult) : M unit :=
  tb <- get_table ;;
  lock_step (op (table_mu tb)) (fun m => modify_table (set_table_mu m)).

Definition on_item_mu (op : RWMutex -> LockResult) (p : ptr) : M unit :=
  it <- load p ;;
  lock_step (op (item_mu it)) (fun m => store p (set_item_mu m it)).

Definition table_Lock : M unit := on_table_mu rw_Lock.
Definition table_Unlock : M unit := on_table_mu rw_Unlock.
Definition table_RLock : M unit := on_table_mu rw_RLock.
Definition table_RUnlock : M unit := on_table_mu rw_RUnlock.
Definition item_Lock : ptr -> M unit := on_item_mu rw_Lock.
Definition item_Unlock : ptr -> M unit := on_item_mu rw_Unlock.
Definition item_RLock : ptr -> M unit := on_item_mu rw_RLock.
Definition item_RUnlock : ptr -> M unit := on_item_mu rw_RUnlock.

(** [timer.Stop()] *)
Definition timer_Stop (t : ptr) : M unit :=
  fun w =>
    match timers w !! t with
    | Some tm => Done tt (with_timers (<[t := mkTimer (duration tm) false]> (timers w)) w)
    | None => Fatal NilDereference w
    end.

(** [time.AfterFunc(d, f)]: a new pending timer.  Its firing starts
    [expirationCheck] in a goroutine of its own, which is a later
    execution, not a step of this one. *)
Definition time_AfterFunc (d : Z) : M ptr :=
  fun w => Done (length (timers w)) (with_timers (timers w ++ [mkTimer d true]) w).

(** [for _, x := range l { body(x) }] over a slice.  A nil slice is the
    empty list, so the [if l != nil] around such a loop changes nothing. *)
Fixpoint for_each {A} (l : list A) (body : A -> M unit) : M unit :=
  match l with
  | [] => ret tt
  | x :: l' => body x ;; for_each l' body
  end.

(** *** cacheItem.go *)

Definition NewCacheItem (k : Key) (life : Z) (d : Any) : M ptr :=
  t <- time_Now ;;
  alloc (mkCacheItem rw_free k d life t t 0 []).

Definition KeepAlive (p : ptr) : M unit :=
  item_Lock p ;;
  t <- time_Now ;;
  it <- load p ;;
  store p (set_access t (wrap64 (accessCount it + 1)) it) ;;
  item_Unlock p.

(** *** cacheTable.go *)

(** [table.log(v...)]: nothing without a logger. *)
Definition log (line : LogLine) : M unit :=
  tb <- get_table ;;
  match logger tb with
  | None => ret tt
  | Some sink => emit (EvLog sink line)
  end.

(** [delete(table.items, key)] *)
Definition map_delete (k : Key) : M unit :=
  emit (EvMapDelete k) ;;
  modify_table (fun tb => set_items (delete k (items tb)) tb).

(** [table.items[key] = item] *)
Definition map_store (k : Key) (p : ptr) : M unit :=
  emit (EvMapStore k p) ;;
  modify_table (fun tb => set_items (<[k := p]> (items tb)) tb).

(** [table.items = make(map[interface{}]*CacheItem)] *)
Definition map_replace : M unit :=
  emit EvMapReplace ;;
  modify_table (set_items ∅).

Definition call_aboutToDeleteItem (r : ptr) (f : Func) : M unit :=
  emit (EvAboutToDeleteItem f r) ;; item_callback f r.

Definition call_aboutToExpire (k : Key) (f : Func) : M unit :=
  emit (EvAboutToExpire f k) ;; key_callback f k.

Definition call_addedItem (p : ptr) (f : Func) : M unit :=
  emit (EvAddedItem f p) ;; item_callback f p.

Definition call_loadData (f : Func) (k : Key) (args : list Arg) : M (option ptr) :=
  emit (EvLoadData f k args) ;; data_loader f k args.

(** Called with the table's lock held, returns with it held; the lock
    is released while the callbacks run.  The deferred [r.RUnlock()] runs
    last. *)
Definition deleteInternal (k : Key) : M (option ptr * option TableError) :=
  tb <- get_table ;;
  match items tb !! k with
  | None => ret (None, Some ErrKeyNotFound)
  | Some r =>
      let callbacks := aboutToDeleteItem tb in
      table_Unlock ;;
      for_each callbacks (call_aboutToDeleteItem r) ;;
      item_RLock r ;;
      it <- load r ;;
      for_each (aboutToExpire it) (call_aboutToExpire k) ;;
      table_Lock ;;
      it' <- load r ;;
      tb' <- get_table ;;
      log (LogDelete k (createdOn it') (accessCount it') (name tb')) ;;
      map_delete k ;;
      item_RUnlock r ;;
      ret (Some r, None)
  end.

(** The loop of [expirationCheck], over the keys [range] yields, with
    [now] and the running [smallestDuration]: an entry removed before the
    loop reaches it is not produced. *)
Fixpoint sweep (now : Z) (ks : list Key) (smallestDuration : Z) : M Z :=
  match ks with
  | [] => ret smallestDuration
  | k :: ks' =>
      tb <- get_table ;;
      match items tb !! k with
      | None => sweep now ks' smallestDuration
      | Some item =>
          item_RLock item ;;
          it <- load item ;;
          item_RUnlock item ;;
          if lifeSpan it =? 0 then sweep now ks' smallestDuration
          else if lifeSpan it <=? time_Sub now (accessedOn it) then
            deleteInternal k ;; sweep now ks' smallestDuration
          else if (smallestDuration =? 0)
                  || (dur_sub (lifeSpan it) (time_Sub now (accessedOn it)) <? smallestDuration)
          then sweep now ks' (dur_sub (lifeSpan it) (time_Sub now (accessedOn it)))
          else sweep now ks' smallestDuration
      end
  end.

Definition expirationCheck : M unit :=
  table_Lock ;;
  tb <- get_table ;;
  match cleanupTimer tb with
  | Some t => timer_Stop t
  | None => ret tt
  end ;;
  (if 0 <? cleanupInterval tb
   then log (LogCheckAfter (cleanupInterval tb) (name tb))
   else log (LogCheckSetup (name tb))) ;;
  now <- time_Now ;;
  tb <- get_table ;;
  smallestDuration <- sweep now (range_order (items tb)) 0 ;;
  modify_table (set_cleanupInterval smallestDuration) ;;
  (if 0 <? smallestDuration
   then t <- time_AfterFunc smallestDuration ;;
        modify_table (set_cleanupTimer (Some t))
   else ret tt) ;;
  table_Unlock.

(** Called with the table's lock held, returns with it released. *)
Definition addInternal (item : ptr) : M unit :=
  it <- load item ;;
  log (LogAdd (key it) (lifeSpan it)) ;;
  map_store (key it) item ;;
  tb <- get_table ;;
  let expDur := cleanupInterval tb in
  let added := addedItem tb in
  table_Unlock ;;
  for_each added (call_addedItem item) ;;
  it' <- load item ;;
  if (0 <? lifeSpan it') && ((expDur =? 0) || (lifeSpan it' <? expDur))
  then expirationCheck
  else ret tt.

Definition Add (k : Key) (life : Z) (d : Any) : M ptr :=
  item <- NewCacheItem k life d ;;
  table_Lock ;;
  addInternal item ;;
  ret item.

Definition Delete (k : Key) : M (option ptr * option TableError) :=
  table_Lock ;;
  r <- deleteInternal k ;;
  table_Unlock ;;
  ret r.

Definition NotFoundAdd (k : Key) (life : Z) (d : Any) : M bool :=
  table_Lock ;;
  tb <- get_table ;;
  match items tb !! k with
  | Some _ => table_Unlock ;; ret false
  | None =>
      item <- NewCacheItem k life d ;;
      addInternal item ;;
      ret true
  end.

(** [args] is the slice of [Value]'s extra arguments.  The call
    [loadData(key, args)] has no [...], so the loader gets the slice as
    the one element of its variadic parameter. *)
Definition Value (k : Key) (args : list Any) : M (option ptr * option TableError) :=
  table_RLock ;;
  tb <- get_table ;;
  table_RUnlock ;;
  match items tb !! k with
  | Some r => KeepAlive r ;; ret (Some r, None)
  | None =>
      match loadData tb with
      | Some f =>
          item <- call_loadData f k [ArgSlice args] ;;
          match item with
          | Some q =>
              it <- load q ;;
              Add k (lifeSpan it) (data it) ;;
              ret (Some q, None)
          | None => ret (None, Some ErrKeyNotFoundOrLoadable)
          end
      | None => ret (None, Some ErrKeyNotFound)
      end
  end.

Definition Flush : M unit :=
  table_Lock ;;
  tb <- get_table ;;
  log (LogFlush (name tb)) ;;
  map_replace ;;
  modify_table (set_cleanupInterval 0) ;;
  match cleanupTimer tb with
  | Some t => timer_Stop t
  | None => ret tt
  end ;;
  table_Unlock.

(** The deferred call is [table.Unlock()], after [table.RLock()]. *)
Definition Count : M nat :=
  table_RLock ;;
  tb <- get_table ;;
  let n := size (items tb) in
  table_Unlock ;;
  ret n.

(** *** The rest of cacheItem.go *)

(** The accessors of the fields that never change read without a lock;
    those of the two fields [KeepAlive] writes take the item's lock (the
    write lock), released by the deferred [Unlock] after the value is
    read. *)
Definition LifeSpan (p : ptr) : M Z :=
  it <- load p ;; ret (lifeSpan it).

Definition AccessedOn (p : ptr) : M Z :=
  item_Lock p ;;
  it <- load p ;;
  item_Unlock p ;;
  ret (accessedOn it).

Definition CreatedOn (p : ptr) : M Z :=
  it <- load p ;; ret (createdOn it).

Definition AccessCount (p : ptr) : M Z :=
  item_Lock p ;;
  it <- load p ;;
  item_Unlock p ;;
  ret (accessCount it).

Definition ItemKey (p : ptr) : M Key :=
  it <- load p ;; ret (key it).

Definition ItemData (p : ptr) : M Any :=
  it <- load p ;; ret (data it).

Definition RemoveAboutToExpireCallback (p : ptr) : M unit :=
  item_Lock p ;;
  it <- load p ;;
  store p (set_aboutToExpire [] it) ;;
  item_Unlock p.

(** The length is read before the lock is taken. *)
Definition SetAboutToExpireCallback (p : ptr) (f : Func) : M unit :=
  it0 <- load p ;;
  (if (0 <? length (aboutToExpire it0))%nat
   then RemoveAboutToExpireCallback p
   else ret tt) ;;
  item_Lock p ;;
  it <- load p ;;
  store p (set_aboutToExpire (aboutToExpire it ++ [f]) it) ;;
  item_Unlock p.

Definition AddAboutToExpireCallback (p : ptr) (f : Func) : M unit :=
  item_Lock p ;;
  it <- load p ;;
  store p (set_aboutToExpire (aboutToExpire it ++ [f]) it) ;;
  item_Unlock p.

(** *** The rest of cacheTable.go *)

(** The loop of [Foreach], as the one of the sweep. *)
Fixpoint foreach_loop (trans : Key -> ptr -> M unit) (ks : list Key) : M unit :=
  match ks with
  | [] => ret tt
  | k :: ks' =>
      tb <- get_table ;;
      match items tb !! k with
      | None => foreach_loop trans ks'
      | Some v => trans k v ;; foreach_loop trans ks'
      end
  end.

(** [trans] runs with the table's read lock held. *)
Definition Foreach (trans : Key -> ptr -> M unit) : M unit :=
  table_RLock ;;
  tb <- get_table ;;
  foreach_loop trans (range_order (items tb)) ;;
  table_RUnlock.

(** [f] may be nil. *)
Definition SetDataLoader (f : option Func) : M unit :=
  table_Lock ;;
  modify_table (set_loadData f) ;;
  table_Unlock.

Definition RemoveAddedItemCallbacks : M unit :=
  table_Lock ;;
  modify_table (set_addedItem []) ;;
  table_Unlock.

(** The length is read before the lock is taken. *)
Definition SetAddedItemCallback (f : Func) : M unit :=
  tb0 <- get_table ;;
  (if (0 <? length (addedItem tb0))%nat
   then RemoveAddedItemCallbacks
   else ret tt) ;;
  table_Lock ;;
  modify_table (fun tb => set_addedItem (addedItem tb ++ [f]) tb) ;;
  table_Unlock.

Definition AddAddedItemCallback (f : Func) : M unit :=
  table_Lock ;;
  modify_table (fun tb => set_addedItem (addedItem tb ++ [f]) tb) ;;
  table_Unlock.

Definition RemoveAboutToDeleteItemCallback : M unit :=
  table_Lock ;;
  modify_table (set_aboutToDeleteItem []) ;;
  table_Unlock.

Definition SetAboutToDeleteItemCallback (f : Func) : M unit :=
  tb0 <- get_table ;;
  (if (0 <? length (aboutToDeleteItem tb0))%nat
   then RemoveAboutToDeleteItemCallback
   else ret tt) ;;
  table_Lock ;;
  modify_table (fun tb => set_aboutToDeleteItem (aboutToDeleteItem tb ++ [f]) tb) ;;
  table_Unlock.

Definition AddAboutToDeleteItemCallback (f : Func) : M unit :=
  table_Lock ;;
  modify_table (fun tb => set_aboutToDeleteItem (aboutToDeleteItem tb ++ [f]) tb) ;;
  table_Unlock.

(** [l] may be nil. *)
Definition SetLogger (l : option ptr) : M unit :=
  table_Lock ;;
  modify_table (set_logger l) ;;
  table_Unlock.

Definition Exists (k : Key) : M bool :=
  table_RLock ;;
  tb <- get_table ;;
  table_RUnlock ;;
  ret (match items tb !! k with Some _ => true | None => false end).


(** [CacheItemPair] and the order [sort.Sort] gets through [Less]: the
    larger access count first. *)
Record CacheItemPair := mkCacheItemPair {
  pairKey : Key;
  pairAccessCount : Z;
}.

Definition Less (a b : CacheItemPair) : bool :=
  pairAccessCount b <? pairAccessCount a.

(** The first loop of [MostAccessed]: one pair for every entry [range]
    yields, with the access count read from the item (without its
    lock). *)
Fixpoint pairs_loop (ks : list Key) (p : list CacheItemPair) : M (list CacheItemPair) :=
  match ks with
  | [] => ret p
  | k :: ks' =>
      tb <- get_table ;;
      match items tb !! k with
      | None => pairs_loop ks' p
      | Some v =>
          it <- load v ;;
          pairs_loop ks' (p ++ [mkCacheItemPair k (accessCount it)])
      end
  end.

(** The second loop: it stops at the first pair for which [c >= count],
    looks the key of the pair up again and appends the item found. *)
Fixpoint first_loop (p : list CacheItemPair) (c count : Z) (r : list ptr) : M (list ptr) :=
  match p with
  | [] => ret r
  | v :: p' =>
      if count <=? c then ret r
      else
        tb <- get_table ;;
        first_loop p' (wrap64 (c + 1)) count
          (match items tb !! pairKey v with
           | Some item => r ++ [item]
           | None => r
           end)
  end.

Section Sorting.

(** [sort.Sort] on a [CacheItemPairList]. *)
Variable sort_Sort : list CacheItemPair -> list CacheItemPair.

Definition MostAccessed (count : Z) : M (list ptr) :=
  table_RLock ;;
  tb <- get_table ;;
  p <- pairs_loop (range_order (items tb)) [] ;;
  r <- first_loop (sort_Sort p) 0 count [] ;;
  table_RUnlock ;;
  ret r.

End Sorting.


(** ** Well-formed worlds *)

(** Between two operations of one execution nobody holds a lock, every
    stored pointer is the address of an item, and the table's timer, if
    any, is a timer of the runtime. *)
Record well_formed (w : World) : Prop := mkWellFormed {
  wf_table_mu : table_mu (table w) = rw_free;
  wf_items : forall k r, items (table w) !! k = Some r ->
               exists it, heap w !! r = Some it /\ item_mu it = rw_free;
  wf_timer : forall t, cleanupTimer (table w) = Some t -> (t < length (timers w))%nat;
}.

(** The events of one [table.log] call. *)
Definition log_events (tb : CacheTable) (line : LogLine) : list Event :=
  match logger tb with
  | Some sink => [EvLog sink line]
  | None => []
  end.

(** The timers after [cleanupTimer.Stop()], when there is a timer. *)
Definition stop_timer (t : option ptr) (ts : list Timer) : list Timer :=
  match t with
  | Some t =>
      match ts !! t with
      | Some tm => <[t := mkTimer (duration tm) false]> ts
      | None => ts
      end
  | None => ts
  end.

(** ** The vocabulary of the statements *)

(** Which events are calls of the user's callbacks. *)
Definition is_callback (e : Event) : bool :=
  match e with
  | EvAddedItem _ _ | EvAboutToDeleteItem _ _ | EvAboutToExpire _ _ => true
  | _ => false
  end.

(** What happens to the items of a world as far as cacheItem.go goes: one
    is created, or one is kept alive. *)
Inductive item_step (w w' : World) : Prop :=
  | step_NewCacheItem (k : Key) (life : Z) (d : Any) (p : ptr) :
      NewCacheItem k life d w = Done p w' -> item_step w w'
  | step_KeepAlive (p : ptr) :
      KeepAlive p w = Done tt w' -> item_step w w'.

(** Every item was created and last touched at readings of the clock
    that are in the past, in this order. *)
Definition items_dated (w : World) : Prop :=
  forall p it, heap w !! p = Some it ->
    item_mu it = rw_free /\
    createdOn it <= accessedOn it <= clock (ticks w) /\
    int64_min <= accessCount it <= int64_max.

(** The clock does not run backwards. *)
Definition monotone_clock : Prop :=
  forall a b : nat, (a <= b)%nat -> clock a <= clock b.

(** The events of one run of [deleteInternal] on a key that is present:
    the table's callbacks on the item, the item's callbacks on the key,
    the log line, the removal. *)
Definition delete_events (tb : CacheTable) (it : CacheItem) (k : Key) (r : ptr) : list Event :=
  map (fun f => EvAboutToDeleteItem f r) (aboutToDeleteItem tb) ++
  map (fun f => EvAboutToExpire f k) (aboutToExpire it) ++
  log_events tb (LogDelete k (createdOn it) (accessCount it) (name tb)) ++
  [EvMapDelete k].

(** [now.Sub(accessedOn)] *)
Definition idle_time (now : Z) (it : CacheItem) : Z :=
  time_Sub now (accessedOn it).

(** [lifeSpan - now.Sub(accessedOn)] *)
Definition remaining (now : Z) (it : CacheItem) : Z :=
  dur_sub (lifeSpan it) (idle_time now it).

(** The sweep deletes the items with a lifespan other than 0 that have
    been idle for at least that long. *)
Definition expired (now : Z) (it : CacheItem) : bool :=
  negb (lifeSpan it =? 0) && (lifeSpan it <=? idle_time now it).

(** The entry of a key with the item it points to. *)
Definition lookup_item (h : list CacheItem) (m : gmap Key ptr) (k : Key)
  : option (ptr * CacheItem) :=
  match m !! k with
  | Some r =>
      match h !! r with
      | Some it => Some (r, it)
      | None => None
      end
  | None => None
  end.

(** The map the loop leaves. *)
Fixpoint sweep_items (now : Z) (h : list CacheItem) (ks : list Key)
    (m : gmap Key ptr) : gmap Key ptr :=
  match ks with
  | [] => m
  | k :: ks' =>
      match lookup_item h m k with
      | Some (_, it) =>
          if expired now it then sweep_items now h ks' (delete k m)
          else sweep_items now h ks' m
      | None => sweep_items now h ks' m
      end
  end.

(** The events of the loop. *)
Fixpoint sweep_trace (now : Z) (tb : CacheTable) (h : list CacheItem)
    (ks : list Key) (m : gmap Key ptr) : list Event :=
  match ks with
  | [] => []
  | k :: ks' =>
      match lookup_item h m k with
      | Some (r, it) =>
          if expired now it
          then delete_events tb it k r ++ sweep_trace now tb h ks' (delete k m)
          else sweep_trace now tb h ks' m
      | None => sweep_trace now tb h ks' m
      end
  end.

(** The value of [smallestDuration] after the loop. *)
Fixpoint sweep_smallest (now : Z) (h : list CacheItem) (ks : list Key)
    (m : gmap Key ptr) (smallest : Z) : Z :=
  match ks with
  | [] => smallest
  | k :: ks' =>
      match lookup_item h m k with
      | Some (_, it) =>
          if expired now it then sweep_smallest now h ks' (delete k m) smallest
          else if lifeSpan it =? 0 then sweep_smallest now h ks' m smallest
          else if (smallest =? 0) || (remaining now it <? smallest)
          then sweep_smallest now h ks' m (remaining now it)
          else sweep_smallest now h ks' m smallest
      | None => sweep_smallest now h ks' m smallest
      end
  end.

(** An entry the sweep keeps and that bounds the next wake-up: it has a
    lifespan other than 0 and has not been idle that long. *)
Definition finite_survivor (now : Z) (h : list CacheItem) (m : gmap Key ptr)
    (k : Key) (it : CacheItem) : Prop :=
  exists r, m !! k = Some r /\ h !! r = Some it /\
            lifeSpan it <> 0 /\ expired now it = false.

(** Lifespans are [time.Duration] values. *)
Definition lifespans_typed (h : list CacheItem) : Prop :=
  forall r it, h !! r = Some it -> int64_min <= lifeSpan it <= int64_max.

(** The log line a sweep starts with. *)
Definition check_line (tb : CacheTable) : LogLine :=
  if 0 <? cleanupInterval tb
  then LogCheckAfter (cleanupInterval tb) (name tb)
  else LogCheckSetup (name tb).

(** The world [expirationCheck] leaves. *)
Definition swept (w : World) : World :=
  let now := clock (ticks w) in
  let tb := table w in
  let ks := range_order (items tb) in
  let sm := sweep_smallest now (heap w) ks (items tb) 0 in
  let ts := stop_timer (cleanupTimer tb) (timers w) in
  mkWorld (heap w)
    (mkCacheTable rw_free (name tb)
       (sweep_items now (heap w) ks (items tb))
       (if 0 <? sm then Some (length ts) else cleanupTimer tb)
       sm (logger tb) (loadData tb) (addedItem tb) (aboutToDeleteItem tb))
    (if 0 <? sm then ts ++ [mkTimer sm true] else ts)
    (S (ticks w))
    (trace w ++ log_events tb (check_line tb) ++
     sweep_trace now tb (heap w) ks (items tb)).

(** [range] yields every key of the map. *)
Definition range_complete : Prop :=
  forall (m : gmap Key ptr) (k : Key), is_Some (m !! k) -> k ∈ range_order m.

(** The item [NewCacheItem] makes at clock reading [t]. *)
Definition new_item (k : Key) (life : Z) (d : Any) (t : Z) : CacheItem :=
  mkCacheItem rw_free k d life t t 0 [].

(** The world after [Add] has stored its item and called the addedItem
    callbacks, before the sweep it may go on to run. *)
Definition added (k : Key) (life : Z) (d : Any) (w : World) : World :=
  let p := length (heap w) in
  mkWorld (heap w ++ [new_item k life d (clock (ticks w))])
    (set_items (<[k := p]> (items (table w))) (table w))
    (timers w) (S (ticks w))
    (trace w ++ log_events (table w) (LogAdd k life) ++ [EvMapStore k p] ++
     map (fun f => EvAddedItem f p) (addedItem (table w))).

(** Whether [addInternal] goes on to sweep. *)
Definition sweeps_on_add (w : World) (life : Z) : bool :=
  (0 <? life) &&
  ((cleanupInterval (table w) =? 0) || (life <? cleanupInterval (table w))).

(** Whether the sweep [Add] runs finds the item it has just stored
    expired: it sweeps, and by the sweep's reading of the clock the
    lifespan has already passed since the item was created. *)
Definition expires_on_add (w : World) (life : Z) : bool :=
  sweeps_on_add w life &&
  (life <=? time_Sub (clock (S (ticks w))) (clock (ticks w))).

(** [well_formed] and [lifespans_typed] as computations. *)
Definition rw_is_free (m : RWMutex) : bool :=
  negb (writer m) && Nat.eqb (readers m) 0.

Definition well_formedb (w : World) : bool :=
  rw_is_free (table_mu (table w)) &&
  forallb
    (fun kr : Key * ptr =>
       match heap w !! kr.2 with
       | Some it => rw_is_free (item_mu it)
       | None => false
       end)
    (map_to_list (items (table w))) &&
  match cleanupTimer (table w) with
  | Some t => Nat.ltb t (length (timers w))
  | None => true
  end.

Definition lifespans_typedb (h : list CacheItem) : bool :=
  forallb (fun it => (int64_min <=? lifeSpan it) && (lifeSpan it <=? int64_max)) h.

(** Every entry's item carries the key it is stored under. *)
Definition keys_match (w : World) : Prop :=
  forall k r it,
    items (table w) !! k = Some r -> heap w !! r = Some it -> key it = k.

(** At most one timer is pending: the table's, armed for a positive
    cleanupInterval. *)
Definition one_timer (w : World) : Prop :=
  forall t tm,
    timers w !! t = Some tm -> pending tm = true ->
    cleanupTimer (table w) = Some t /\
    duration tm = cleanupInterval (table w) /\
    0 < cleanupInterval (table w).

(** A positive cleanupInterval is the duration of the table's timer, and
    that timer is pending. *)
Definition armed (w : World) : Prop :=
  0 < cleanupInterval (table w) ->
  exists t, cleanupTimer (table w) = Some t /\
            timers w !! t = Some (mkTimer (cleanupInterval (table w)) true).

(** What the operations of the table keep between them. *)
Record table_inv (w : World) : Prop := mkTableInv {
  inv_well_formed : well_formed w;
  inv_keys : keys_match w;
  inv_one_timer : one_timer w;
  inv_armed : armed w;
}.

(** The calls a user of the table makes (Count apart), and the firing of
    the table's timer, which runs [expirationCheck]. *)
Inductive Op :=
  | OpAdd (k : Key) (life : Z) (d : Any)
  | OpNotFoundAdd (k : Key) (life : Z) (d : Any)
  | OpDelete (k : Key)
  | OpValue (k : Key) (args : list Any)
  | OpExists (k : Key)
  | OpFlush
  | OpTimerFires
  | OpSetDataLoader (f : option Func)
  | OpSetLogger (l : option ptr)
  | OpSetAddedItemCallback (f : Func)
  | OpAddAddedItemCallback (f : Func)
  | OpRemoveAddedItemCallbacks
  | OpSetAboutToDeleteItemCallback (f : Func)
  | OpAddAboutToDeleteItemCallback (f : Func)
  | OpRemoveAboutToDeleteItemCallback.

Definition run_op (o : Op) : M unit :=
  match o with
  | OpAdd k life d => Add k life d ;; ret tt
  | OpNotFoundAdd k life d => NotFoundAdd k life d ;; ret tt
  | OpDelete k => Delete k ;; ret tt
  | OpValue k args => Value k args ;; ret tt
  | OpExists k => Exists k ;; ret tt
  | OpFlush => Flush
  | OpTimerFires => expirationCheck
  | OpSetDataLoader f => SetDataLoader f
  | OpSetLogger l => SetLogger l
  | OpSetAddedItemCallback f => SetAddedItemCallback f
  | OpAddAddedItemCallback f => AddAddedItemCallback f
  | OpRemoveAddedItemCallbacks => RemoveAddedItemCallbacks
  | OpSetAboutToDeleteItemCallback f => SetAboutToDeleteItemCallback f
  | OpAddAboutToDeleteItemCallback f => AddAboutToDeleteItemCallback f
  | OpRemoveAboutToDeleteItemCallback => RemoveAboutToDeleteItemCallback
  end.

(** The loader returns, leaves the table's invariant in place, and what
    it returns is the address of an item. *)
Definition loader_safe : Prop :=
  forall f k args w,
    table_inv w ->
    exists o w',
      data_loader f k args w = Done o w' /\
      table_inv w' /\
      (forall q, o = Some q -> is_Some (heap w' !! q)).

(** The events [Add] makes before any sweep: the store and the calls of
    the addedItem callbacks. *)
Definition is_add_event (e : Event) : bool :=
  match e with
  | EvAddedItem _ _ | EvMapStore _ _ => true
  | _ => false
  end.


(** What a callback that calls back into the table leaves of the world
    it was called in: nobody holds the table's lock when it returns,
    every item is still there with its lock as it was, and the trace has
    only grown. *)
Record undisturbed (w w' : World) : Prop := mkUndisturbed {
  und_table_mu : table_mu (table w') = rw_free;
  und_items : forall p it, heap w !! p = Some it ->
                exists it', heap w' !! p = Some it' /\ item_mu it' = item_mu it;
  und_trace : exists evs, trace w' = trace w ++ evs;
}.

(** Callbacks that return, whatever they do in between, whenever they
    are called with the table's lock free. *)
Definition polite {A} (callback : A -> M unit) : Prop :=
  forall (a : A) (w : World),
    table_mu (table w) = rw_free ->
    exists w', callback a w = Done tt w' /\ undisturbed w w'.


(** [range] yields every key of the map once, and nothing else. *)
Definition range_exact : Prop :=
  forall m : gmap Key ptr, range_order m ≡ₚ (map_to_list m).*1.

(** The contract of [sort.Sort]: the elements are rearranged, and
    afterwards no element is [Less] than one before it. *)
Definition sorts (sort_Sort : list CacheItemPair -> list CacheItemPair) : Prop :=
  forall l,
    sort_Sort l ≡ₚ l /\
    StronglySorted (fun a b => Less b a = false) (sort_Sort l).

(** The access count of the item at an address. *)
Definition hits (w : World) (r : ptr) : Z :=
  match heap w !! r with
  | Some it => accessCount it
  | None => 0
  end.

(** The operations that take the table's lock for writing. *)
Definition writes_table (o : Op) : bool :=
  match o with
  | OpValue _ _ | OpExists _ => false
  | _ => true
  end.

(** [n] calls of [KeepAlive] on an item. *)
Fixpoint KeepAlive_times (n : nat) (p : ptr) : M unit :=
  match n with
  | O => ret tt
  | S n' => KeepAlive p ;; KeepAlive_times n' p
  end.


(** The entries a loop over the keys [range] yields finds in the map. *)
Definition entries_of (m : gmap Key ptr) (ks : list Key) : list (Key * ptr) :=
  omap (fun k => (fun v => (k, v)) <$> m !! k) ks.


(** *** Callbacks that do something

    What follows describes the worlds the operations leave when the
    callbacks are known by what they do to the world: [item_effect f p]
    for the callback [f] called on the item [p], [key_effect f k] for the
    callback [f] called on the key [k]. *)

(** Two worlds with the same heap, table and timers: the cache is the
    same, the clock may have been read and the trace may differ. *)
Definition same_cache (w w' : World) : Prop :=
  heap w' = heap w /\ table w' = table w /\ timers w' = timers w.

(** The table's lock set to [m]. *)
Definition relock (m : RWMutex) (w : World) : World :=
  with_table (set_table_mu m (table w)) w.

(** The lock of the item at [r] set to [m]. *)
Definition relock_item (m : RWMutex) (r : ptr) (w : World) : World :=
  match heap w !! r with
  | Some it => with_heap (<[r := set_item_mu m it]> (heap w)) w
  | None => w
  end.

(** The world [Add] has made when it releases the table's lock, before
    it calls a callback: the new item is allocated and stored under its
    key. *)
Definition stored (k : Key) (life : Z) (d : Any) (w : World) : World :=
  let p := length (heap w) in
  mkWorld (heap w ++ [new_item k life d (clock (ticks w))])
    (set_items (<[k := p]> (items (table w))) (table w))
    (timers w) (S (ticks w))
    (trace w ++ log_events (table w) (LogAdd k life) ++ [EvMapStore k p]).

(** The rest of [addInternal], from the calls of the callbacks on. *)
Definition addInternal_callbacks (item : ptr) (expDur : Z) (added : list Func) : M unit :=
  for_each added (call_addedItem item) ;;
  it' <- load item ;;
  if (0 <? lifeSpan it') && ((expDur =? 0) || (lifeSpan it' <? expDur))
  then expirationCheck
  else ret tt.

(** The world in which the loop of the sweep starts: the lock taken, the
    timer stopped, the log line written, the clock read. *)
Definition sweep_start (w : World) : World :=
  mkWorld (heap w) (set_table_mu (mkRWMutex true 0) (table w))
    (stop_timer (cleanupTimer (table w)) (timers w))
    (S (ticks w))
    (trace w ++ log_events (table w) (check_line (table w))).

(** The world the sweep leaves when its loop has ended in [w1] with the
    smallest remaining time [sm]: the interval set, a timer armed when
    it is positive, the lock released. *)
Definition sweep_end (sm : Z) (w1 : World) : World :=
  if 0 <? sm
  then mkWorld (heap w1)
         (set_table_mu rw_free
            (set_cleanupTimer (Some (length (timers w1)))
               (set_cleanupInterval sm (table w1))))
         (timers w1 ++ [mkTimer sm true]) (ticks w1) (trace w1)
  else mkWorld (heap w1)
         (set_table_mu rw_free (set_cleanupInterval sm (table w1)))
         (timers w1) (ticks w1) (trace w1).

Section Effects.

Variable item_effect : Func -> ptr -> World -> World.
Variable key_effect : Func -> Key -> World -> World.

(** The callbacks [fs] called on the item [p], one after the other: each
    call is recorded as [ev], then the callback does what it does. *)
Definition after_item_callbacks (ev : Func -> ptr -> Event) (p : ptr)
    (fs : list Func) (w : World) : World :=
  foldl (fun w0 f => item_effect f p (with_trace (trace w0 ++ [ev f p]) w0)) w fs.

(** The same for the callbacks of an item, called on its key. *)
Definition after_key_callbacks (k : Key) (fs : list Func) (w : World) : World :=
  foldl (fun w0 f => key_effect f k (with_trace (trace w0 ++ [EvAboutToExpire f k]) w0))
    w fs.

(** What [deleteInternal] makes of a world in which nobody holds the
    table, for the entry of [k] with the item at [r]: the table's
    aboutToDeleteItem callbacks on the item; the item read-locked; the
    aboutToExpire callbacks the item has by then, on the key; the log
    line, the removal of the key, the item unlocked. *)
Definition after_delete (k : Key) (r : ptr) (w : World) : World :=
  let w1 := after_item_callbacks EvAboutToDeleteItem r (aboutToDeleteItem (table w)) w in
  let w2 := relock_item (mkRWMutex false 1) r w1 in
  let fs := match heap w2 !! r with
            | Some it => aboutToExpire it
            | None => []
            end in
  let w3 := after_key_callbacks k fs w2 in
  match heap w3 !! r with
  | Some it =>
      mkWorld (<[r := set_item_mu rw_free it]> (heap w3))
        (set_items (delete k (items (table w3))) (table w3))
        (timers w3) (ticks w3)
        (trace w3 ++
         log_events (table w3)
           (LogDelete k (createdOn it) (accessCount it) (name (table w3))) ++
         [EvMapDelete k])
  | None => w3
  end.

(** The loop of the sweep, on a world in which the sweep holds the
    table: for an expired entry the lock is released, [deleteInternal]
    does its work, and the lock is taken again. *)
Fixpoint after_sweep (now : Z) (ks : list Key) (w : World) : World :=
  match ks with
  | [] => w
  | k :: ks' =>
      match lookup_item (heap w) (items (table w)) k with
      | Some (r, it) =>
          if expired now it
          then after_sweep now ks'
                 (relock (mkRWMutex true 0) (after_delete k r (relock rw_free w)))
          else after_sweep now ks' w
      | None => after_sweep now ks' w
      end
  end.

(** The world [expirationCheck] leaves. *)
Definition after_expirationCheck (w : World) : World :=
  let now := clock (ticks w) in
  let ks := range_order (items (table w)) in
  sweep_end (sweep_smallest now (heap w) ks (items (table w)) 0)
    (after_sweep now ks (sweep_start w)).

(** The world [Add] leaves: the item stored, the addedItem callbacks
    called on it, and the sweep when [addInternal] goes on to it. *)
Definition after_added (k : Key) (life : Z) (d : Any) (w : World) : World :=
  after_item_callbacks EvAddedItem (length (heap w)) (addedItem (table w))
    (stored k life d w).

Definition after_Add (k : Key) (life : Z) (d : Any) (w : World) : World :=
  if sweeps_on_add w life
  then after_expirationCheck (after_added k life d w)
  else after_added k life d w.

(** Whether the sweep [Add] runs finds the item it has just stored
    expired: it sweeps, and by the sweep's reading of the clock, taken
    after the callbacks, the lifespan has passed since the item was
    created. *)
Definition expires_after_added (k : Key) (life : Z) (d : Any) (w : World) : bool :=
  sweeps_on_add w life &&
  (life <=? time_Sub (clock (ticks (after_added k life d w))) (clock (ticks w))).

End Effects.


(** ** Symbolic execution *)

Ltac unfold_ops :=
  cbv beta iota zeta delta
    [bind ret get_table modify_table emit time_Now alloc load store lock_step
     on_table_mu on_item_mu table_Lock table_Unlock table_RLock table_RUnlock
     item_Lock item_Unlock item_RLock item_RUnlock timer_Stop time_AfterFunc
     log map_delete map_store map_replace
     rw_Lock rw_Unlock rw_RLock rw_RUnlock rw_free
     with_heap with_table with_timers with_ticks with_trace
     set_item_mu set_access set_table_mu set_items set_cleanupTimer
     set_cleanupInterval];
  simpl.

(** For the lemmas that are about the data alone: drop the functions of
    the environment the statement does not mention. *)
Ltac data_only :=
  repeat match goal with
         | F : forall _ : nat, _ |- _ => clear F
         | F : gmap _ _ -> _ |- _ => clear F
         end.

Lemma log_events_no_callback (tb : CacheTable) (line : LogLine) :
  filter (fun e => is_callback e = true) (log_events tb line) = [].
Proof. unfold log_events. destruct (logger tb); reflexivity. Qed.

(** ** Flush *)

Lemma Flush_returns (w : World) :
  well_formed w ->
  Flush w =
  Done tt
    (mkWorld (heap w)
       (set_cleanupInterval 0 (set_items ∅ (table w)))
       (stop_timer (cleanupTimer (table w)) (timers w))
       (ticks w)
       (trace w ++ log_events (table w) (LogFlush (name (table w))) ++ [EvMapReplace])).
Proof.
  intros [Hmu _ Htm].
  destruct w as [h tb ts n tr].
  destruct tb as [mu nm its tmr itv lg ld ad dl]; simpl in *.
  subst mu.
  unfold Flush, log_events, stop_timer. unfold_ops.
  destruct tmr as [t|]; simpl.
  - destruct (lookup_lt_is_Some_2 ts t (Htm t eq_refl)) as [tm Ht].
    destruct lg; simpl; rewrite Ht; simpl; rewrite <- ?app_assoc; reflexivity.
  - destruct lg; simpl; rewrite <- ?app_assoc; reflexivity.
Qed.

(** C7: Flush returns; afterwards the item map is empty, cleanupInterval
    is 0, the table's timer (if it has one) is no longer pending, and the
    only events are the log line and the replacement of the map: no
    addedItem, aboutToDeleteItem or aboutToExpire callback is called, and
    no item is touched. *)
Theorem Flush_resets (w : World) :
  well_formed w ->
  exists w',
    Flush w = Done tt w' /\
    items (table w') = ∅ /\
    cleanupInterval (table w') = 0 /\
    (forall t, cleanupTimer (table w') = Some t ->
       exists tm, timers w' !! t = Some tm /\ pending tm = false) /\
    trace w' = trace w ++ log_events (table w) (LogFlush (name (table w))) ++ [EvMapReplace] /\
    filter (fun e => is_callback e = true) (trace w') =
      filter (fun e => is_callback e = true) (trace w) /\
    heap w' = heap w.
Proof.
  intros Hwf. eexists. split; [apply Flush_returns; exact Hwf|].
  simpl. repeat split.
  - intros t Ht. pose proof (wf_timer w Hwf t Ht) as Hlt.
    rewrite Ht. unfold stop_timer.
    destruct (lookup_lt_is_Some_2 _ _ Hlt) as [tm Htm]. rewrite Htm.
    eexists. split; [apply list_lookup_insert_eq; exact Hlt|reflexivity].
  - rewrite !filter_app, log_events_no_callback. simpl.
    rewrite app_nil_r. reflexivity.
Qed.

(** C10: Flush returns and leaves the loader, both callback lists, the
    logger and the name of the table as they were. *)
Theorem Flush_frame (w : World) :
  well_formed w ->
  exists w',
    Flush w = Done tt w' /\
    loadData (table w') = loadData (table w) /\
    addedItem (table w') = addedItem (table w) /\
    aboutToDeleteItem (table w') = aboutToDeleteItem (table w) /\
    logger (table w') = logger (table w) /\
    name (table w') = name (table w).
Proof.
  intros Hwf. eexists. split; [apply Flush_returns; exact Hwf|].
  simpl. repeat split.
Qed.

(** ** Count *)

(** C9: Count never returns: it takes the read lock and releases the
    write lock, which the runtime answers with a fatal error (when a
    writer holds the lock, Count waits for it instead). *)
Theorem Count_aborts (w : World) :
  Count w =
  if writer (table_mu (table w)) then Blocked w
  else Fatal UnlockOfUnlockedRWMutex
         (with_table
            (set_table_mu (mkRWMutex false (S (readers (table_mu (table w))))) (table w))
            w).
Proof.
  destruct w as [h tb ts n tr].
  destruct tb as [[wr rd] nm its tmr itv lg ld ad dl].
  unfold Count. unfold_ops. destruct wr; reflexivity.
Qed.

(** ** Value on a miss *)

(** C3: for a key that is not in the table, Value returns no item and
    the error KeyNotFound when the table has no loader, and no item and
    the error KeyNotFoundOrLoadable when it has one and the loader returns
    nil. *)
Theorem Value_absent (k : Key) (args : list Any) (w : World) :
  table_mu (table w) = rw_free ->
  items (table w) !! k = None ->
  (loadData (table w) = None ->
     Value k args w = Done (None, Some ErrKeyNotFound) w) /\
  (forall f w',
     loadData (table w) = Some f ->
     data_loader f k [ArgSlice args]
       (with_trace (trace w ++ [EvLoadData f k [ArgSlice args]]) w) = Done None w' ->
     Value k args w = Done (None, Some ErrKeyNotFoundOrLoadable) w').
Proof.
  destruct w as [h tb ts n tr].
  destruct tb as [mu nm its tmr itv lg ld ad dl]; simpl.
  intros -> Hk. split.
  - intros ->. unfold Value. unfold_ops. rewrite Hk. reflexivity.
  - intros f w' -> Hload. unfold Value, call_loadData. unfold_ops.
    rewrite Hk. unfold with_trace, rw_free in Hload; simpl in Hload.
    simpl. rewrite Hload. reflexivity.
Qed.

(** ** The cache item *)

Lemma wrap64_small (z : Z) : int64_min <= z <= int64_max -> wrap64 z = z.
Proof.
  unfold wrap64, int64_min, int64_max. intros Hz.
  rewrite Z.mod_small; lia.
Qed.

Lemma wrap64_range (z : Z) : int64_min <= wrap64 z <= int64_max.
Proof.
  unfold wrap64, int64_min, int64_max.
  pose proof (Z.mod_pos_bound (z + 2 ^ 63) (2 ^ 64) ltac:(lia)). lia.
Qed.

Lemma NewCacheItem_returns (k : Key) (life : Z) (d : Any) (w : World) :
  NewCacheItem k life d w =
  Done (length (heap w))
    (mkWorld
       (heap w ++ [mkCacheItem rw_free k d life (clock (ticks w)) (clock (ticks w)) 0 []])
       (table w) (timers w) (S (ticks w)) (trace w)).
Proof. destruct w. reflexivity. Qed.

Lemma KeepAlive_returns (p : ptr) (it : CacheItem) (w : World) :
  heap w !! p = Some it ->
  item_mu it = rw_free ->
  KeepAlive p w =
  Done tt
    (mkWorld
       (<[p := set_access (clock (ticks w)) (wrap64 (accessCount it + 1)) it]> (heap w))
       (table w) (timers w) (S (ticks w)) (trace w)).
Proof.
  destruct w as [h tb ts n tr]; simpl. intros Hp Hmu.
  pose proof (lookup_lt_Some _ _ _ Hp) as Hlt.
  destruct it as [mu ik idt il ic ia ih icb]; simpl in Hmu; subst mu.
  unfold KeepAlive. unfold_ops. rewrite Hp; simpl.
  repeat (rewrite list_lookup_insert_eq by (rewrite ?length_insert; exact Hlt); simpl).
  rewrite !list_insert_insert_eq. reflexivity.
Qed.

Lemma item_step_dated (w w' : World) :
  monotone_clock -> items_dated w -> item_step w w' -> items_dated w'.
Proof.
  data_only.
  intros Hclk Hinv Hstep.
  assert (Hnext : clock (ticks w) <= clock (S (ticks w))) by (apply Hclk; lia).
  destruct Hstep as [k life d p Hnew | p Hkeep].
  - rewrite NewCacheItem_returns in Hnew. injection Hnew as _ <-.
    intros q it; simpl. intros Hq.
    apply lookup_app_Some in Hq as [Hq | [_ Hq]].
    + destruct (Hinv q it Hq) as (? & ? & ?). repeat split; try tauto; lia.
    + apply list_lookup_singleton_Some in Hq as [_ <-]; simpl.
      unfold int64_min, int64_max. repeat split; lia.
  - destruct (heap w !! p) as [it0|] eqn:Hp.
    + destruct (Hinv p it0 Hp) as (Hmu & Hdate & Hcnt).
      rewrite (KeepAlive_returns p it0 w Hp Hmu) in Hkeep. injection Hkeep as <-.
      intros q it; simpl. intros Hq.
      destruct (decide (p = q)) as [<- | Hne].
      * rewrite list_lookup_insert_eq in Hq by (eapply lookup_lt_Some; exact Hp).
        injection Hq as <-; simpl.
        pose proof (wrap64_range (accessCount it0 + 1)).
        repeat split; try tauto; lia.
      * rewrite list_lookup_insert_ne in Hq by exact Hne.
        destruct (Hinv q it Hq) as (? & ? & ?). repeat split; try tauto; lia.
    + exfalso. revert Hkeep. destruct w as [h tb ts n tr]; simpl in Hp.
      unfold KeepAlive. unfold_ops. rewrite Hp. discriminate.
Qed.

Lemma item_steps_dated (w0 w : World) :
  monotone_clock -> heap w0 = [] -> rtc item_step w0 w -> items_dated w.
Proof.
  data_only.
  intros Hclk Hempty Hrun.
  assert (H0 : items_dated w0).
  { intros p it. rewrite Hempty, lookup_nil. discriminate. }
  clear Hempty. induction Hrun as [|w1 w2 w3 Hstep _ IH]; [exact H0|].
  apply IH. eapply item_step_dated; eassumption.
Qed.

(** C8: in every world reached from one without items by NewCacheItem
    and KeepAlive calls, under a clock that does not run backwards, each
    item has accessedOn >= createdOn; and a further call leaves each item
    in place with its createdOn, and with an accessCount that is not
    smaller (for a counter below the largest int64, where [++] wraps). *)
Theorem item_invariant (w0 w : World) :
  monotone_clock ->
  heap w0 = [] ->
  rtc item_step w0 w ->
  (forall p it, heap w !! p = Some it -> createdOn it <= accessedOn it) /\
  (forall p it w',
     heap w !! p = Some it -> item_step w w' ->
     exists it',
       heap w' !! p = Some it' /\
       createdOn it' = createdOn it /\
       createdOn it' <= accessedOn it' /\
       (accessCount it < int64_max -> accessCount it <= accessCount it')).
Proof.
  data_only.
  intros Hclk Hempty Hrun.
  pose proof (item_steps_dated w0 w Hclk Hempty Hrun) as Hinv.
  split.
  - intros p it Hp. destruct (Hinv p it Hp) as (_ & ? & _). lia.
  - intros p it w' Hp Hstep.
    pose proof (item_step_dated w w' Hclk Hinv Hstep) as Hinv'.
    destruct Hstep as [k life d q Hnew | q Hkeep].
    + rewrite NewCacheItem_returns in Hnew. injection Hnew as _ <-.
      exists it. simpl. split; [apply lookup_app_l_Some; exact Hp|].
      destruct (Hinv p it Hp) as (_ & ? & _). repeat split; lia.
    + destruct (heap w !! q) as [it0|] eqn:Hq.
      * destruct (Hinv q it0 Hq) as (Hmu & Hdate & Hcnt).
        rewrite (KeepAlive_returns q it0 w Hq Hmu) in Hkeep. injection Hkeep as <-.
        destruct (decide (q = p)) as [-> | Hne].
        -- assert (it0 = it) as -> by congruence.
           eexists. simpl. split.
           { apply list_lookup_insert_eq. eapply lookup_lt_Some; exact Hp. }
           simpl. assert (clock (ticks w) <= clock (S (ticks w))) by (apply Hclk; lia).
           repeat split; try lia.
           intros Hlt. rewrite wrap64_small; unfold int64_min, int64_max in *; lia.
        -- exists it. simpl. split.
           { rewrite list_lookup_insert_ne by exact Hne. exact Hp. }
           destruct (Hinv p it Hp) as (_ & ? & _). repeat split; lia.
      * exfalso. revert Hkeep. destruct w as [h tb ts n tr]; simpl in Hq.
        unfold KeepAlive. unfold_ops. rewrite Hq. discriminate.
Qed.

(** ** The accessors and the callback list of an item *)

Ltac unfold_more :=
  cbv beta iota zeta delta
    [LifeSpan AccessedOn CreatedOn AccessCount ItemKey ItemData
     RemoveAboutToExpireCallback SetAboutToExpireCallback AddAboutToExpireCallback
     SetDataLoader RemoveAddedItemCallbacks SetAddedItemCallback AddAddedItemCallback
     RemoveAboutToDeleteItemCallback SetAboutToDeleteItemCallback
     AddAboutToDeleteItemCallback SetLogger Exists
     set_aboutToExpire set_logger set_addedItem set_aboutToDeleteItem set_loadData];
  unfold_ops.

(** What the accessors return on an item nobody holds. *)
Lemma accessors_return (p : ptr) (it : CacheItem) (w : World) :
  heap w !! p = Some it ->
  item_mu it = rw_free ->
  ItemKey p w = Done (key it) w /\
  ItemData p w = Done (data it) w /\
  LifeSpan p w = Done (lifeSpan it) w /\
  CreatedOn p w = Done (createdOn it) w /\
  AccessedOn p w = Done (accessedOn it) w /\
  AccessCount p w = Done (accessCount it) w.
Proof.
  data_only.
  destruct w as [h tb ts n tr]; simpl. intros Hp Hmu.
  pose proof (lookup_lt_Some _ _ _ Hp) as Hlt.
  destruct it as [mu ik idt il ic ia ih icb]; simpl in Hmu; subst mu.
  unfold rw_free in Hp.
  repeat split; unfold_more; rewrite Hp; simpl;
    repeat (rewrite list_lookup_insert_eq by (rewrite ?length_insert; exact Hlt); simpl);
    rewrite ?list_insert_insert_eq, ?(list_insert_id _ _ _ Hp); reflexivity.
Qed.

(** X1: what NewCacheItem was given is what the accessors of the new item
    return: the key, the data, the lifespan, one and the same time of
    creation and of last access, and no access yet; the item is at an
    address that was not in use. *)
Theorem NewCacheItem_accessors (k : Key) (life : Z) (d : Any) (w : World) :
  exists p w',
    NewCacheItem k life d w = Done p w' /\
    heap w !! p = None /\
    ItemKey p w' = Done k w' /\
    ItemData p w' = Done d w' /\
    LifeSpan p w' = Done life w' /\
    CreatedOn p w' = Done (clock (ticks w)) w' /\
    AccessedOn p w' = Done (clock (ticks w)) w' /\
    AccessCount p w' = Done 0 w'.
Proof.
  data_only.
  eexists _, _. split; [apply NewCacheItem_returns|].
  split; [apply lookup_ge_None; lia|].
  apply (accessors_return _ (mkCacheItem rw_free k d life (clock (ticks w)) (clock (ticks w)) 0 [])).
  - simpl. apply list_lookup_middle. reflexivity.
  - reflexivity.
Qed.

Lemma KeepAlive_times_returns (n : nat) (p : ptr) :
  forall (it : CacheItem) (w : World),
    heap w !! p = Some it ->
    item_mu it = rw_free ->
    int64_min <= accessCount it ->
    accessCount it + Z.of_nat n <= int64_max ->
    exists it',
      KeepAlive_times n p w =
        Done tt (mkWorld (<[p := it']> (heap w)) (table w) (timers w)
                   (ticks w + n)%nat (trace w)) /\
      item_mu it' = rw_free /\
      key it' = key it /\ data it' = data it /\ lifeSpan it' = lifeSpan it /\
      createdOn it' = createdOn it /\ aboutToExpire it' = aboutToExpire it /\
      accessCount it' = accessCount it + Z.of_nat n /\
      accessedOn it' = match n with
                       | O => accessedOn it
                       | S m => clock (ticks w + m)%nat
                       end.
Proof.
  data_only.
  induction n as [|n IH]; intros it w Hp Hmu Hlo Hhi.
  - exists it. simpl. split.
    + destruct w as [h tb ts t tr]; simpl in *. unfold ret.
      rewrite (list_insert_id _ _ _ Hp), Nat.add_0_r. reflexivity.
    + repeat split; try assumption; try reflexivity; lia.
  - simpl. unfold bind at 1. rewrite (KeepAlive_returns p it w Hp Hmu).
    set (it1 := set_access (clock (ticks w)) (wrap64 (accessCount it + 1)) it).
    assert (Hp1 : <[p := it1]> (heap w) !! p = Some it1).
    { apply list_lookup_insert_eq. eapply lookup_lt_Some; exact Hp. }
    assert (Hc1 : accessCount it1 = accessCount it + 1).
    { simpl. apply wrap64_small. lia. }
    assert (Hlo1 : int64_min <= accessCount it1) by lia.
    assert (Hhi1 : accessCount it1 + Z.of_nat n <= int64_max) by lia.
    destruct (IH it1 (mkWorld (<[p := it1]> (heap w)) (table w) (timers w)
                        (S (ticks w)) (trace w)) Hp1 Hmu Hlo1 Hhi1)
      as (it' & Hrun & Hmu' & Hk & Hd & Hl & Hc & Hcb & Hcnt & Hacc).
    exists it'. split.
    + rewrite Hrun. simpl. rewrite list_insert_insert_eq.
      replace (S (ticks w + n))%nat with (ticks w + S n)%nat by lia. reflexivity.
    + simpl in *. repeat split; try assumption; try lia.
      destruct n as [|m].
      * rewrite Hacc, Nat.add_0_r. reflexivity.
      * rewrite Hacc. f_equal. lia.
Qed.

(** X2: accessCount counts the calls of KeepAlive.  After [n] calls on an
    item nobody holds (a counter that stays within int64), AccessCount
    returns [n] more than before, AccessedOn returns the clock reading of
    the last call, CreatedOn what it returned before, and the clock has
    been read [n] times. *)
Theorem KeepAlive_counts (n : nat) (p : ptr) (it : CacheItem) (w : World) :
  heap w !! p = Some it ->
  item_mu it = rw_free ->
  int64_min <= accessCount it ->
  accessCount it + Z.of_nat (S n) <= int64_max ->
  exists w',
    KeepAlive_times (S n) p w = Done tt w' /\
    AccessCount p w' = Done (accessCount it + Z.of_nat (S n)) w' /\
    AccessedOn p w' = Done (clock (ticks w + n)%nat) w' /\
    CreatedOn p w' = Done (createdOn it) w' /\
    ticks w' = (ticks w + S n)%nat.
Proof.
  data_only.
  intros Hp Hmu Hlo Hhi.
  destruct (KeepAlive_times_returns (S n) p it w Hp Hmu Hlo Hhi)
    as (it' & Hrun & Hmu' & _ & _ & _ & Hc & _ & Hcnt & Hacc).
  eexists. split; [exact Hrun|].
  assert (Hp' : <[p := it']> (heap w) !! p = Some it').
  { apply list_lookup_insert_eq. eapply lookup_lt_Some; exact Hp. }
  destruct (accessors_return p it'
              (mkWorld (<[p := it']> (heap w)) (table w) (timers w)
                 (ticks w + S n)%nat (trace w)) Hp' Hmu')
    as (_ & _ & _ & Hcr & Hao & Hac).
  rewrite Hcnt in Hac. rewrite Hacc in Hao. rewrite Hc in Hcr.
  split; [exact Hac|]. split; [exact Hao|]. split; [exact Hcr|]. reflexivity.
Qed.

(** X3: the three operations on an item's aboutToExpire list, on an item
    nobody holds: Set leaves the one callback given, whatever was
    registered before; Add appends to what was registered; Remove leaves
    none.  Nothing else of the item or of the world changes. *)
Theorem aboutToExpire_setters (p : ptr) (f : Func) (it : CacheItem) (w : World) :
  heap w !! p = Some it ->
  item_mu it = rw_free ->
  SetAboutToExpireCallback p f w =
    Done tt (with_heap (<[p := set_aboutToExpire [f] it]> (heap w)) w) /\
  AddAboutToExpireCallback p f w =
    Done tt (with_heap (<[p := set_aboutToExpire (aboutToExpire it ++ [f]) it]> (heap w)) w) /\
  RemoveAboutToExpireCallback p w =
    Done tt (with_heap (<[p := set_aboutToExpire [] it]> (heap w)) w).
Proof.
  data_only.
  destruct w as [h tb ts n tr]; simpl. intros Hp Hmu.
  pose proof (lookup_lt_Some _ _ _ Hp) as Hlt.
  destruct it as [mu ik idt il ic ia ih icb]; simpl in Hmu; subst mu.
  unfold rw_free in Hp.
  split; [|split].
  - unfold_more. rewrite Hp; simpl. destruct icb as [|g icb]; simpl.
    + rewrite Hp; simpl.
      repeat (rewrite list_lookup_insert_eq by (rewrite ?length_insert; exact Hlt); simpl).
      rewrite !list_insert_insert_eq. reflexivity.
    + rewrite Hp; simpl.
      repeat (rewrite list_lookup_insert_eq by (rewrite ?length_insert; exact Hlt); simpl).
      rewrite !list_insert_insert_eq. reflexivity.
  - unfold_more. rewrite Hp; simpl.
    repeat (rewrite list_lookup_insert_eq by (rewrite ?length_insert; exact Hlt); simpl).
    rewrite !list_insert_insert_eq. reflexivity.
  - unfold_more. rewrite Hp; simpl.
    repeat (rewrite list_lookup_insert_eq by (rewrite ?length_insert; exact Hlt); simpl).
    rewrite !list_insert_insert_eq. reflexivity.
Qed.

(** ** The configuration of the table *)

(** X4: the operations on the table's two callback lists, its loader and
    its logger, on a table nobody holds: Set leaves the one callback
    given, whatever was registered before; Add appends; Remove leaves
    none; SetDataLoader and SetLogger replace the field.  Each returns
    with the lock released and changes nothing else. *)
Theorem table_setters (f : Func) (ld : option Func) (lg : option ptr) (w : World) :
  table_mu (table w) = rw_free ->
  SetAddedItemCallback f w = Done tt (with_table (set_addedItem [f] (table w)) w) /\
  AddAddedItemCallback f w =
    Done tt (with_table (set_addedItem (addedItem (table w) ++ [f]) (table w)) w) /\
  RemoveAddedItemCallbacks w = Done tt (with_table (set_addedItem [] (table w)) w) /\
  SetAboutToDeleteItemCallback f w =
    Done tt (with_table (set_aboutToDeleteItem [f] (table w)) w) /\
  AddAboutToDeleteItemCallback f w =
    Done tt (with_table
               (set_aboutToDeleteItem (aboutToDeleteItem (table w) ++ [f]) (table w)) w) /\
  RemoveAboutToDeleteItemCallback w =
    Done tt (with_table (set_aboutToDeleteItem [] (table w)) w) /\
  SetDataLoader ld w = Done tt (with_table (set_loadData ld (table w)) w) /\
  SetLogger lg w = Done tt (with_table (set_logger lg (table w)) w).
Proof.
  data_only.
  destruct w as [h tb ts n tr].
  destruct tb as [mu nm its tmr itv lgr ldr ad dl]; simpl. intros ->.
  repeat split; unfold_more; try reflexivity.
  - destruct ad; reflexivity.
  - destruct dl; reflexivity.
Qed.

(** X5: Exists, on a table no writer holds, returns whether the key has
    an entry and leaves the world as it was: the lock is released, and
    the item is not touched (its accessedOn and accessCount are as
    before, unlike after Value). *)
Theorem Exists_spec (k : Key) (w : World) :
  writer (table_mu (table w)) = false ->
  Exists k w = Done (bool_decide (is_Some (items (table w) !! k))) w.
Proof.
  data_only.
  destruct w as [h tb ts n tr].
  destruct tb as [[wr rd] nm its tmr itv lgr ldr ad dl]; simpl. intros ->.
  unfold_more. destruct (its !! k) as [r|] eqn:Hk.
  - rewrite bool_decide_eq_true_2 by eauto. reflexivity.
  - rewrite bool_decide_eq_false_2 by (intros [? ?]; discriminate). reflexivity.
Qed.

(** ** Deleting *)

Section Passive.

(** The callbacks of this section return and leave the world as it is
    (they neither call back into the table nor touch an item). *)
Hypothesis item_callback_passive : forall f p w, item_callback f p w = Done tt w.
Hypothesis key_callback_passive : forall f k w, key_callback f k w = Done tt w.

Lemma for_each_aboutToDeleteItem (r : ptr) (l : list Func) (w : World) :
  for_each l (call_aboutToDeleteItem r) w =
  Done tt (with_trace (trace w ++ map (fun f => EvAboutToDeleteItem f r) l) w).
Proof.
  revert w. induction l as [|f l IH]; intros w; simpl.
  - destruct w; unfold ret, with_trace; simpl. rewrite app_nil_r. reflexivity.
  - unfold bind at 1. unfold call_aboutToDeleteItem, bind, emit.
    rewrite item_callback_passive, IH.
    destruct w; unfold with_trace; simpl. rewrite <- app_assoc. reflexivity.
Qed.

Lemma for_each_addedItem (p : ptr) (l : list Func) (w : World) :
  for_each l (call_addedItem p) w =
  Done tt (with_trace (trace w ++ map (fun f => EvAddedItem f p) l) w).
Proof.
  revert w. induction l as [|f l IH]; intros w; simpl.
  - destruct w; unfold ret, with_trace; simpl. rewrite app_nil_r. reflexivity.
  - unfold bind at 1. unfold call_addedItem, bind, emit.
    rewrite item_callback_passive, IH.
    destruct w; unfold with_trace; simpl. rewrite <- app_assoc. reflexivity.
Qed.

Lemma for_each_aboutToExpire (k : Key) (l : list Func) (w : World) :
  for_each l (call_aboutToExpire k) w =
  Done tt (with_trace (trace w ++ map (fun f => EvAboutToExpire f k) l) w).
Proof.
  revert w. induction l as [|f l IH]; intros w; simpl.
  - destruct w; unfold ret, with_trace; simpl. rewrite app_nil_r. reflexivity.
  - unfold bind at 1. unfold call_aboutToExpire, bind, emit.
    rewrite key_callback_passive, IH.
    destruct w; unfold with_trace; simpl. rewrite <- app_assoc. reflexivity.
Qed.

(** [deleteInternal] on a present key, entered with the table's lock
    held. *)
Lemma deleteInternal_held (k : Key) (r : ptr) (it : CacheItem) (w : World) :
  table_mu (table w) = mkRWMutex true 0 ->
  items (table w) !! k = Some r ->
  heap w !! r = Some it ->
  item_mu it = rw_free ->
  deleteInternal k w =
  Done (Some r, None)
    (mkWorld (heap w)
       (set_items (delete k (items (table w))) (table w))
       (timers w) (ticks w)
       (trace w ++ delete_events (table w) it k r)).
Proof.
  destruct w as [h tb ts n tr].
  destruct tb as [mu nm its tmr itv lg ld ad dl]; simpl.
  intros -> Hk Hr Hmu.
  pose proof (lookup_lt_Some _ _ _ Hr) as Hlt.
  destruct it as [mu ik idt il ic ia ih icb]; simpl in Hmu; subst mu.
  unfold rw_free in Hr.
  unfold deleteInternal, delete_events, log_events.
  unfold bind at 1. unfold get_table; simpl. rewrite Hk.
  unfold bind at 1. unfold table_Unlock, on_table_mu, bind, get_table, lock_step,
    modify_table, rw_Unlock, with_table, set_table_mu; simpl.
  rewrite for_each_aboutToDeleteItem. unfold_ops. rewrite Hr; simpl.
  repeat (rewrite list_lookup_insert_eq by (rewrite ?length_insert; exact Hlt); simpl).
  rewrite for_each_aboutToExpire. unfold_ops.
  repeat (rewrite list_lookup_insert_eq by (rewrite ?length_insert; exact Hlt); simpl).
  destruct lg as [sink|]; simpl;
    repeat (rewrite list_lookup_insert_eq by (rewrite ?length_insert; exact Hlt); simpl);
    rewrite list_insert_insert_eq, (list_insert_id _ _ _ Hr), <- ?app_assoc;
    reflexivity.
Qed.

(** ** The sweep *)

Lemma delete_events_set_items (m : gmap Key ptr) (tb : CacheTable) it k r :
  delete_events (set_items m tb) it k r = delete_events tb it k r.
Proof. reflexivity. Qed.

Lemma sweep_trace_set_items now (m0 : gmap Key ptr) (tb : CacheTable) h ks :
  forall m, sweep_trace now (set_items m0 tb) h ks m = sweep_trace now tb h ks m.
Proof.
  induction ks as [|k ks IH]; intros m; simpl; [reflexivity|].
  destruct (lookup_item h m k) as [[r it]|]; [|apply IH].
  rewrite !IH. reflexivity.
Qed.

(** Reading an unlocked item under its read lock leaves the world as it
    was. *)
Lemma read_item {A} (r : ptr) (it : CacheItem) (w : World) (c : CacheItem -> M A) :
  heap w !! r = Some it ->
  item_mu it = rw_free ->
  (item_RLock r ;; it0 <- load r ;; item_RUnlock r ;; c it0) w =
  c (set_item_mu (mkRWMutex false 1) it) w.
Proof.
  destruct w as [h tb ts n tr]; simpl. intros Hr Hmu.
  pose proof (lookup_lt_Some _ _ _ Hr) as Hlt.
  destruct it as [mu ik idt il ic ia ih icb]; simpl in Hmu; subst mu.
  unfold rw_free in Hr. unfold_ops. rewrite Hr; simpl.
  repeat (rewrite list_lookup_insert_eq by (rewrite ?length_insert; exact Hlt); simpl).
  rewrite list_insert_insert_eq, (list_insert_id _ _ _ Hr). reflexivity.
Qed.

Lemma sweep_returns (now : Z) (ks : list Key) :
  forall (sm : Z) (w : World),
    table_mu (table w) = mkRWMutex true 0 ->
    (forall k r, items (table w) !! k = Some r ->
       exists it, heap w !! r = Some it /\ item_mu it = rw_free) ->
    sweep now ks sm w =
    Done (sweep_smallest now (heap w) ks (items (table w)) sm)
      (mkWorld (heap w)
         (set_items (sweep_items now (heap w) ks (items (table w))) (table w))
         (timers w) (ticks w)
         (trace w ++ sweep_trace now (table w) (heap w) ks (items (table w)))).
Proof.
  induction ks as [|k ks IH]; intros sm w Hmu Hits.
  - destruct w as [h tb ts n tr]; destruct tb; simpl.
    unfold ret; simpl. rewrite app_nil_r. reflexivity.
  - simpl. unfold bind at 1. unfold get_table.
    unfold lookup_item.
    destruct (items (table w) !! k) as [r|] eqn:Hk; [|apply IH; assumption].
    destruct (Hits k r Hk) as (it & Hr & Hfree). rewrite Hr.
    rewrite (read_item r it w) by assumption. simpl.
    unfold expired, remaining, idle_time.
    destruct (lifeSpan it =? 0) eqn:Hzero; simpl; [apply IH; assumption|].
    destruct (lifeSpan it <=? time_Sub now (accessedOn it)) eqn:Hexp; simpl.
    + unfold bind at 1.
      rewrite (deleteInternal_held k r it w Hmu Hk Hr Hfree).
      rewrite IH; simpl.
      * rewrite sweep_trace_set_items, <- app_assoc.
        destruct w as [h tb ts n tr]; destruct tb; reflexivity.
      * destruct w as [h tb ts n tr]; destruct tb; exact Hmu.
      * intros k' r' Hk'.
        apply lookup_delete_Some in Hk' as [_ Hk']. eauto.
    + destruct ((sm =? 0) || (dur_sub (lifeSpan it) (time_Sub now (accessedOn it)) <? sm));
        apply IH; assumption.
Qed.

(** *** What the loop leaves in the map *)

Lemma sweep_items_Some now h ks :
  forall (m : gmap Key ptr) k r,
    sweep_items now h ks m !! k = Some r -> m !! k = Some r.
Proof.
  data_only.
  induction ks as [|k0 ks IH]; intros m k r; simpl; [auto|].
  destruct (lookup_item h m k0) as [[r0 it0]|]; [|apply IH].
  destruct (expired now it0); [|apply IH].
  intros Hk. apply IH in Hk. apply lookup_delete_Some in Hk. tauto.
Qed.

Lemma sweep_items_keeps now h ks :
  forall (m : gmap Key ptr) k r it,
    m !! k = Some r -> h !! r = Some it -> expired now it = false ->
    sweep_items now h ks m !! k = Some r.
Proof.
  data_only.
  induction ks as [|k0 ks IH]; intros m k r it Hk Hr Hexp; simpl; [auto|].
  destruct (lookup_item h m k0) as [[r0 it0]|] eqn:Hk0; [|eapply IH; eauto].
  destruct (expired now it0) eqn:Hexp0; [|eapply IH; eauto].
  eapply IH; eauto. rewrite lookup_delete_ne; [exact Hk|].
  intros ->. unfold lookup_item in Hk0. rewrite Hk, Hr in Hk0. congruence.
Qed.

Lemma sweep_items_drops now h ks :
  forall (m : gmap Key ptr) k r it,
    k ∈ ks -> m !! k = Some r -> h !! r = Some it -> expired now it = true ->
    sweep_items now h ks m !! k = None.
Proof.
  data_only.
  induction ks as [|k0 ks IH]; intros m k r it Hin Hk Hr Hexp; simpl.
  - apply elem_of_nil in Hin. contradiction.
  - destruct (decide (k = k0)) as [<- | Hne].
    + unfold lookup_item. rewrite Hk, Hr, Hexp.
      destruct (sweep_items now h ks (delete k m) !! k) as [r'|] eqn:Hk'; [|reflexivity].
      apply sweep_items_Some in Hk'. rewrite lookup_delete_eq in Hk'. discriminate.
    + apply elem_of_cons in Hin as [? | Hin]; [contradiction|].
      destruct (lookup_item h m k0) as [[r0 it0]|]; [|eapply IH; eauto].
      destruct (expired now it0); [|eapply IH; eauto].
      eapply IH; eauto. rewrite lookup_delete_ne by congruence. exact Hk.
Qed.

(** *** What the loop calls *)

Lemma sweep_trace_contains now tb h ks :
  forall (m : gmap Key ptr) k r it,
    k ∈ ks -> m !! k = Some r -> h !! r = Some it -> expired now it = true ->
    exists pre post,
      sweep_trace now tb h ks m = pre ++ delete_events tb it k r ++ post.
Proof.
  data_only.
  induction ks as [|k0 ks IH]; intros m k r it Hin Hk Hr Hexp; simpl.
  - apply elem_of_nil in Hin. contradiction.
  - destruct (decide (k = k0)) as [<- | Hne].
    + unfold lookup_item. rewrite Hk, Hr, Hexp.
      exists [], (sweep_trace now tb h ks (delete k m)). reflexivity.
    + apply elem_of_cons in Hin as [? | Hin]; [contradiction|].
      destruct (lookup_item h m k0) as [[r0 it0]|]; [|eapply IH; eauto].
      destruct (expired now it0); [|eapply IH; eauto].
      destruct (IH (delete k0 m) k r it) as (pre & post & Heq); auto.
      { rewrite lookup_delete_ne by congruence. exact Hk. }
      exists (delete_events tb it0 k0 r0 ++ pre), post.
      rewrite Heq, <- app_assoc. reflexivity.
Qed.

(** *** The smallest remaining time *)

Lemma time_Sub_range (t u : Z) : int64_min <= time_Sub t u <= int64_max.
Proof.
  unfold time_Sub. pose proof (wrap64_range (t - u)) as Hr.
  destruct ((wrap64 (t - u) <? 0) && (u <? t)); [unfold int64_min, int64_max; lia|].
  destruct ((0 <? wrap64 (t - u)) && (t <? u)); [unfold int64_min, int64_max; lia|].
  exact Hr.
Qed.

Lemma wrap64_nonzero (z : Z) : 0 < z < 2 ^ 64 -> wrap64 z <> 0.
Proof.
  intros Hz. unfold wrap64.
  destruct (Z_lt_le_dec (z + 2 ^ 63) (2 ^ 64)) as [Hlt | Hge].
  - rewrite Z.mod_small by lia. lia.
  - replace (z + 2 ^ 63) with ((z + 2 ^ 63 - 2 ^ 64) + 1 * 2 ^ 64) by lia.
    rewrite Z_mod_plus_full, Z.mod_small by lia. lia.
Qed.

(** An item the sweep keeps although its lifespan is not 0 has time
    left, and the sweep never takes that time for "none yet". *)
Lemma remaining_nonzero (now : Z) (it : CacheItem) :
  int64_min <= lifeSpan it <= int64_max ->
  lifeSpan it <> 0 ->
  expired now it = false ->
  idle_time now it < lifeSpan it /\ remaining now it <> 0.
Proof.
  intros Hty Hnz Hexp. unfold expired in Hexp.
  apply andb_false_iff in Hexp as [Hexp | Hexp].
  - apply negb_false_iff, Z.eqb_eq in Hexp. contradiction.
  - apply Z.leb_gt in Hexp. split; [exact Hexp|].
    unfold remaining, dur_sub. apply wrap64_nonzero.
    pose proof (time_Sub_range now (accessedOn it)) as Hr.
    unfold idle_time, int64_min, int64_max in *. lia.
Qed.

Lemma sweep_smallest_spec now h ks :
  lifespans_typed h ->
  forall (m : gmap Key ptr) (sm : Z),
    (forall k it, k ∈ ks -> finite_survivor now h m k it ->
       sweep_smallest now h ks m sm <= remaining now it /\
       sweep_smallest now h ks m sm <> 0) /\
    (sweep_smallest now h ks m sm = sm \/
     exists k it, k ∈ ks /\ finite_survivor now h m k it /\
                  sweep_smallest now h ks m sm = remaining now it) /\
    (sm <> 0 -> sweep_smallest now h ks m sm <= sm /\
                sweep_smallest now h ks m sm <> 0).
Proof.
  data_only.
  intros Hty. induction ks as [|k0 ks IH]; intros m sm; simpl.
  - split; [|split].
    + intros k it Hin. apply elem_of_nil in Hin. contradiction.
    + left; reflexivity.
    + intros Hsm; split; [lia | exact Hsm].
  - destruct (lookup_item h m k0) as [[r0 it0]|] eqn:Hk0.
    + unfold lookup_item in Hk0.
      destruct (m !! k0) as [r0'|] eqn:Hm0; [|discriminate].
      destruct (h !! r0') as [it0'|] eqn:Hh0; [|discriminate].
      injection Hk0 as -> ->.
      destruct (expired now it0) eqn:Hexp0.
      * destruct (IH (delete k0 m) sm) as (IH1 & IH2 & IH3).
        split; [|split; [|exact IH3]].
        -- intros k it Hin (r & Hk & Hr & Hnz & Hexp).
           assert (k <> k0) as Hne by (intros ->; congruence).
           apply elem_of_cons in Hin as [? | Hin]; [contradiction|].
           apply (IH1 k it); [exact Hin|]. exists r.
           rewrite lookup_delete_ne by congruence. auto.
        -- destruct IH2 as [? | (k & it & Hin & (r & Hk & Hrest) & Heq)]; [left; assumption|].
           right. exists k, it. split; [apply elem_of_cons; auto|].
           split; [|exact Heq]. exists r.
           apply lookup_delete_Some in Hk as [_ Hk]. auto.
      * destruct (lifeSpan it0 =? 0) eqn:Hz0.
        -- apply Z.eqb_eq in Hz0.
           destruct (IH m sm) as (IH1 & IH2 & IH3).
           split; [|split; [|exact IH3]].
           ++ intros k it Hin Hsurv.
              apply elem_of_cons in Hin as [-> | Hin]; [|apply (IH1 k it); assumption].
              destruct Hsurv as (r & Hk & Hr & Hnz & _).
              assert (it = it0) as -> by congruence. contradiction.
           ++ destruct IH2 as [? | (k & it & Hin & Hrest)]; [left; assumption|].
              right. exists k, it. split; [apply elem_of_cons; auto | exact Hrest].
        -- apply Z.eqb_neq in Hz0.
           assert (Hsurv0 : finite_survivor now h m k0 it0) by (exists r0; auto).
           destruct (remaining_nonzero now it0 (Hty _ _ Hh0) Hz0 Hexp0) as [_ Hrem0].
           destruct ((sm =? 0) || (remaining now it0 <? sm)) eqn:Hcmp.
           ++ destruct (IH m (remaining now it0)) as (IH1 & IH2 & IH3).
              specialize (IH3 Hrem0).
              split; [|split].
              ** intros k it Hin Hsurv.
                 apply elem_of_cons in Hin as [-> | Hin]; [|apply (IH1 k it); assumption].
                 destruct Hsurv as (r & Hk & Hr & _).
                 assert (it = it0) as -> by congruence. exact IH3.
              ** right. destruct IH2 as [Heq | (k & it & Hin & Hrest)].
                 --- exists k0, it0. split; [apply elem_of_cons; auto|]. auto.
                 --- exists k, it. split; [apply elem_of_cons; auto | exact Hrest].
              ** intros Hsm. apply orb_true_iff in Hcmp as [Hcmp | Hcmp].
                 --- apply Z.eqb_eq in Hcmp. contradiction.
                 --- apply Z.ltb_lt in Hcmp. split; [lia | tauto].
           ++ apply orb_false_iff in Hcmp as [Hsm Hcmp].
              apply Z.eqb_neq in Hsm. apply Z.ltb_ge in Hcmp.
              destruct (IH m sm) as (IH1 & IH2 & IH3).
              specialize (IH3 Hsm).
              split; [|split].
              ** intros k it Hin Hsurv.
                 apply elem_of_cons in Hin as [-> | Hin]; [|apply (IH1 k it); assumption].
                 destruct Hsurv as (r & Hk & Hr & _).
                 assert (it = it0) as -> by congruence. split; [lia | tauto].
              ** destruct IH2 as [? | (k & it & Hin & Hrest)]; [left; assumption|].
                 right. exists k, it. split; [apply elem_of_cons; auto | exact Hrest].
              ** intros _. exact IH3.
    + destruct (IH m sm) as (IH1 & IH2 & IH3).
      split; [|split; [|exact IH3]].
      * intros k it Hin Hsurv.
        apply elem_of_cons in Hin as [-> | Hin]; [|apply (IH1 k it); assumption].
        destruct Hsurv as (r & Hk & Hr & _).
        unfold lookup_item in Hk0. rewrite Hk, Hr in Hk0. discriminate.
      * destruct IH2 as [? | (k & it & Hin & Hrest)]; [left; assumption|].
        right. exists k, it. split; [apply elem_of_cons; auto | exact Hrest].
Qed.

(** *** Steps with their preconditions *)

Lemma table_Lock_free (w : World) :
  table_mu (table w) = rw_free ->
  table_Lock w = Done tt (with_table (set_table_mu (mkRWMutex true 0) (table w)) w).
Proof.
  destruct w as [h tb ts n tr]; destruct tb; simpl. intros ->. reflexivity.
Qed.

Lemma table_Unlock_held (w : World) :
  table_mu (table w) = mkRWMutex true 0 ->
  table_Unlock w = Done tt (with_table (set_table_mu rw_free (table w)) w).
Proof.
  destruct w as [h tb ts n tr]; destruct tb; simpl. intros ->. reflexivity.
Qed.

Lemma log_returns (line : LogLine) (w : World) :
  log line w = Done tt (with_trace (trace w ++ log_events (table w) line) w).
Proof.
  destruct w as [h tb ts n tr]; destruct tb as [mu nm its tmr itv lg ld ad dl].
  unfold log, log_events. unfold_ops.
  destruct lg; simpl; rewrite ?app_nil_r; reflexivity.
Qed.

Lemma timer_Stop_returns (w : World) :
  (forall t, cleanupTimer (table w) = Some t -> (t < length (timers w))%nat) ->
  match cleanupTimer (table w) with
  | Some t => timer_Stop t
  | None => ret tt
  end w =
  Done tt (with_timers (stop_timer (cleanupTimer (table w)) (timers w)) w).
Proof.
  destruct w as [h tb ts n tr]; destruct tb as [mu nm its tmr itv lg ld ad dl]; simpl.
  intros Htm. destruct tmr as [t|]; simpl; [|reflexivity].
  destruct (lookup_lt_is_Some_2 ts t (Htm t eq_refl)) as [tm Ht].
  unfold timer_Stop; simpl. rewrite Ht. reflexivity.
Qed.

Lemma stop_timer_length (t : option ptr) (ts : list Timer) :
  length (stop_timer t ts) = length ts.
Proof.
  unfold stop_timer. destruct t as [t|]; [|reflexivity].
  destruct (ts !! t); [apply length_insert | reflexivity].
Qed.

Lemma sweep_trace_ext now (tb tb' : CacheTable) h ks :
  aboutToDeleteItem tb = aboutToDeleteItem tb' ->
  logger tb = logger tb' ->
  name tb = name tb' ->
  forall m, sweep_trace now tb h ks m = sweep_trace now tb' h ks m.
Proof.
  intros Hcb Hlg Hnm.
  induction ks as [|k ks IH]; intros m; simpl; [reflexivity|].
  destruct (lookup_item h m k) as [[r it]|]; [|apply IH].
  rewrite !IH. unfold delete_events, log_events. rewrite Hcb, Hlg, Hnm.
  reflexivity.
Qed.

(** *** expirationCheck *)

Lemma expirationCheck_returns (w : World) :
  well_formed w -> expirationCheck w = Done tt (swept w).
Proof.
  intros [Hmu Hits Htm].
  unfold expirationCheck.
  unfold bind at 1. rewrite (table_Lock_free w Hmu).
  unfold bind at 1. unfold get_table.
  unfold bind at 1.
  destruct w as [h tb ts n tr].
  destruct tb as [mu nm its tmr itv lg ld ad dl]; simpl in *. subst mu.
  pose proof (timer_Stop_returns
    (mkWorld h (mkCacheTable (mkRWMutex true 0) nm its tmr itv lg ld ad dl) ts n tr) Htm)
    as Hstop.
  simpl in Hstop. unfold with_table, set_table_mu; simpl. rewrite Hstop. clear Hstop.
  unfold bind at 1.
  assert (Hlog : forall w : World,
    (if 0 <? itv then log (LogCheckAfter itv nm) else log (LogCheckSetup nm)) w =
    log (if 0 <? itv then LogCheckAfter itv nm else LogCheckSetup nm) w).
  { intros w. destruct (0 <? itv); reflexivity. }
  rewrite Hlog, log_returns. clear Hlog.
  unfold bind at 1. unfold time_Now. simpl.
  unfold bind at 1. unfold get_table. simpl.
  unfold bind at 1.
  rewrite sweep_returns by (simpl; auto). simpl.
  unfold swept, check_line; simpl.
  set (sm := sweep_smallest (clock n) h (range_order its) its 0).
  unfold_ops.
  match goal with
  | |- context [sweep_trace ?a ?tb1 ?h1 ?ks ?m] =>
      rewrite (sweep_trace_ext a tb1 (mkCacheTable rw_free nm its tmr itv lg ld ad dl))
        by reflexivity
  end.
  unfold log_events; simpl.
  destruct (0 <? sm); simpl; rewrite <- ?app_assoc; reflexivity.
Qed.

Lemma expired_true (now : Z) (it : CacheItem) :
  expired now it = true <-> lifeSpan it <> 0 /\ lifeSpan it <= idle_time now it.
Proof.
  unfold expired. rewrite andb_true_iff, negb_true_iff, Z.eqb_neq, Z.leb_le.
  reflexivity.
Qed.

Lemma expired_false (now : Z) (it : CacheItem) :
  expired now it = false <-> lifeSpan it = 0 \/ idle_time now it < lifeSpan it.
Proof.
  unfold expired. rewrite andb_false_iff, negb_false_iff, Z.eqb_eq, Z.leb_gt.
  reflexivity.
Qed.

(** ** Adding *)

Lemma added_well_formed (k : Key) (life : Z) (d : Any) (w : World) :
  well_formed w -> well_formed (added k life d w).
Proof.
  data_only.
  intros [Hmu Hits Htm]. split; simpl.
  - destruct w as [h tb ts n tr]; destruct tb; exact Hmu.
  - intros k' r Hk'. destruct (decide (k = k')) as [<- | Hne].
    + rewrite lookup_insert_eq in Hk'. injection Hk' as <-.
      exists (new_item k life d (clock (ticks w))). split; [|reflexivity].
      apply list_lookup_middle. reflexivity.
    + rewrite lookup_insert_ne in Hk' by exact Hne.
      destruct (Hits k' r Hk') as (it & Hr & Hfree).
      exists it. split; [apply lookup_app_l_Some; exact Hr | exact Hfree].
  - exact Htm.
Qed.

Lemma swept_well_formed (w : World) : well_formed w -> well_formed (swept w).
Proof.
  data_only.
  intros [Hmu Hits Htm]. split; simpl.
  - reflexivity.
  - intros k r Hk. apply sweep_items_Some in Hk. eauto.
  - intros t.
    destruct (0 <? sweep_smallest _ _ _ _ _).
    + intros Ht. injection Ht as <-. rewrite length_app. simpl. lia.
    + intros Ht. rewrite stop_timer_length. auto.
Qed.

Lemma addInternal_returns (k : Key) (life : Z) (d : Any) (w : World) :
  well_formed w ->
  addInternal (length (heap w))
    (mkWorld (heap w ++ [new_item k life d (clock (ticks w))])
       (set_table_mu (mkRWMutex true 0) (table w))
       (timers w) (S (ticks w)) (trace w)) =
  Done tt (if sweeps_on_add w life then swept (added k life d w) else added k life d w).
Proof.
  intros Hwf. pose proof (added_well_formed k life d w Hwf) as Hwf'.
  destruct Hwf as [Hmu _ _].
  destruct w as [h tb ts n tr]; destruct tb as [mu nm its tmr itv lg ld ad dl].
  simpl in Hmu. subst mu. simpl.
  unfold addInternal.
  unfold bind at 1. unfold load; simpl.
  rewrite list_lookup_middle by reflexivity. simpl.
  unfold bind at 1. rewrite log_returns.
  unfold bind at 1. unfold map_store, bind at 1, emit. simpl.
  unfold modify_table. simpl.
  unfold bind at 1. unfold get_table. simpl.
  unfold bind at 1. rewrite table_Unlock_held by reflexivity. simpl.
  unfold bind at 1. rewrite for_each_addedItem. simpl.
  unfold bind at 1. unfold load; simpl.
  rewrite list_lookup_middle by reflexivity. simpl.
  unfold sweeps_on_add; simpl.
  match goal with
  | |- _ ?W = _ =>
      replace W with
        (added k life d (mkWorld h (mkCacheTable rw_free nm its tmr itv lg ld ad dl) ts n tr))
  end.
  - destruct ((0 <? life) && ((itv =? 0) || (life <? itv))); [|reflexivity].
    apply expirationCheck_returns. exact Hwf'.
  - unfold added, log_events. unfold_ops. rewrite <- !app_assoc. reflexivity.
Qed.

Lemma Add_returns (k : Key) (life : Z) (d : Any) (w : World) :
  well_formed w ->
  Add k life d w =
  Done (length (heap w))
    (if sweeps_on_add w life then swept (added k life d w) else added k life d w).
Proof.
  intros Hwf. unfold Add.
  unfold bind at 1. rewrite NewCacheItem_returns.
  unfold bind at 1. rewrite table_Lock_free by (simpl; apply Hwf).
  unfold bind at 1.
  pose proof (addInternal_returns k life d w Hwf) as Hadd.
  unfold new_item in Hadd. unfold with_table; simpl.
  rewrite Hadd. reflexivity.
Qed.

Lemma Add_well_formed (k : Key) (life : Z) (d : Any) (w : World) :
  well_formed w ->
  well_formed (if sweeps_on_add w life then swept (added k life d w) else added k life d w).
Proof.
  data_only.
  intros Hwf. destruct (sweeps_on_add w life).
  - apply swept_well_formed, added_well_formed, Hwf.
  - apply added_well_formed, Hwf.
Qed.

(** ** Value on a hit *)

Lemma Value_hit (k : Key) (args : list Any) (r : ptr) (it : CacheItem) (w : World) :
  table_mu (table w) = rw_free ->
  items (table w) !! k = Some r ->
  heap w !! r = Some it ->
  item_mu it = rw_free ->
  Value k args w =
  Done (Some r, None)
    (mkWorld
       (<[r := set_access (clock (ticks w)) (wrap64 (accessCount it + 1)) it]> (heap w))
       (table w) (timers w) (S (ticks w)) (trace w)).
Proof.
  intros Hmu Hk Hr Hfree.
  pose proof (KeepAlive_returns r it w Hr Hfree) as Hkeep.
  destruct w as [h tb ts n tr]; destruct tb as [mu nm its tmr itv lg ld ad dl].
  simpl in *. subst mu.
  unfold Value.
  unfold bind at 1. unfold table_RLock, on_table_mu, bind at 1, get_table; simpl.
  unfold modify_table; simpl.
  unfold bind at 1. unfold get_table; simpl.
  unfold bind at 1. unfold table_RUnlock, on_table_mu, bind at 1, get_table; simpl.
  unfold modify_table; simpl. rewrite Hk.
  unfold bind at 1. unfold with_table, set_table_mu; simpl.
  unfold rw_free in Hkeep. rewrite Hkeep. reflexivity.
Qed.


(** X8: Add can return with its key absent.  When the sweep that Add
    runs for a positive lifespan reads the clock at least that lifespan
    after the item was created, the sweep deletes the item Add has just
    stored: Add still returns the item's address, and the key has no
    entry. *)
Lemma Add_drops (k : Key) (life : Z) (d : Any) (w : World) :
  range_complete ->
  well_formed w ->
  expires_on_add w life = true ->
  exists w',
    Add k life d w = Done (length (heap w)) w' /\
    items (table w') !! k = None.
Proof.
  intros Hrange Hwf Hexp. unfold expires_on_add in Hexp.
  apply andb_true_iff in Hexp as [Hsw Hexp].
  eexists. split; [apply Add_returns; exact Hwf|].
  rewrite Hsw. simpl.
  apply (sweep_items_drops _ _ _ _ _ (length (heap w))
           (new_item k life d (clock (ticks w)))).
  - apply Hrange. rewrite lookup_insert_eq. eauto.
  - apply lookup_insert_eq.
  - apply list_lookup_middle. reflexivity.
  - unfold expired, idle_time; simpl. rewrite Hexp.
    unfold sweeps_on_add in Hsw. apply andb_true_iff in Hsw as [Hpos _].
    apply Z.ltb_lt in Hpos.
    assert ((life =? 0) = false) as -> by (apply Z.eqb_neq; lia).
    reflexivity.
Qed.


(** ** NotFoundAdd *)


(** ** Equations for the remaining outcomes *)

Lemma Delete_returns (k : Key) (r : ptr) (it : CacheItem) (w : World) :
  well_formed w ->
  items (table w) !! k = Some r ->
  heap w !! r = Some it ->
  Delete k w =
  Done (Some r, None)
    (mkWorld (heap w)
       (set_items (delete k (items (table w))) (table w))
       (timers w) (ticks w)
       (trace w ++ delete_events (table w) it k r)).
Proof.
  intros [Hmu Hits Htm] Hk Hr.
  destruct (Hits k r Hk) as (it' & Hr' & Hfree).
  assert (it' = it) as -> by congruence.
  unfold Delete. unfold bind at 1. rewrite (table_Lock_free w Hmu).
  unfold bind at 1.
  rewrite (deleteInternal_held k r it) by (simpl; auto).
  destruct w as [h tb ts n tr]; destruct tb; simpl in *; subst.
  unfold_ops. reflexivity.
Qed.

Lemma Delete_absent_returns (k : Key) (w : World) :
  table_mu (table w) = rw_free ->
  items (table w) !! k = None ->
  Delete k w = Done (None, Some ErrKeyNotFound) w.
Proof.
  data_only.
  destruct w as [h tb ts n tr].
  destruct tb as [mu nm its tmr itv lg ld ad dl]; simpl. intros -> Hk.
  unfold Delete, deleteInternal. unfold_ops. rewrite Hk; simpl. reflexivity.
Qed.

Lemma Value_miss_returns (k : Key) (args : list Any) (w : World) :
  table_mu (table w) = rw_free ->
  items (table w) !! k = None ->
  loadData (table w) = None ->
  Value k args w = Done (None, Some ErrKeyNotFound) w.
Proof.
  data_only.
  destruct w as [h tb ts n tr].
  destruct tb as [mu nm its tmr itv lg ld ad dl]; simpl. intros -> Hk ->.
  unfold Value. unfold_ops. rewrite Hk. reflexivity.
Qed.

Lemma NotFoundAdd_present_returns (k : Key) (life : Z) (d : Any) (r : ptr) (w : World) :
  table_mu (table w) = rw_free ->
  items (table w) !! k = Some r ->
  NotFoundAdd k life d w = Done false w.
Proof.
  data_only.
  destruct w as [h tb ts n tr].
  destruct tb as [mu nm its tmr itv lg ld ad dl]; simpl. intros -> Hk.
  unfold NotFoundAdd. unfold_ops. rewrite Hk. reflexivity.
Qed.

Lemma NotFoundAdd_absent_returns (k : Key) (life : Z) (d : Any) (w : World) :
  well_formed w ->
  items (table w) !! k = None ->
  NotFoundAdd k life d w =
  Done true (if sweeps_on_add w life then swept (added k life d w) else added k life d w).
Proof.
  intros Hwf Hk. unfold NotFoundAdd.
  unfold bind at 1. rewrite table_Lock_free by apply Hwf.
  unfold bind at 1. unfold get_table. simpl. rewrite Hk.
  unfold bind at 1. rewrite NewCacheItem_returns. simpl.
  unfold bind at 1.
  pose proof (addInternal_returns k life d w Hwf) as Hadd.
  unfold new_item in Hadd. rewrite Hadd. reflexivity.
Qed.

(** ** The invariant *)

Lemma table_inv_frame (w w' : World) :
  heap w' = heap w ->
  timers w' = timers w ->
  table_mu (table w') = table_mu (table w) ->
  items (table w') = items (table w) ->
  cleanupTimer (table w') = cleanupTimer (table w) ->
  cleanupInterval (table w') = cleanupInterval (table w) ->
  table_inv w -> table_inv w'.
Proof.
  data_only.
  intros Hh Ht Hm Hi Hc Hv [[Hmu Hits Htm] Hkeys Hone Harm].
  split; [split|..].
  - rewrite Hm. exact Hmu.
  - intros k r. rewrite Hi, Hh. apply Hits.
  - intros t. rewrite Hc, Ht. apply Htm.
  - intros k r it. rewrite Hi, Hh. apply Hkeys.
  - intros t tm. rewrite Ht, Hc, Hv. apply Hone.
  - unfold armed. rewrite Hv, Hc, Ht. exact Harm.
Qed.

Lemma added_inv (k : Key) (life : Z) (d : Any) (w : World) :
  table_inv w -> table_inv (added k life d w).
Proof.
  data_only.
  intros [Hwf Hkeys Hone Harm].
  split.
  - apply added_well_formed. exact Hwf.
  - intros k' r it; simpl. intros Hk' Hr.
    destruct (decide (k = k')) as [<- | Hne].
    + rewrite lookup_insert_eq in Hk'. injection Hk' as <-.
      rewrite list_lookup_middle in Hr by reflexivity. injection Hr as <-. reflexivity.
    + rewrite lookup_insert_ne in Hk' by exact Hne.
      destruct (wf_items w Hwf k' r Hk') as (it' & Hr' & _).
      rewrite (lookup_app_l_Some _ _ _ _ Hr') in Hr. injection Hr as <-.
      eapply Hkeys; eauto.
  - intros t tm; simpl. destruct w as [h tb ts n tr]; destruct tb; simpl in *.
    apply Hone.
  - unfold armed in *. destruct w as [h tb ts n tr]; destruct tb; simpl in *.
    exact Harm.
Qed.

Lemma stop_timer_lookup (t0 : option ptr) (ts : list Timer) (t : ptr) (tm : Timer) :
  stop_timer t0 ts !! t = Some tm ->
  exists tm0, ts !! t = Some tm0 /\ duration tm = duration tm0 /\
              (pending tm = true -> pending tm0 = true /\ t0 <> Some t).
Proof.
  unfold stop_timer. destruct t0 as [t0|];
    [|intros Ht; exists tm; repeat split; try assumption; discriminate].
  destruct (ts !! t0) as [tm0|] eqn:Ht0.
  - destruct (decide (t0 = t)) as [-> | Hne].
    + rewrite list_lookup_insert_eq by (eapply lookup_lt_Some; exact Ht0).
      intros [= <-]. exists tm0. simpl. repeat split; try assumption; discriminate.
    + rewrite list_lookup_insert_ne by exact Hne.
      intros Ht. exists tm. repeat split; try assumption. congruence.
  - intros Ht. exists tm. repeat split; try assumption. congruence.
Qed.

Lemma swept_inv (w : World) : table_inv w -> table_inv (swept w).
Proof.
  data_only.
  intros [Hwf Hkeys Hone Harm].
  assert (Hquiet : forall t tm,
            stop_timer (cleanupTimer (table w)) (timers w) !! t = Some tm ->
            pending tm = false).
  { intros t tm Ht. destruct (pending tm) eqn:Hp; [|reflexivity].
    apply stop_timer_lookup in Ht as (tm0 & Ht0 & _ & Himp).
    destruct (Himp Hp) as [Hp0 Hne].
    destruct (Hone t tm0 Ht0 Hp0) as (Hc & _). congruence. }
  split.
  - apply swept_well_formed. exact Hwf.
  - intros k r it; simpl. intros Hk Hr.
    apply sweep_items_Some in Hk. eapply Hkeys; eauto.
  - intros t tm; simpl.
    destruct (0 <? sweep_smallest _ _ _ _ _) eqn:Hsm.
    + intros Ht Hp. apply lookup_app_Some in Ht as [Ht | [Hlen Ht]].
      * rewrite (Hquiet t tm Ht) in Hp. discriminate.
      * apply list_lookup_singleton_Some in Ht as [Hz <-]. simpl.
        apply Z.ltb_lt in Hsm. repeat split; try assumption.
        f_equal. lia.
    + intros Ht Hp. rewrite (Hquiet t tm Ht) in Hp. discriminate.
  - unfold armed; simpl.
    destruct (0 <? sweep_smallest _ _ _ _ _) eqn:Hsm.
    + intros _. eexists. split; [reflexivity|].
      apply list_lookup_middle. reflexivity.
    + apply Z.ltb_ge in Hsm. intros Hpos. lia.
Qed.

Lemma deleted_inv (k : Key) (tr : list Event) (w : World) :
  table_inv w ->
  table_inv (mkWorld (heap w) (set_items (delete k (items (table w))) (table w))
               (timers w) (ticks w) tr).
Proof.
  data_only.
  intros [[Hmu Hits Htm] Hkeys Hone Harm].
  destruct w as [h tb ts n tr0]; destruct tb as [mu nm its tmr itv lg ld ad dl].
  simpl in *. split; [split|..]; simpl.
  - exact Hmu.
  - intros k' r Hk'. simpl in Hk'. apply lookup_delete_Some in Hk' as [_ Hk']. eauto.
  - exact Htm.
  - intros k' r it Hk' Hr. simpl in Hk'. apply lookup_delete_Some in Hk' as [_ Hk']. eauto.
  - exact Hone.
  - exact Harm.
Qed.

Lemma flushed_inv (tr : list Event) (w : World) :
  table_inv w ->
  table_inv (mkWorld (heap w) (set_cleanupInterval 0 (set_items ∅ (table w)))
               (stop_timer (cleanupTimer (table w)) (timers w)) (ticks w) tr).
Proof.
  data_only.
  intros [[Hmu Hits Htm] Hkeys Hone Harm].
  split; [split|..]; simpl.
  - destruct w as [h tb ts n tr0]; destruct tb; exact Hmu.
  - intros k r Hk. destruct w as [h tb ts n tr0]; destruct tb; simpl in Hk.
    rewrite lookup_empty in Hk. discriminate.
  - intros t Ht. rewrite stop_timer_length. apply Htm.
    destruct w as [h tb ts n tr0]; destruct tb; exact Ht.
  - intros k r it Hk. destruct w as [h tb ts n tr0]; destruct tb; simpl in Hk.
    rewrite lookup_empty in Hk. discriminate.
  - intros t tm Ht Hp. exfalso.
    apply stop_timer_lookup in Ht as (tm0 & Ht0 & _ & Himp).
    destruct (Himp Hp) as [Hp0 Hne].
    destruct (Hone t tm0 Ht0 Hp0) as (Hc & _). congruence.
  - unfold armed; simpl. lia.
Qed.

Lemma touched_inv (r : ptr) (it : CacheItem) (t c : Z) (n : nat) (w : World) :
  heap w !! r = Some it ->
  item_mu it = rw_free ->
  table_inv w ->
  table_inv (mkWorld (<[r := set_access t c it]> (heap w)) (table w) (timers w)
               n (trace w)).
Proof.
  data_only.
  intros Hr Hfree [[Hmu Hits Htm] Hkeys Hone Harm].
  pose proof (lookup_lt_Some _ _ _ Hr) as Hlt.
  split; [split|..]; simpl; try assumption.
  - intros k r' Hk. destruct (decide (r = r')) as [<- | Hne].
    + exists (set_access t c it). rewrite list_lookup_insert_eq by exact Hlt.
      split; [reflexivity | exact Hfree].
    + destruct (Hits k r' Hk) as (it' & Hr' & Hfree'). exists it'.
      rewrite list_lookup_insert_ne by exact Hne. auto.
  - intros k r' it' Hk. simpl in Hk. simpl. destruct (decide (r = r')) as [<- | Hne].
    + rewrite list_lookup_insert_eq by exact Hlt. intros [= <-]. simpl. eauto.
    + rewrite list_lookup_insert_ne by exact Hne. eauto.
Qed.

Lemma Add_inv (k : Key) (life : Z) (d : Any) (w : World) :
  table_inv w ->
  table_inv (if sweeps_on_add w life then swept (added k life d w) else added k life d w).
Proof.
  data_only.
  intros Hinv. destruct (sweeps_on_add w life).
  - apply swept_inv, added_inv, Hinv.
  - apply added_inv, Hinv.
Qed.

(** [Value] on a miss, whatever the loader does. *)
Lemma Value_loader_returns (k : Key) (args : list Any) (f : Func)
    (o : option ptr) (w w1 : World) :
  table_mu (table w) = rw_free ->
  items (table w) !! k = None ->
  loadData (table w) = Some f ->
  data_loader f k [ArgSlice args]
    (with_trace (trace w ++ [EvLoadData f k [ArgSlice args]]) w) = Done o w1 ->
  Value k args w =
  match o with
  | Some q =>
      (it <- load q ;; Add k (lifeSpan it) (data it) ;; ret (Some q, None)) w1
  | None => Done (None, Some ErrKeyNotFoundOrLoadable) w1
  end.
Proof.
  destruct w as [h tb ts n tr]; destruct tb as [mu nm its tmr itv lg ld ad dl].
  simpl. intros -> Hk -> Hload.
  unfold Value, call_loadData.
  unfold bind at 1. unfold table_RLock, on_table_mu, bind at 1, get_table; simpl.
  unfold modify_table; simpl.
  unfold bind at 1. unfold get_table; simpl.
  unfold bind at 1. unfold table_RUnlock, on_table_mu, bind at 1, get_table; simpl.
  unfold modify_table; simpl. rewrite Hk.
  unfold bind at 1. unfold bind at 1. unfold emit; simpl.
  unfold with_table, set_table_mu, with_trace in *; simpl in *.
  unfold rw_free in Hload. rewrite Hload.
  destruct o; reflexivity.
Qed.

Section Composition.

Hypothesis loader_is_safe : loader_safe.

Lemma run_op_inv (o : Op) (w : World) :
  table_inv w ->
  exists w', run_op o w = Done tt w' /\ table_inv w'.
Proof.
  intros Hinv. pose proof (inv_well_formed w Hinv) as Hwf.
  pose proof (wf_table_mu w Hwf) as Hmu.
  destruct o as [k life d | k life d | k | k args | k | | | f | l | f | f | | f | f | ];
    simpl.
  - eexists. unfold bind. rewrite (Add_returns k life d w Hwf).
    split; [reflexivity | apply Add_inv; exact Hinv].
  - destruct (items (table w) !! k) as [r|] eqn:Hk.
    + exists w. unfold bind.
      rewrite (NotFoundAdd_present_returns k life d r w Hmu Hk). auto.
    + eexists. unfold bind. rewrite (NotFoundAdd_absent_returns k life d w Hwf Hk).
      split; [reflexivity | apply Add_inv; exact Hinv].
  - destruct (items (table w) !! k) as [r|] eqn:Hk.
    + destruct (wf_items w Hwf k r Hk) as (it & Hr & _).
      eexists. unfold bind. rewrite (Delete_returns k r it w Hwf Hk Hr).
      split; [reflexivity | apply deleted_inv; exact Hinv].
    + exists w. unfold bind. rewrite (Delete_absent_returns k w Hmu Hk). auto.
  - destruct (items (table w) !! k) as [r|] eqn:Hk.
    + destruct (wf_items w Hwf k r Hk) as (it & Hr & Hfree).
      eexists. unfold bind. rewrite (Value_hit k args r it w Hmu Hk Hr Hfree).
      split; [reflexivity | apply touched_inv; assumption].
    + destruct (loadData (table w)) as [f|] eqn:Hld.
      * assert (Hinv0 : table_inv (with_trace (trace w ++ [EvLoadData f k [ArgSlice args]]) w)).
        { apply (table_inv_frame w); try reflexivity. exact Hinv. }
        destruct (loader_is_safe f k [ArgSlice args] _ Hinv0)
          as (o & w1 & Hload & Hinv1 & Hq).
        unfold bind. rewrite (Value_loader_returns k args f o w w1 Hmu Hk Hld Hload).
        destruct o as [q|].
        -- destruct (Hq q eq_refl) as [itq Hitq].
           unfold bind, load. rewrite Hitq.
           rewrite (Add_returns _ _ _ w1 (inv_well_formed w1 Hinv1)).
           eexists. split; [reflexivity | apply Add_inv; exact Hinv1].
        -- exists w1. auto.
      * exists w. unfold bind. rewrite (Value_miss_returns k args w Hmu Hk Hld). auto.
  - exists w. split; [|exact Hinv].
    destruct w as [h tb ts n tr]; destruct tb as [mu nm its tmr itv lg ld ad dl].
    simpl in Hmu. subst mu. unfold_more. reflexivity.
  - eexists. rewrite (Flush_returns w Hwf).
    split; [reflexivity | apply flushed_inv; exact Hinv].
  - eexists. rewrite (expirationCheck_returns w Hwf).
    split; [reflexivity | apply swept_inv; exact Hinv].
  - exists (with_table (set_loadData f (table w)) w). split.
    + destruct w as [h tb ts n tr]; destruct tb as [mu nm its tmr itv lg ld ad dl].
      simpl in Hmu. subst mu. reflexivity.
    + apply (table_inv_frame w); try reflexivity. exact Hinv.
  - exists (with_table (set_logger l (table w)) w). split.
    + destruct w as [h tb ts n tr]; destruct tb as [mu nm its tmr itv lg ld ad dl].
      simpl in Hmu. subst mu. reflexivity.
    + apply (table_inv_frame w); try reflexivity. exact Hinv.
  - exists (with_table (set_addedItem [f] (table w)) w). split.
    + destruct w as [h tb ts n tr]; destruct tb as [mu nm its tmr itv lg ld ad dl].
      simpl in Hmu. subst mu. unfold_more. destruct ad; reflexivity.
    + apply (table_inv_frame w); try reflexivity. exact Hinv.
  - exists (with_table (set_addedItem (addedItem (table w) ++ [f]) (table w)) w). split.
    + destruct w as [h tb ts n tr]; destruct tb as [mu nm its tmr itv lg ld ad dl].
      simpl in Hmu. subst mu. reflexivity.
    + apply (table_inv_frame w); try reflexivity. exact Hinv.
  - exists (with_table (set_addedItem [] (table w)) w). split.
    + destruct w as [h tb ts n tr]; destruct tb as [mu nm its tmr itv lg ld ad dl].
      simpl in Hmu. subst mu. reflexivity.
    + apply (table_inv_frame w); try reflexivity. exact Hinv.
  - exists (with_table (set_aboutToDeleteItem [f] (table w)) w). split.
    + destruct w as [h tb ts n tr]; destruct tb as [mu nm its tmr itv lg ld ad dl].
      simpl in Hmu. subst mu. unfold_more. destruct dl; reflexivity.
    + apply (table_inv_frame w); try reflexivity. exact Hinv.
  - exists (with_table (set_aboutToDeleteItem (aboutToDeleteItem (table w) ++ [f]) (table w)) w).
    split.
    + destruct w as [h tb ts n tr]; destruct tb as [mu nm its tmr itv lg ld ad dl].
      simpl in Hmu. subst mu. reflexivity.
    + apply (table_inv_frame w); try reflexivity. exact Hinv.
  - exists (with_table (set_aboutToDeleteItem [] (table w)) w). split.
    + destruct w as [h tb ts n tr]; destruct tb as [mu nm its tmr itv lg ld ad dl].
      simpl in Hmu. subst mu. reflexivity.
    + apply (table_inv_frame w); try reflexivity. exact Hinv.
Qed.

(** X11: any sequence of calls of the table (Add, NotFoundAdd, Delete,
    Value, Exists, Flush, the setters) and firings of its timer, started
    on a table that satisfies the invariant, runs to its end: no call is
    left waiting for a lock or aborted.  Afterwards the invariant holds
    again: nobody holds a lock, every entry points to an item that
    carries the entry's key, at most one timer is pending, and a positive
    cleanupInterval is the duration that timer is armed for. *)
Theorem operations_keep_invariant (ops : list Op) (w : World) :
  table_inv w ->
  exists w', for_each ops run_op w = Done tt w' /\ table_inv w'.
Proof.
  revert w. induction ops as [|o ops IH]; intros w Hinv; simpl.
  - exists w. auto.
  - destruct (run_op_inv o w Hinv) as (w1 & Hrun & Hinv1).
    destruct (IH w1 Hinv1) as (w' & Hrest & Hinv').
    exists w'. unfold bind. rewrite Hrun. auto.
Qed.

End Composition.

(** ** What a sweep can call *)

(** Every event of the sweep belongs to the deletion of an entry that
    was in the map and had expired. *)
Lemma sweep_trace_origin now tb h ks :
  forall (m : gmap Key ptr) (e : Event),
    e ∈ sweep_trace now tb h ks m ->
    exists k r it,
      m !! k = Some r /\ h !! r = Some it /\ expired now it = true /\
      e ∈ delete_events tb it k r.
Proof.
  data_only.
  induction ks as [|k0 ks IH]; intros m e; simpl.
  - intros He. apply elem_of_nil in He. contradiction.
  - destruct (lookup_item h m k0) as [[r0 it0]|] eqn:Hk0; [|apply IH].
    destruct (expired now it0) eqn:Hexp; [|apply IH].
    intros He. apply elem_of_app in He as [He | He].
    + unfold lookup_item in Hk0.
      destruct (m !! k0) as [r1|] eqn:Hm; [|discriminate].
      destruct (h !! r1) as [it1|] eqn:Hh; [|discriminate].
      injection Hk0 as -> ->. exists k0, r0, it0. auto.
    + destruct (IH _ _ He) as (k & r & it & Hk & Hr & Hex & Hin).
      apply lookup_delete_Some in Hk as [_ Hk]. exists k, r, it. auto.
Qed.

Lemma log_events_no_add (tb : CacheTable) (line : LogLine) :
  filter (fun e => is_add_event e = true) (log_events tb line) = [].
Proof. data_only. unfold log_events. destruct (logger tb); reflexivity. Qed.

Lemma delete_events_no_add (tb : CacheTable) (it : CacheItem) (k : Key) (r : ptr) :
  filter (fun e => is_add_event e = true) (delete_events tb it k r) = [].
Proof.
  data_only. unfold delete_events.
  rewrite !filter_app, log_events_no_add. simpl.
  assert (Ha : forall l : list Func,
    filter (fun e => is_add_event e = true) (map (fun f => EvAboutToDeleteItem f r) l) = []).
  { induction l as [|f l IHl]; [reflexivity|]. simpl.
    rewrite filter_cons_False by (simpl; discriminate). exact IHl. }
  assert (Hb : forall l : list Func,
    filter (fun e => is_add_event e = true) (map (fun f => EvAboutToExpire f k) l) = []).
  { induction l as [|f l IHl]; [reflexivity|]. simpl.
    rewrite filter_cons_False by (simpl; discriminate). exact IHl. }
  rewrite Ha, Hb. reflexivity.
Qed.

Lemma sweep_trace_no_add now tb h ks :
  forall m : gmap Key ptr,
    filter (fun e => is_add_event e = true) (sweep_trace now tb h ks m) = [].
Proof.
  data_only.
  induction ks as [|k0 ks IH]; intros m; simpl; [reflexivity|].
  destruct (lookup_item h m k0) as [[r0 it0]|]; [|apply IH].
  destruct (expired now it0); [|apply IH].
  rewrite filter_app, delete_events_no_add, IH. reflexivity.
Qed.

Lemma addedItem_events_all_add (p : ptr) (l : list Func) :
  filter (fun e => is_add_event e = true) (map (fun f => EvAddedItem f p) l) =
  map (fun f => EvAddedItem f p) l.
Proof.
  data_only.
  induction l as [|f l IH]; [reflexivity|]. simpl.
  rewrite filter_cons_True by reflexivity. rewrite IH. reflexivity.
Qed.

(** X6: Add, on a table nobody holds, returns the address of the item it
    made, and among the events it adds to the trace the writes to the map
    under a new key and the calls of the addedItem callbacks are exactly:
    the store of the new item under the key, then one call of each
    registered addedItem callback on the new item, in the order of
    registration.  The sweep Add may go on to run neither stores nor
    calls an addedItem callback. *)
Theorem Add_notifies (k : Key) (life : Z) (d : Any) (w : World) :
  well_formed w ->
  exists evs w',
    Add k life d w = Done (length (heap w)) w' /\
    trace w' = trace w ++ evs /\
    filter (fun e => is_add_event e = true) evs =
      EvMapStore k (length (heap w)) ::
      map (fun f => EvAddedItem f (length (heap w))) (addedItem (table w)).
Proof.
  intros Hwf. rewrite (Add_returns k life d w Hwf).
  destruct (sweeps_on_add w life).
  - eexists. eexists. split; [reflexivity|]. split.
    + simpl. rewrite <- !app_assoc. reflexivity.
    + rewrite !filter_app, !log_events_no_add, sweep_trace_no_add. simpl.
      rewrite addedItem_events_all_add, app_nil_r. reflexivity.
  - eexists. eexists. split; [reflexivity|]. split.
    + simpl. reflexivity.
    + rewrite !filter_app, !log_events_no_add. simpl.
      rewrite filter_cons_True by reflexivity.
      rewrite addedItem_events_all_add. reflexivity.
Qed.

(** X7: Add on a key that already has an entry replaces the entry without
    notice.  The new item is stored under the key whenever any item is;
    the replaced item stays in memory exactly as it was; and no
    aboutToDeleteItem callback is called on the replaced item and no
    aboutToExpire callback on the key, not even when the sweep Add goes on
    to run deletes other entries (or the new one).  The callbacks of the
    replaced item are never run. *)
Theorem Add_replaces_quietly (k : Key) (life : Z) (d : Any) (r : ptr) (w : World) :
  well_formed w ->
  keys_match w ->
  items (table w) !! k = Some r ->
  exists evs w',
    Add k life d w = Done (length (heap w)) w' /\
    r <> length (heap w) /\
    heap w' !! r = heap w !! r /\
    (items (table w') !! k = None \/ items (table w') !! k = Some (length (heap w))) /\
    trace w' = trace w ++ evs /\
    (forall f, EvAboutToDeleteItem f r ∉ evs) /\
    (forall f, EvAboutToExpire f k ∉ evs).
Proof.
  intros Hwf Hkeys Hk.
  destruct (wf_items w Hwf k r Hk) as (it & Hr & _).
  pose proof (lookup_lt_Some _ _ _ Hr) as Hlt.
  rewrite (Add_returns k life d w Hwf).
  assert (Hlog : forall (tb : CacheTable) (line : LogLine) (e : Event),
            e ∈ log_events tb line -> exists s l, e = EvLog s l).
  { intros tb line e. unfold log_events. destruct (logger tb).
    - intros He. apply list_elem_of_singleton in He. eauto.
    - intros He. apply elem_of_nil in He. contradiction. }
  assert (Hadd : forall e,
            e ∈ log_events (table w) (LogAdd k life) ++
                [EvMapStore k (length (heap w))] ++
                map (fun f => EvAddedItem f (length (heap w))) (addedItem (table w)) ->
            (forall f, e <> EvAboutToDeleteItem f r) /\
            (forall f, e <> EvAboutToExpire f k)).
  { intros e He. apply elem_of_app in He as [He | He].
    - destruct (Hlog _ _ _ He) as (s & l & ->). split; discriminate.
    - apply elem_of_app in He as [He | He].
      + apply list_elem_of_singleton in He as ->. split; discriminate.
      + apply list_elem_of_fmap in He as (f0 & -> & _). split; discriminate. }
  assert (Hheap : (heap w ++ [new_item k life d (clock (ticks w))]) !! r = heap w !! r).
  { apply lookup_app_l. exact Hlt. }
  destruct (sweeps_on_add w life).
  - eexists. eexists. split; [reflexivity|].
    split; [lia|]. split; [exact Hheap|]. split; [|split].
    + simpl.
      destruct (sweep_items _ _ _ _ !! k) as [p|] eqn:Hp; [right|left; reflexivity].
      apply sweep_items_Some in Hp.
      destruct w as [h tb ts n tr]; destruct tb; simpl in Hp.
      rewrite lookup_insert_eq in Hp. symmetry. exact Hp.
    + simpl. rewrite <- !app_assoc. reflexivity.
    + assert (Hsweep : forall e,
        e ∈ sweep_trace (clock (ticks (added k life d w))) (table (added k life d w))
              (heap (added k life d w))
              (range_order (items (table (added k life d w))))
              (items (table (added k life d w))) ->
        (forall f, e <> EvAboutToDeleteItem f r) /\
        (forall f, e <> EvAboutToExpire f k)).
      { intros e He.
        apply sweep_trace_origin in He as (k' & r' & it' & Hk' & Hr' & _ & He).
        assert (Hm : items (table (added k life d w)) =
                     <[k := length (heap w)]> (items (table w))).
        { destruct w as [h tb ts n tr]; destruct tb; reflexivity. }
        rewrite Hm in Hk'. simpl in Hr'.
        unfold delete_events in He.
        apply elem_of_app in He as [He | He];
          [|apply elem_of_app in He as [He | He];
            [|apply elem_of_app in He as [He | He]]].
        - apply list_elem_of_fmap in He as (f0 & -> & _).
          split; [|discriminate]. intros f [= _ ->].
          destruct (decide (k = k')) as [<- | Hne].
          + rewrite lookup_insert_eq in Hk'. injection Hk' as Hk'. lia.
          + rewrite lookup_insert_ne in Hk' by exact Hne.
            apply Hne. rewrite <- (Hkeys k r it Hk Hr).
            exact (Hkeys k' r it Hk' Hr).
        - apply list_elem_of_fmap in He as (f0 & -> & Hf0).
          split; [discriminate|]. intros f [= _ ->].
          rewrite lookup_insert_eq in Hk'. injection Hk' as <-.
          rewrite list_lookup_middle in Hr' by reflexivity.
          injection Hr' as <-. simpl in Hf0.
          apply elem_of_nil in Hf0. contradiction.
        - destruct (Hlog _ _ _ He) as (s & l & ->). split; discriminate.
        - apply list_elem_of_singleton in He as ->. split; discriminate. }
      split; intros f Hin; simpl in Hin;
        (apply elem_of_app in Hin as [Hin | Hin];
         [destruct (Hlog _ _ _ Hin) as (s & l & Heq); discriminate|];
         apply elem_of_cons in Hin as [Hin | Hin]; [discriminate|];
         apply elem_of_app in Hin as [Hin | Hin];
         [apply list_elem_of_fmap in Hin as (f0 & Heq & _); discriminate|];
         apply elem_of_app in Hin as [Hin | Hin];
         [destruct (Hlog _ _ _ Hin) as (s & l & Heq); discriminate|];
         destruct (Hsweep _ Hin) as [H1 H2];
         first [exact (H1 f eq_refl) | exact (H2 f eq_refl)]).
  - eexists. eexists. split; [reflexivity|].
    split; [lia|]. split; [exact Hheap|]. split; [|split].
    + right. destruct w as [h tb ts n tr]; destruct tb; simpl.
      apply lookup_insert_eq.
    + reflexivity.
    + split; intros f Hin; destruct (Hadd _ Hin) as [H1 H2];
        first [exact (H1 f eq_refl) | exact (H2 f eq_refl)].
Qed.

(** X9: what Delete removes is gone and nothing else is.  After Delete has
    returned the item of a key, Exists answers false for the key, a
    second Delete and a Value (no loader set) return ErrKeyNotFound, every
    other key has the entry it had, and the removed item is still in
    memory as it was, for the caller who holds its address. *)
Theorem Delete_then_gone (k : Key) (r : ptr) (w : World) :
  well_formed w ->
  items (table w) !! k = Some r ->
  exists w',
    Delete k w = Done (Some r, None) w' /\
    Exists k w' = Done false w' /\
    Delete k w' = Done (None, Some ErrKeyNotFound) w' /\
    (loadData (table w) = None ->
     forall args, Value k args w' = Done (None, Some ErrKeyNotFound) w') /\
    (forall k', k' <> k -> items (table w') !! k' = items (table w) !! k') /\
    heap w' = heap w.
Proof.
  intros Hwf Hk.
  destruct (wf_items w Hwf k r Hk) as (it & Hr & _).
  pose proof (wf_table_mu w Hwf) as Hmu.
  eexists. split; [apply (Delete_returns k r it w Hwf Hk Hr)|].
  assert (Hgone : delete k (items (table w)) !! k = None) by apply lookup_delete_eq.
  destruct w as [h tb ts n tr]; destruct tb as [mu nm its tmr itv lg ld ad dl].
  simpl in *. subst mu.
  split; [|split; [|split; [|split]]].
  - unfold_more. rewrite Hgone. reflexivity.
  - apply Delete_absent_returns; [reflexivity | exact Hgone].
  - intros -> args. apply Value_miss_returns; [reflexivity | exact Hgone | reflexivity].
  - intros k' Hne. apply lookup_delete_ne. auto.
  - reflexivity.
Qed.

Lemma touched_well_formed (r : ptr) (it : CacheItem) (t c : Z) (n : nat) (w : World) :
  heap w !! r = Some it ->
  item_mu it = rw_free ->
  well_formed w ->
  well_formed (mkWorld (<[r := set_access t c it]> (heap w)) (table w) (timers w)
                 n (trace w)).
Proof.
  data_only.
  intros Hr Hfree [Hmu Hits Htm].
  pose proof (lookup_lt_Some _ _ _ Hr) as Hlt.
  split; simpl; try assumption.
  intros k r' Hk. destruct (decide (r = r')) as [<- | Hne].
  - exists (set_access t c it). rewrite list_lookup_insert_eq by exact Hlt.
    split; [reflexivity | exact Hfree].
  - destruct (Hits k r' Hk) as (it' & Hr' & Hfree'). exists it'.
    rewrite list_lookup_insert_ne by exact Hne. auto.
Qed.

(** X10: Value keeps an item alive.  However long the item of a key has
    been idle, a Value on the key restarts its idle time: a sweep that
    runs next keeps the entry, provided the lifespan is 0 (never expires)
    or longer than the time the clock advances between the Value and the
    sweep. *)
Theorem Value_keeps_alive (k : Key) (args : list Any) (r : ptr) (it : CacheItem)
    (w : World) :
  well_formed w ->
  items (table w) !! k = Some r ->
  heap w !! r = Some it ->
  lifeSpan it = 0 \/ time_Sub (clock (S (ticks w))) (clock (ticks w)) < lifeSpan it ->
  exists w1 w2,
    Value k args w = Done (Some r, None) w1 /\
    expirationCheck w1 = Done tt w2 /\
    items (table w2) !! k = Some r /\
    items (table w1) = items (table w).
Proof.
  intros Hwf Hk Hr Hlife.
  destruct (wf_items w Hwf k r Hk) as (it' & Hr' & Hfree).
  assert (it' = it) as -> by congruence.
  pose proof (lookup_lt_Some _ _ _ Hr) as Hlt.
  eexists. eexists.
  split; [apply (Value_hit k args r it w (wf_table_mu w Hwf) Hk Hr Hfree)|].
  split; [apply expirationCheck_returns;
          apply touched_well_formed; assumption|].
  split; [|reflexivity].
  simpl.
  apply (sweep_items_keeps _ _ _ _ _ _
           (set_access (clock (ticks w)) (wrap64 (accessCount it + 1)) it)).
  - exact Hk.
  - apply list_lookup_insert_eq. exact Hlt.
  - unfold expired, idle_time; simpl.
    destruct Hlife as [-> | Hlt'].
    + reflexivity.
    + apply andb_false_iff. right. apply Z.leb_gt. exact Hlt'.
Qed.

End Passive.

(** ** Callbacks that call back into the table *)

(** [Value] on a key whose item somebody holds waits for the item. *)
Lemma Value_item_held (k : Key) (args : list Any) (r : ptr) (it : CacheItem)
    (w : World) :
  writer (table_mu (table w)) = false ->
  items (table w) !! k = Some r ->
  heap w !! r = Some it ->
  rw_Lock (item_mu it) = MustWait ->
  Value k args w = Blocked w.
Proof.
  destruct w as [h tb ts n tr].
  destruct tb as [[wr rd] nm its tmr itv lg ld ad dl]; simpl.
  intros -> Hk Hr Hheld.
  unfold Value, KeepAlive, item_Lock, on_item_mu. unfold_ops.
  rewrite Hk; simpl. rewrite Hr; simpl.
  unfold rw_Lock in Hheld.
  destruct (writer (item_mu it) || negb (readers (item_mu it) =? 0)%nat);
    [reflexivity | discriminate].
Qed.

Section Reentrant.

Hypothesis item_callback_passive : forall f p w, item_callback f p w = Done tt w.

(** X12: an aboutToExpire callback must not read its own item through the
    table.  deleteInternal holds the item's read lock while it runs the
    item's aboutToExpire callbacks, and Value takes the item's write lock
    (KeepAlive): when the first callback of the item of a key calls Value
    on that key, Delete on the key never returns.  It waits, with the
    entry still in the map, the table's lock released and the item's read
    lock held. *)
Theorem aboutToExpire_Value_deadlock (k : Key) (args : list Any) (r : ptr)
    (it : CacheItem) (f : Func) (fs : list Func) (w : World) :
  well_formed w ->
  items (table w) !! k = Some r ->
  heap w !! r = Some it ->
  aboutToExpire it = f :: fs ->
  (forall w0, key_callback f k w0 = (Value k args ;; ret tt) w0) ->
  exists w',
    Delete k w = Blocked w' /\
    items (table w') !! k = Some r /\
    table_mu (table w') = rw_free /\
    option_map item_mu (heap w' !! r) = Some (mkRWMutex false 1).
Proof.
  intros [Hmu Hits Htm] Hk Hr Hcbs Hcb.
  destruct (Hits k r Hk) as (it' & Hr' & Hfree).
  assert (it' = it) as -> by congruence.
  pose proof (lookup_lt_Some _ _ _ Hr) as Hlt.
  destruct w as [h tb ts n tr].
  destruct tb as [mu nm its tmr itv lg ld ad dl]; simpl in *. subst mu.
  destruct it as [imu ik idt il ic ia ih icb]; simpl in *. subst imu icb.
  unfold rw_free in Hr.
  eexists. split.
  - unfold Delete, deleteInternal.
    unfold bind at 1. unfold table_Lock, on_table_mu, bind at 1, get_table; simpl.
    unfold modify_table, with_table, set_table_mu; simpl.
    unfold bind at 1. unfold bind at 1. unfold get_table; simpl. rewrite Hk.
    unfold bind at 1. unfold table_Unlock, on_table_mu, bind, get_table, lock_step,
      modify_table, rw_Unlock, with_table, set_table_mu; simpl.
    rewrite (for_each_aboutToDeleteItem item_callback_passive). unfold_ops.
    rewrite Hr; simpl.
    rewrite list_lookup_insert_eq by exact Hlt; simpl.
    unfold call_aboutToExpire. unfold_ops.
    rewrite Hcb. unfold bind.
    rewrite (Value_item_held k args r
               (mkCacheItem (mkRWMutex false 1) ik idt il ic ia ih (f :: fs)));
      [reflexivity | reflexivity | exact Hk
      | simpl; apply list_lookup_insert_eq; exact Hlt | reflexivity].
  - simpl. split; [exact Hk|]. split; [reflexivity|].
    rewrite list_lookup_insert_eq by exact Hlt. reflexivity.
Qed.

End Reentrant.


Lemma undisturbed_refl (w : World) :
  table_mu (table w) = rw_free -> undisturbed w w.
Proof.
  data_only. intros Hmu. split; [exact Hmu | eauto |].
  exists []. rewrite app_nil_r. reflexivity.
Qed.

Lemma undisturbed_trans (w1 w2 w3 : World) :
  undisturbed w1 w2 -> undisturbed w2 w3 -> undisturbed w1 w3.
Proof.
  data_only. intros [_ Hi1 [e1 He1]] [Hmu Hi2 [e2 He2]]. split.
  - exact Hmu.
  - intros p it Hp. destruct (Hi1 p it Hp) as (it' & Hp' & Hmu').
    destruct (Hi2 p it' Hp') as (it'' & Hp'' & Hmu'').
    exists it''. split; [exact Hp'' | congruence].
  - exists (e1 ++ e2). rewrite He2, He1, app_assoc. reflexivity.
Qed.

(** Emitting an event and then calling polite callbacks, one after the
    other. *)
Lemma for_each_polite {A} (l : list A) (ev : A -> Event) (callback : A -> M unit) :
  polite callback ->
  forall w,
    table_mu (table w) = rw_free ->
    exists w',
      for_each l (fun a => emit (ev a) ;; callback a) w = Done tt w' /\
      undisturbed w w' /\
      (forall a, a ∈ l -> ev a ∈ trace w').
Proof.
  data_only.
  intros Hpolite. induction l as [|a l IH]; intros w Hmu; simpl.
  - exists w. split; [reflexivity|]. split; [apply undisturbed_refl; exact Hmu|].
    intros a Ha. apply elem_of_nil in Ha. contradiction.
  - unfold bind at 1. unfold bind at 1. unfold emit.
    destruct (Hpolite a (with_trace (trace w ++ [ev a]) w)) as (w1 & Hrun & Hund1).
    { destruct w as [h tb ts n tr]; exact Hmu. }
    rewrite Hrun.
    destruct (IH w1 (und_table_mu _ _ Hund1)) as (w2 & Hrest & Hund2 & Hevs).
    exists w2. split; [exact Hrest|]. split.
    + apply (undisturbed_trans w w1 w2); [|exact Hund2].
      destruct Hund1 as [Hmu1 Hi1 [e1 He1]]. split; [exact Hmu1 | |].
      * intros p it Hp. apply Hi1. destruct w; exact Hp.
      * exists ([ev a] ++ e1). rewrite He1. destruct w; simpl.
        rewrite <- app_assoc. reflexivity.
    + intros a' Ha'. apply elem_of_cons in Ha' as [-> | Ha']; [|auto].
      destruct Hund1 as [_ _ [e1 He1]]. destruct Hund2 as [_ _ [e2 He2]].
      rewrite He2, He1. destruct w; simpl.
      apply elem_of_app. left. apply elem_of_app. left.
      apply elem_of_app. right. apply list_elem_of_singleton. reflexivity.
Qed.

Lemma for_each_map {A B} (g : A -> B) (l : list A) (body : B -> M unit) (w : World) :
  for_each (map g l) body w = for_each l (fun a => body (g a)) w.
Proof.
  data_only. revert w. induction l as [|a l IH]; intros w; simpl; [reflexivity|].
  unfold bind. destruct (body (g a) w); auto.
Qed.

Section Polite.

Hypothesis item_callback_polite : polite (fun fp : Func * ptr => item_callback fp.1 fp.2).
Hypothesis key_callback_polite : polite (fun fk : Func * Key => key_callback fk.1 fk.2).

(** X13: Delete lets its callbacks call back into the table.  The table's
    lock is released while the aboutToDeleteItem and aboutToExpire
    callbacks run, so callbacks that themselves take (and release) the
    table's lock, and that leave the locks of the items as they find
    them, do not stop Delete: on a key that is present it returns the
    item, every registered aboutToDeleteItem callback has been called on
    the item, and afterwards the key has no entry and neither the table
    nor the item is locked. *)
Theorem Delete_with_callbacks (k : Key) (r : ptr) (w : World) :
  well_formed w ->
  items (table w) !! k = Some r ->
  exists w',
    Delete k w = Done (Some r, None) w' /\
    items (table w') !! k = None /\
    table_mu (table w') = rw_free /\
    option_map item_mu (heap w' !! r) = Some rw_free /\
    (forall f, f ∈ aboutToDeleteItem (table w) -> EvAboutToDeleteItem f r ∈ trace w').
Proof.
  intros [Hmu Hits Htm] Hk.
  destruct (Hits k r Hk) as (it & Hr & Hfree).
  destruct w as [h tb ts n tr]; destruct tb as [mu nm its tmr itv lg ld ad dl].
  simpl in *. subst mu.
  set (w0 := mkWorld h (mkCacheTable (mkRWMutex false 0) nm its tmr itv lg ld ad dl)
               ts n tr).
  (* the aboutToDeleteItem callbacks *)
  destruct (for_each_polite (map (fun f => (f, r)) dl)
              (fun fp => EvAboutToDeleteItem fp.1 fp.2)
              (fun fp => item_callback fp.1 fp.2)
              item_callback_polite w0 eq_refl)
    as (w1 & Hrun1 & [Hmu1 Hi1 [e1 He1]] & Hev1).
  assert (Hfe1 : for_each dl (call_aboutToDeleteItem r) w0 = Done tt w1).
  { rewrite for_each_map in Hrun1. exact Hrun1. }
  destruct (Hi1 r it Hr) as (it1 & Hr1 & Hfree1).
  rewrite Hfree in Hfree1.
  pose proof (lookup_lt_Some _ _ _ Hr1) as Hlt1.
  destruct w1 as [h1 tb1 ts1 n1 tr1].
  destruct tb1 as [mu1 nm1 its1 tmr1 itv1 lg1 ld1 ad1 dl1]; simpl in *. subst mu1.
  destruct it1 as [imu1 ik1 idt1 il1 ic1 ia1 ih1 icb1]; simpl in *. subst imu1.
  unfold rw_free in *.
  (* r.RLock(), then the aboutToExpire callbacks *)
  set (w2 := mkWorld
               (<[r := mkCacheItem (mkRWMutex false 1) ik1 idt1 il1 ic1 ia1 ih1 icb1]> h1)
               (mkCacheTable (mkRWMutex false 0) nm1 its1 tmr1 itv1 lg1 ld1 ad1 dl1)
               ts1 n1 tr1).
  destruct (for_each_polite (map (fun f => (f, k)) icb1)
              (fun fk => EvAboutToExpire fk.1 fk.2)
              (fun fk => key_callback fk.1 fk.2)
              key_callback_polite w2 eq_refl)
    as (w3 & Hrun3 & [Hmu3 Hi3 [e3 He3]] & _).
  assert (Hfe3 : for_each icb1 (call_aboutToExpire k) w2 = Done tt w3).
  { rewrite for_each_map in Hrun3. exact Hrun3. }
  destruct (Hi3 r (mkCacheItem (mkRWMutex false 1) ik1 idt1 il1 ic1 ia1 ih1 icb1))
    as (it3 & Hr3 & Hheld3).
  { apply list_lookup_insert_eq. exact Hlt1. }
  simpl in Hheld3.
  pose proof (lookup_lt_Some _ _ _ Hr3) as Hlt3.
  clear Hrun1 Hrun3 Hi1 Hi3.
  destruct w3 as [h3 tb3 ts3 n3 tr3].
  destruct tb3 as [mu3 nm3 its3 tmr3 itv3 lg3 ld3 ad3 dl3]; simpl in *. subst mu3.
  destruct it3 as [imu3 ik3 idt3 il3 ic3 ia3 ih3 icb3]; simpl in *. subst imu3.
  unfold w0 in Hfe1. unfold w2 in Hfe3. clear w0 w2.
  unfold Delete, deleteInternal, log. unfold_ops. rewrite Hk; simpl.
  rewrite Hfe1; simpl. rewrite Hr1; simpl.
  rewrite list_lookup_insert_eq by exact Hlt1; simpl.
  rewrite Hfe3; simpl. rewrite Hr3; simpl.
  assert (Hcalled : forall f, f ∈ dl -> EvAboutToDeleteItem f r ∈ tr3).
  { intros f Hf. rewrite He3. apply elem_of_app. left.
    apply (Hev1 (f, r)), list_elem_of_fmap. eauto. }
  destruct lg3 as [sink|]; simpl; rewrite Hr3; simpl;
    (eexists; split; [reflexivity|]); simpl;
    (split; [apply lookup_delete_eq|]; split; [reflexivity|]; split;
     [rewrite list_lookup_insert_eq by exact Hlt3; reflexivity|]);
    intros f Hf; repeat (apply elem_of_app; left); auto.
Qed.

End Polite.


(** ** Callbacks that do something *)

(** A chain of callbacks, each called when its predecessor has
    returned, as long as the condition [P] under which they return is
    kept. *)
Lemma for_each_effects {A} (call : A -> M unit) (eff : A -> World -> World)
    (P : World -> Prop) (l : list A) :
  (forall a w, P w -> call a w = Done tt (eff a w) /\ P (eff a w)) ->
  forall w,
    P w ->
    for_each l call w = Done tt (foldl (fun w0 a => eff a w0) w l) /\
    P (foldl (fun w0 a => eff a w0) w l).
Proof.
  data_only.
  intros Hcall. induction l as [|a l IH]; intros w Hw; simpl.
  - auto.
  - destruct (Hcall a w Hw) as [Hrun Hw']. unfold bind at 1. rewrite Hrun.
    apply IH. exact Hw'.
Qed.

Section Returning.

(** The callbacks of this section return whenever they are called with
    the table's lock free, with the lock free again and the locks of the
    items as they found them; in between they may call back into the
    table.  [item_effect] and [key_effect] are what they have done by
    then. *)
Variable item_effect : Func -> ptr -> World -> World.
Variable key_effect : Func -> Key -> World -> World.

Hypothesis item_callback_returns :
  forall f p w,
    table_mu (table w) = rw_free ->
    item_callback f p w = Done tt (item_effect f p w) /\
    undisturbed w (item_effect f p w).

Hypothesis key_callback_returns :
  forall f k w,
    table_mu (table w) = rw_free ->
    key_callback f k w = Done tt (key_effect f k w) /\
    undisturbed w (key_effect f k w).





End Returning.


(** [Add] up to the first callback: the item is made and stored, the
    lock released; the callbacks and the sweep come after. *)
Lemma Add_stores (k : Key) (life : Z) (d : Any) (w : World) :
  table_mu (table w) = rw_free ->
  Add k life d w =
  (addInternal_callbacks (length (heap w)) (cleanupInterval (table w))
     (addedItem (table w)) ;;
   ret (length (heap w))) (stored k life d w).
Proof.
  intros Hmu.
  destruct w as [h tb ts n tr]; destruct tb as [mu nm its tmr itv lg ld ad dl].
  simpl in Hmu. subst mu.
  unfold Add. unfold bind at 1. rewrite NewCacheItem_returns. simpl.
  unfold bind at 1. rewrite table_Lock_free by reflexivity.
  unfold with_table, set_table_mu; simpl.
  unfold bind at 1. unfold addInternal.
  unfold bind at 1. unfold load; simpl.
  rewrite list_lookup_middle by reflexivity. simpl.
  unfold bind at 1. rewrite log_returns.
  unfold bind at 1. unfold map_store, bind at 1, emit. simpl.
  unfold modify_table. simpl.
  unfold bind at 1. unfold get_table. simpl.
  unfold bind at 1. rewrite table_Unlock_held by reflexivity. simpl.
  unfold stored, log_events, with_trace, with_table, set_table_mu, set_items; simpl.
  rewrite <- !app_assoc. reflexivity.
Qed.

Lemma sweep_items_notin now h ks :
  forall (m : gmap Key ptr) k,
    k ∉ ks -> sweep_items now h ks m !! k = m !! k.
Proof.
  data_only.
  induction ks as [|k0 ks IH]; intros m k Hnot; simpl; [reflexivity|].
  apply not_elem_of_cons in Hnot as [Hne Hnot].
  destruct (lookup_item h m k0) as [[r0 it0]|]; [|apply IH; exact Hnot].
  destruct (expired now it0); [|apply IH; exact Hnot].
  rewrite IH by exact Hnot. apply lookup_delete_ne. auto.
Qed.

Section Observing.

(** The callbacks of this section return, and leave the heap of items,
    the table and the timers as they find them: they do not call back
    into the cache.  What they do (they may read the clock, and the
    environment may see them) is [item_effect] and [key_effect]. *)
Variable item_effect : Func -> ptr -> World -> World.
Variable key_effect : Func -> Key -> World -> World.

Hypothesis item_callback_observes :
  forall f p w, item_callback f p w = Done tt (item_effect f p w).
Hypothesis key_callback_observes :
  forall f k w, key_callback f k w = Done tt (key_effect f k w).
Hypothesis item_effect_same : forall f p w, same_cache w (item_effect f p w).
Hypothesis key_effect_same : forall f k w, same_cache w (key_effect f k w).

Lemma same_cache_step (e : Event) (w0 w w' : World) :
  same_cache w0 w ->
  same_cache (with_trace (trace w ++ [e]) w) w' ->
  same_cache w0 w'.
Proof.
  data_only. intros (Hh & Ht & Hts) (Hh' & Ht' & Hts').
  destruct w; simpl in *. unfold same_cache. repeat split; congruence.
Qed.

Lemma item_callbacks_observe (ev : Func -> ptr -> Event) (call : ptr -> Func -> M unit)
    (p : ptr) (fs : list Func) (w : World) :
  (forall f, call p f = (emit (ev f p) ;; item_callback f p)) ->
  for_each fs (call p) w = Done tt (after_item_callbacks item_effect ev p fs w) /\
  same_cache w (after_item_callbacks item_effect ev p fs w).
Proof.
  intros Hcall.
  apply (for_each_effects (call p)
           (fun f w0 => item_effect f p (with_trace (trace w0 ++ [ev f p]) w0))
           (fun w0 => same_cache w w0) fs).
  - intros f w0 Hw0. rewrite Hcall. unfold bind, emit.
    rewrite item_callback_observes. split; [reflexivity|].
    apply (same_cache_step (ev f p) w w0); [exact Hw0 | apply item_effect_same].
  - unfold same_cache. auto.
Qed.

Lemma key_callbacks_observe (k : Key) (fs : list Func) (w : World) :
  for_each fs (call_aboutToExpire k) w =
    Done tt (after_key_callbacks key_effect k fs w) /\
  same_cache w (after_key_callbacks key_effect k fs w).
Proof.
  apply (for_each_effects (call_aboutToExpire k)
           (fun f w0 => key_effect f k (with_trace (trace w0 ++ [EvAboutToExpire f k]) w0))
           (fun w0 => same_cache w w0) fs).
  - intros f w0 Hw0. unfold call_aboutToExpire, bind, emit.
    rewrite key_callback_observes. split; [reflexivity|].
    apply (same_cache_step (EvAboutToExpire f k) w w0); [exact Hw0 | apply key_effect_same].
  - unfold same_cache. auto.
Qed.

(** [deleteInternal] on a present key, entered with the table's lock
    held, as the sweep enters it. *)
Lemma deleteInternal_observed (k : Key) (r : ptr) (it : CacheItem) (w : World) :
  table_mu (table w) = mkRWMutex true 0 ->
  items (table w) !! k = Some r ->
  heap w !! r = Some it ->
  item_mu it = rw_free ->
  deleteInternal k w =
    Done (Some r, None)
      (relock (mkRWMutex true 0)
         (after_delete item_effect key_effect k r (relock rw_free w))) /\
  same_cache
    (with_table (set_items (delete k (items (table w))) (table w)) w)
    (relock (mkRWMutex true 0)
       (after_delete item_effect key_effect k r (relock rw_free w))).
Proof.
  destruct w as [h tb ts n tr].
  destruct tb as [mu nm its tmr itv lg ld ad dl]; simpl.
  intros -> Hk Hr Hfree.
  pose proof (lookup_lt_Some _ _ _ Hr) as Hlt.
  destruct it as [imu ik idt il ic ia ih icb]; simpl in Hfree; subst imu.
  unfold rw_free in Hr.
  unfold after_delete, relock, with_table, set_table_mu; simpl.
  destruct (item_callbacks_observe EvAboutToDeleteItem call_aboutToDeleteItem r dl
              (mkWorld h (mkCacheTable (mkRWMutex false 0) nm its tmr itv lg ld ad dl)
                 ts n tr) (fun f => eq_refl))
    as [Hfe1 (Hh1 & Ht1 & Hts1)].
  unfold rw_free.
  set (w1 := after_item_callbacks item_effect EvAboutToDeleteItem r dl _) in *.
  clearbody w1. destruct w1 as [h1 tb1 ts1 n1 tr1]. simpl in Hh1, Ht1, Hts1.
  subst h1 tb1 ts1.
  unfold relock_item; simpl. rewrite Hr.
  unfold with_heap, set_item_mu; simpl.
  rewrite list_lookup_insert_eq by exact Hlt. simpl.
  destruct (key_callbacks_observe k icb
              (mkWorld (<[r := mkCacheItem (mkRWMutex false 1) ik idt il ic ia ih icb]> h)
                 (mkCacheTable (mkRWMutex false 0) nm its tmr itv lg ld ad dl)
                 ts n1 tr1))
    as [Hfe3 (Hh3 & Ht3 & Hts3)].
  set (w3 := after_key_callbacks key_effect k icb _) in *.
  clearbody w3. destruct w3 as [h3 tb3 ts3 n3 tr3]. simpl in Hh3, Ht3, Hts3.
  subst h3 tb3 ts3. simpl.
  rewrite list_lookup_insert_eq by exact Hlt. simpl.
  rewrite list_insert_insert_eq, (list_insert_id _ _ _ Hr).
  split.
  - unfold deleteInternal, log, log_events. unfold_ops. rewrite Hk; simpl.
    rewrite Hfe1; simpl. rewrite Hr; simpl.
    rewrite list_lookup_insert_eq by exact Hlt; simpl.
    rewrite Hfe3; simpl.
    rewrite list_lookup_insert_eq by exact Hlt; simpl.
    destruct lg as [sink|]; simpl;
      repeat (rewrite list_lookup_insert_eq by (rewrite ?length_insert; exact Hlt); simpl);
      rewrite list_insert_insert_eq, (list_insert_id _ _ _ Hr), <- ?app_assoc;
      reflexivity.
  - unfold same_cache, set_items; simpl. auto.
Qed.

(** The loop of the sweep. *)
Lemma sweep_observed (now : Z) (ks : list Key) :
  forall (sm : Z) (w : World),
    table_mu (table w) = mkRWMutex true 0 ->
    (forall k r, items (table w) !! k = Some r ->
       exists it, heap w !! r = Some it /\ item_mu it = rw_free) ->
    sweep now ks sm w =
      Done (sweep_smallest now (heap w) ks (items (table w)) sm)
        (after_sweep item_effect key_effect now ks w) /\
    same_cache
      (with_table (set_items (sweep_items now (heap w) ks (items (table w))) (table w)) w)
      (after_sweep item_effect key_effect now ks w).
Proof.
  induction ks as [|k ks IH]; intros sm w Hmu Hits.
  - simpl. split; [reflexivity|].
    destruct w as [h tb ts n tr]; destruct tb; unfold same_cache; simpl; auto.
  - cbn [sweep after_sweep sweep_smallest sweep_items].
    unfold bind at 1. unfold get_table.
    unfold lookup_item.
    destruct (items (table w) !! k) as [r|] eqn:Hk; [|apply IH; assumption].
    destruct (Hits k r Hk) as (it & Hr & Hfree). rewrite Hr.
    rewrite (read_item r it w) by assumption. simpl.
    unfold expired, remaining, idle_time.
    destruct (lifeSpan it =? 0) eqn:Hzero; simpl; [apply IH; assumption|].
    destruct (lifeSpan it <=? time_Sub now (accessedOn it)) eqn:Hexp; simpl.
    + unfold bind at 1.
      destruct (deleteInternal_observed k r it w Hmu Hk Hr Hfree)
        as [Hdel (Hhd & Htd & Htsd)].
      rewrite Hdel.
      set (wd := relock (mkRWMutex true 0)
                   (after_delete item_effect key_effect k r (relock rw_free w))) in *.
      assert (Hh : heap wd = heap w) by (destruct w; exact Hhd).
      assert (Ht : table wd = set_items (delete k (items (table w))) (table w))
        by (destruct w; exact Htd).
      assert (Hts : timers wd = timers w) by (destruct w; exact Htsd).
      clearbody wd. clear Hhd Htd Htsd Hdel.
      destruct (IH sm wd) as [Hrun (Hh' & Ht' & Hts')].
      * rewrite Ht. destruct w as [h tb ts n tr]; destruct tb; exact Hmu.
      * intros k' r' Hk'. rewrite Ht in Hk'. rewrite Hh.
        destruct w as [h tb ts n tr]; destruct tb; simpl in *.
        apply lookup_delete_Some in Hk' as [_ Hk']. eauto.
      * rewrite Hrun, Hh, Ht.
        split; [destruct w as [h tb ts n tr]; destruct tb; reflexivity|].
        simpl in Hh', Ht', Hts'. unfold same_cache; simpl.
        rewrite Hh', Ht', Hts', ?Hh, ?Ht, ?Hts.
        destruct w as [h tb ts n tr]; destruct tb; simpl; auto.
    + destruct ((sm =? 0) || (dur_sub (lifeSpan it) (time_Sub now (accessedOn it)) <? sm));
        apply IH; assumption.
Qed.

(** The sweep. *)
Lemma expirationCheck_observed (w : World) :
  well_formed w ->
  expirationCheck w = Done tt (after_expirationCheck item_effect key_effect w) /\
  heap (after_expirationCheck item_effect key_effect w) = heap w /\
  table (after_expirationCheck item_effect key_effect w) =
    table (swept w).
Proof.
  intros [Hmu Hits Htm].
  unfold after_expirationCheck.
  set (now := clock (ticks w)).
  set (ks := range_order (items (table w))).
  set (sm := sweep_smallest now (heap w) ks (items (table w)) 0).
  destruct (sweep_observed now ks 0 (sweep_start w)) as [Hsweep (Hh1 & Ht1 & Hts1)].
  { destruct w as [h tb ts n tr]; destruct tb; reflexivity. }
  { intros k r Hk. apply (Hits k r). destruct w as [h tb ts n tr]; destruct tb; exact Hk. }
  set (w1 := after_sweep item_effect key_effect now ks (sweep_start w)) in *.
  clearbody w1.
  destruct w as [h tb ts n tr].
  destruct tb as [mu nm its tmr itv lg ld ad dl]; simpl in *. subst mu.
  destruct w1 as [h1 tb1 ts1 n1 tr1]. simpl in Hh1, Ht1, Hts1. subst h1 tb1 ts1.
  split; [|split].
  - unfold expirationCheck.
    unfold bind at 1. rewrite table_Lock_free by reflexivity.
    unfold bind at 1. unfold get_table.
    unfold bind at 1.
    pose proof (timer_Stop_returns
      (mkWorld h (mkCacheTable (mkRWMutex true 0) nm its tmr itv lg ld ad dl) ts n tr) Htm)
      as Hstop.
    simpl in Hstop. unfold with_table, set_table_mu; simpl. rewrite Hstop. clear Hstop.
    unfold bind at 1.
    assert (Hlog : forall w : World,
      (if 0 <? itv then log (LogCheckAfter itv nm) else log (LogCheckSetup nm)) w =
      log (if 0 <? itv then LogCheckAfter itv nm else LogCheckSetup nm) w).
    { intros w. destruct (0 <? itv); reflexivity. }
    rewrite Hlog, log_returns. clear Hlog.
    unfold bind at 1. unfold time_Now. simpl.
    unfold bind at 1. unfold get_table. simpl.
    unfold bind at 1.
    unfold sweep_start, check_line, set_table_mu, log_events in Hsweep.
    simpl in Hsweep.
    unfold with_trace, with_timers, with_ticks, log_events. simpl.
    fold now ks. rewrite Hsweep.
    unfold sweep_end. fold sm. unfold_ops.
    destruct (0 <? sm); simpl; reflexivity.
  - unfold sweep_end. destruct (0 <? sm); reflexivity.
  - unfold sweep_end, swept. simpl. fold now ks sm.
    rewrite stop_timer_length.
    destruct (0 <? sm); simpl; reflexivity.
Qed.

Lemma after_sweep_app (now : Z) (ks1 ks2 : list Key) :
  forall w,
    after_sweep item_effect key_effect now (ks1 ++ ks2) w =
    after_sweep item_effect key_effect now ks2
      (after_sweep item_effect key_effect now ks1 w).
Proof.
  data_only.
  induction ks1 as [|k ks1 IH]; intros w; [reflexivity|].
  simpl. destruct (lookup_item (heap w) (items (table w)) k) as [[r it]|]; [|apply IH].
  destruct (expired now it); apply IH.
Qed.

(** C1, for callbacks that return and leave the cache as they find it.
    A sweep returns, in the world [after_expirationCheck] describes, and
    leaves the items as they are.  Of the entries of the table, with
    [now] the reading of the clock the sweep takes: one whose item has
    lifeSpan 0 stays; one whose item has another lifeSpan and an idle time
    [now - accessedOn] of at least that lifeSpan is gone, and when the
    loop came to its key, the sweep went on from the world deleteInternal
    makes ([after_delete], what Delete leaves: the aboutToDeleteItem
    callbacks called on the item, the aboutToExpire callbacks on the key,
    the log line, the removal); one with idle time below its lifeSpan
    stays.  Afterwards cleanupInterval is at most the remaining time
    [lifeSpan - idle time] of every entry left with a lifeSpan other than
    0, and is the remaining time of one of them, or it is 0 and every
    entry left has lifeSpan 0. *)
Theorem expirationCheck_sweeps (w : World) :
  range_complete ->
  well_formed w ->
  lifespans_typed (heap w) ->
  exists w',
    expirationCheck w = Done tt w' /\
    w' = after_expirationCheck item_effect key_effect w /\
    heap w' = heap w /\
    (forall k r it,
       items (table w) !! k = Some r -> heap w !! r = Some it ->
       (lifeSpan it = 0 -> items (table w') !! k = Some r) /\
       (lifeSpan it <> 0 -> lifeSpan it <= idle_time (clock (ticks w)) it ->
          items (table w') !! k = None /\
          exists ks1 ks2,
            range_order (items (table w)) = ks1 ++ k :: ks2 /\
            after_sweep item_effect key_effect (clock (ticks w)) (ks1 ++ [k])
              (sweep_start w) =
            relock (mkRWMutex true 0)
              (after_delete item_effect key_effect k r
                 (relock rw_free
                    (after_sweep item_effect key_effect (clock (ticks w)) ks1
                       (sweep_start w))))) /\
       (lifeSpan it <> 0 -> idle_time (clock (ticks w)) it < lifeSpan it ->
          items (table w') !! k = Some r)) /\
    (forall k r, items (table w') !! k = Some r -> items (table w) !! k = Some r) /\
    (forall k r it,
       items (table w') !! k = Some r -> heap w' !! r = Some it -> lifeSpan it <> 0 ->
       cleanupInterval (table w') <= remaining (clock (ticks w)) it) /\
    ((exists k r it,
        items (table w') !! k = Some r /\ heap w' !! r = Some it /\
        lifeSpan it <> 0 /\
        cleanupInterval (table w') = remaining (clock (ticks w)) it) \/
     (cleanupInterval (table w') = 0 /\
      forall k r it,
        items (table w') !! k = Some r -> heap w' !! r = Some it -> lifeSpan it = 0)).
Proof.
  clear data_loader.
  intros Hrange Hwf Hty.
  destruct (expirationCheck_observed w Hwf) as (Hrun & Hheap & Htab).
  exists (after_expirationCheck item_effect key_effect w).
  split; [exact Hrun|]. split; [reflexivity|]. split; [exact Hheap|].
  rewrite Htab, Hheap. clear Hrun Htab Hheap.
  set (now := clock (ticks w)).
  set (ks := range_order (items (table w))).
  assert (Hin : forall k r, items (table w) !! k = Some r -> k ∈ ks).
  { intros k r Hk. apply Hrange. eauto. }
  assert (Hleft : forall k r it,
            items (table (swept w)) !! k = Some r -> heap w !! r = Some it ->
            lifeSpan it <> 0 -> finite_survivor now (heap w) (items (table w)) k it).
  { intros k r it Hk Hr Hnz. simpl in Hk.
    pose proof (sweep_items_Some _ _ _ _ _ _ Hk) as Hk0.
    exists r. repeat split; try assumption.
    destruct (expired now it) eqn:Hexp; [|reflexivity].
    rewrite (sweep_items_drops now (heap w) ks _ k r it) in Hk
      by eauto using Hin. discriminate. }
  destruct (sweep_smallest_spec now (heap w) ks Hty (items (table w)) 0)
    as (Hlow & Hatt & _).
  split; [|split; [|split]].
  - intros k r it Hk Hr. split; [|split].
    + intros Hz. simpl. eapply sweep_items_keeps; eauto.
      apply expired_false. auto.
    + intros Hnz Hidle.
      assert (Hexp : expired now it = true) by (apply expired_true; auto).
      split.
      * simpl. eapply sweep_items_drops; eauto.
      * destruct (list_elem_of_split_l ks k (Hin k r Hk)) as (ks1 & ks2 & Hks & Hnot).
        exists ks1, ks2. split; [exact Hks|].
        rewrite after_sweep_app.
        destruct (sweep_observed now ks1 0 (sweep_start w)) as [_ (Hh1 & Ht1 & _)].
        { destruct w as [h tb ts n tr]; destruct tb; reflexivity. }
        { intros k' r' Hk'. apply (wf_items w Hwf k' r').
          destruct w as [h tb ts n tr]; destruct tb; exact Hk'. }
        set (wk := after_sweep item_effect key_effect now ks1 (sweep_start w)) in *.
        assert (Hlook : lookup_item (heap wk) (items (table wk)) k = Some (r, it)).
        { rewrite Hh1, Ht1. unfold lookup_item.
          destruct w as [h tb ts n tr]; destruct tb; simpl in *.
          rewrite (sweep_items_notin now h ks1 _ k Hnot), Hk, Hr. reflexivity. }
        clearbody wk. cbn [after_sweep]. rewrite Hlook, Hexp. reflexivity.
    + intros Hnz Hidle. simpl. eapply sweep_items_keeps; eauto.
      apply expired_false. auto.
  - intros k r Hk. simpl in Hk. eapply sweep_items_Some; eauto.
  - intros k r it Hk Hr Hnz.
    pose proof (Hleft k r it Hk Hr Hnz) as Hsurv.
    destruct Hsurv as (r' & Hk' & Hrest).
    apply (Hlow k it); [eapply Hin; eauto | exists r'; auto].
  - destruct Hatt as [Hzero | (k & it & Hk & (r & Hkr & Hr & Hnz & Hexp) & Heq)].
    + right. split; [exact Hzero|].
      intros k r it Hk Hr.
      destruct (Z.eq_dec (lifeSpan it) 0) as [Hz | Hnz]; [exact Hz|].
      exfalso. pose proof (Hleft k r it Hk Hr Hnz) as Hsurv.
      assert (Hkin : k ∈ ks) by (destruct Hsurv as (r' & Hk' & _); eauto).
      destruct (Hlow k it Hkin Hsurv) as [_ Hne]. apply Hne. exact Hzero.
    + left. exists k, r, it. simpl. repeat split; try assumption.
      eapply sweep_items_keeps; eauto.
Qed.

(** *** Add *)

Lemma stored_well_formed (k : Key) (life : Z) (d : Any) (w : World) :
  well_formed w -> well_formed (stored k life d w).
Proof.
  data_only.
  intros [Hmu Hits Htm]. split.
  - destruct w as [h tb ts n tr]; destruct tb; exact Hmu.
  - intros k' r Hk'.
    assert (Hm : items (table (stored k life d w)) =
                 <[k := length (heap w)]> (items (table w))).
    { destruct w as [h tb ts n tr]; destruct tb; reflexivity. }
    rewrite Hm in Hk'. simpl. destruct (decide (k = k')) as [<- | Hne].
    + rewrite lookup_insert_eq in Hk'. injection Hk' as <-.
      exists (new_item k life d (clock (ticks w))). split; [|reflexivity].
      apply list_lookup_middle. reflexivity.
    + rewrite lookup_insert_ne in Hk' by exact Hne.
      destruct (Hits k' r Hk') as (it & Hr & Hfree).
      exists it. split; [apply lookup_app_l_Some; exact Hr | exact Hfree].
  - intros t Ht. apply Htm. destruct w as [h tb ts n tr]; destruct tb; exact Ht.
Qed.

Lemma well_formed_same_cache (w w' : World) :
  same_cache w w' -> well_formed w -> well_formed w'.
Proof.
  data_only. intros (Hh & Ht & Hts) [Hmu Hits Htm].
  split; rewrite ?Hh, ?Ht, ?Hts; assumption.
Qed.

Lemma after_added_same (k : Key) (life : Z) (d : Any) (w : World) :
  same_cache (stored k life d w) (after_added item_effect k life d w).
Proof.
  unfold after_added.
  apply (item_callbacks_observe EvAddedItem call_addedItem (length (heap w))
           (addedItem (table w)) (stored k life d w) (fun f => eq_refl)).
Qed.

Lemma Add_observed (k : Key) (life : Z) (d : Any) (w : World) :
  well_formed w ->
  Add k life d w =
    Done (length (heap w)) (after_Add item_effect key_effect k life d w) /\
  heap (after_Add item_effect key_effect k life d w) =
    heap w ++ [new_item k life d (clock (ticks w))] /\
  table_mu (table (after_Add item_effect key_effect k life d w)) = rw_free /\
  (expires_after_added item_effect k life d w = false ->
   items (table (after_Add item_effect key_effect k life d w)) !! k =
     Some (length (heap w))).
Proof.
  intros Hwf.
  pose proof (after_added_same k life d w) as (Hh & Ht & Hts).
  assert (Hwfa : well_formed (after_added item_effect k life d w)).
  { apply (well_formed_same_cache (stored k life d w)).
    - unfold same_cache. auto.
    - apply stored_well_formed. exact Hwf. }
  destruct (expirationCheck_observed _ Hwfa) as (Hrun & Hheap & Htab).
  assert (Hp : heap (after_added item_effect k life d w) !! length (heap w) =
               Some (new_item k life d (clock (ticks w)))).
  { rewrite Hh. simpl. apply list_lookup_middle. reflexivity. }
  assert (Hstored : items (table (after_added item_effect k life d w)) !! k =
                    Some (length (heap w))).
  { rewrite Ht. destruct w as [h tb ts n tr]; destruct tb; simpl.
    apply lookup_insert_eq. }
  split; [|split; [|split]].
  - rewrite (Add_stores k life d w (wf_table_mu w Hwf)).
    unfold bind at 1. unfold addInternal_callbacks.
    unfold bind at 1.
    rewrite (proj1 (item_callbacks_observe EvAddedItem call_addedItem (length (heap w))
                      (addedItem (table w)) (stored k life d w) (fun f => eq_refl))).
    fold (after_added item_effect k life d w).
    unfold bind at 1. unfold load. rewrite Hp. simpl.
    unfold after_Add, sweeps_on_add.
    destruct ((0 <? life) &&
              ((cleanupInterval (table w) =? 0) || (life <? cleanupInterval (table w)))).
    + rewrite Hrun. reflexivity.
    + reflexivity.
  - unfold after_Add. destruct (sweeps_on_add w life).
    + rewrite Hheap, Hh. reflexivity.
    + rewrite Hh. reflexivity.
  - unfold after_Add. destruct (sweeps_on_add w life).
    + rewrite Htab. reflexivity.
    + exact (wf_table_mu _ Hwfa).
  - unfold expires_after_added, after_Add. intros Hexp.
    destruct (sweeps_on_add w life); simpl in Hexp.
    + rewrite Htab. simpl.
      apply (sweep_items_keeps _ _ _ _ _ _ (new_item k life d (clock (ticks w)))).
      * exact Hstored.
      * exact Hp.
      * unfold expired, idle_time; simpl. rewrite Hexp. apply andb_false_r.
    + exact Hstored.
Qed.

(** C2, for callbacks that return and leave the cache as they find it,
    with the condition the code puts on it: when the sweep that Add may
    run does not find the new item expired, Add(k, L, d) followed by
    Value(k) returns, and Value returns the item Add returned, with
    data d, lifeSpan L and accessCount 1.  The world between the two is
    the one [after_Add] describes: the item stored, then the addedItem
    callbacks, then the sweep, if any. *)
Theorem Add_then_Value (k : Key) (life : Z) (d : Any) (w : World) :
  well_formed w ->
  expires_after_added item_effect k life d w = false ->
  exists p w1 w2 it,
    Add k life d w = Done p w1 /\
    w1 = after_Add item_effect key_effect k life d w /\
    Value k [] w1 = Done (Some p, None) w2 /\
    heap w2 !! p = Some it /\
    data it = d /\ lifeSpan it = life /\ accessCount it = 1.
Proof.
  intros Hwf Hexp.
  destruct (Add_observed k life d w Hwf) as (Hadd & Hheap & Hmu & Hkeep).
  specialize (Hkeep Hexp).
  set (w1 := after_Add item_effect key_effect k life d w) in *.
  assert (Hp : heap w1 !! length (heap w) = Some (new_item k life d (clock (ticks w)))).
  { rewrite Hheap. apply list_lookup_middle. reflexivity. }
  eexists (length (heap w)), w1, _, _.
  split; [exact Hadd|]. split; [reflexivity|].
  split; [apply (Value_hit k [] _ _ w1 Hmu Hkeep Hp); reflexivity|].
  simpl. split.
  - apply list_lookup_insert_eq. eapply lookup_lt_Some; exact Hp.
  - simpl. repeat split.
Qed.

End Observing.


(** ** Value through the loader *)



(** ** Walking the table *)

Lemma entries_of_cons (m : gmap Key ptr) (k : Key) (ks : list Key) :
  entries_of m (k :: ks) =
  match m !! k with
  | Some v => (k, v) :: entries_of m ks
  | None => entries_of m ks
  end.
Proof. data_only. unfold entries_of. simpl. destruct (m !! k); reflexivity. Qed.

Lemma entries_of_keys (m : gmap Key ptr) (l : list (Key * ptr)) :
  (forall k v, (k, v) ∈ l -> m !! k = Some v) ->
  entries_of m l.*1 = l.
Proof.
  data_only.
  induction l as [|[k v] l IH]; intros Hl; [reflexivity|].
  rewrite fmap_cons, entries_of_cons. cbn [fst].
  rewrite (Hl k v) by (apply elem_of_cons; auto).
  rewrite IH; [reflexivity|].
  intros k' v' Hin. apply Hl. apply elem_of_cons. auto.
Qed.

Lemma entries_of_range (m : gmap Key ptr) :
  range_exact -> entries_of m (range_order m) ≡ₚ map_to_list m.
Proof.
  intros Hrange.
  transitivity (entries_of m (map_to_list m).*1).
  - unfold entries_of. apply omap_Permutation, Hrange.
  - rewrite entries_of_keys; [reflexivity|].
    intros k v Hin. apply elem_of_map_to_list. exact Hin.
Qed.

Lemma entries_of_stored (m : gmap Key ptr) (ks : list Key) (k : Key) (v : ptr) :
  (k, v) ∈ entries_of m ks -> m !! k = Some v.
Proof.
  data_only.
  unfold entries_of. intros Hin.
  apply list_elem_of_omap in Hin as (k' & _ & Hk').
  destruct (m !! k') as [v'|] eqn:Hm; [|discriminate].
  simpl in Hk'. injection Hk' as <- <-. exact Hm.
Qed.

(** The loop of [Foreach] for a visitor that returns and leaves the
    table alone. *)
Lemma foreach_loop_returns (trans : Key -> ptr -> M unit)
    (g : Key -> ptr -> World -> World) (tb : CacheTable) (ks : list Key) :
  (forall k v w0, trans k v w0 = Done tt (g k v w0)) ->
  (forall k v w0, table (g k v w0) = table w0) ->
  forall w0,
    table w0 = tb ->
    foreach_loop trans ks w0 =
      Done tt (foldl (fun w1 kv => g kv.1 kv.2 w1) w0 (entries_of (items tb) ks)) /\
    table (foldl (fun w1 kv => g kv.1 kv.2 w1) w0 (entries_of (items tb) ks)) = tb.
Proof.
  data_only.
  intros Htrans Hg. induction ks as [|k ks IH]; intros w0 Htb.
  - simpl. auto.
  - cbn [foreach_loop]. unfold bind at 1. unfold get_table. rewrite Htb.
    rewrite entries_of_cons.
    destruct (items tb !! k) as [v|]; simpl.
    + unfold bind at 1. rewrite Htrans. apply IH. rewrite Hg. exact Htb.
    + apply IH. exact Htb.
Qed.

(** X14: Foreach calls the visitor once on every entry of the table, with
    the entry's key and item, one after the other, while it holds the
    table's read lock, and releases the lock at the end: for a visitor
    that returns and leaves the table alone, the world afterwards is the
    one the visits build up, started with the read lock taken, with the
    table as it was before the call. *)
Theorem Foreach_visits (trans : Key -> ptr -> M unit)
    (g : Key -> ptr -> World -> World) (w : World) :
  range_exact ->
  writer (table_mu (table w)) = false ->
  (forall k v w0, trans k v w0 = Done tt (g k v w0)) ->
  (forall k v w0, table (g k v w0) = table w0) ->
  exists entries,
    entries ≡ₚ map_to_list (items (table w)) /\
    Foreach trans w =
      Done tt
        (with_table (table w)
           (foldl (fun w0 kv => g kv.1 kv.2 w0)
              (with_table
                 (set_table_mu (mkRWMutex false (S (readers (table_mu (table w)))))
                    (table w)) w)
              entries)).
Proof.
  intros Hrange Hwr Htrans Hg.
  exists (entries_of (items (table w)) (range_order (items (table w)))).
  split; [apply entries_of_range; exact Hrange|].
  destruct w as [h tb ts n tr].
  destruct tb as [[wr rd] nm its tmr itv lg ld ad dl]; simpl in *. subst wr.
  set (tbr := mkCacheTable (mkRWMutex false (S rd)) nm its tmr itv lg ld ad dl).
  destruct (foreach_loop_returns trans g tbr (range_order its) Htrans Hg
              (mkWorld h tbr ts n tr) eq_refl) as [Hloop Htb].
  simpl in Hloop, Htb.
  unfold Foreach.
  unfold bind at 1. unfold table_RLock, on_table_mu, bind at 1, get_table; simpl.
  unfold modify_table, with_table, set_table_mu; simpl.
  unfold bind at 1. unfold get_table; simpl.
  unfold bind at 1. fold tbr. rewrite Hloop.
  unfold table_RUnlock, on_table_mu, bind, get_table.
  rewrite Htb. simpl. unfold modify_table, with_table. rewrite Htb. reflexivity.
Qed.

(** An operation that takes the table's lock for writing waits as long
    as somebody reads the table. *)
Lemma writer_waits (o : Op) (w : World) :
  writes_table o = true ->
  rw_Lock (table_mu (table w)) = MustWait ->
  exists w', run_op o w = Blocked w'.
Proof.
  intros Ho Hheld.
  destruct w as [h tb ts n tr].
  destruct tb as [[wr rd] nm its tmr itv lg ld ad dl]. simpl in Hheld.
  unfold rw_Lock in Hheld. simpl in Hheld.
  assert (Hc : wr || negb (rd =? 0)%nat = true).
  { destruct (wr || negb (rd =? 0)%nat); [reflexivity | discriminate]. }
  clear Hheld.
  destruct o; try discriminate; simpl;
    unfold Add, NotFoundAdd, Delete, Flush, expirationCheck, NewCacheItem;
    unfold_more; rewrite ?Hc;
    try (eexists; reflexivity).
  - destruct ad; simpl; rewrite Hc; eexists; reflexivity.
  - destruct dl; simpl; rewrite Hc; eexists; reflexivity.
Qed.

Lemma foreach_loop_waits (o : Op) (ks : list Key) :
  writes_table o = true ->
  forall w,
    rw_Lock (table_mu (table w)) = MustWait ->
    (exists k, k ∈ ks /\ is_Some (items (table w) !! k)) ->
    exists w', foreach_loop (fun _ _ => run_op o) ks w = Blocked w'.
Proof.
  intros Ho. induction ks as [|k ks IH]; intros w Hheld (k0 & Hin & Hk0).
  - apply elem_of_nil in Hin. contradiction.
  - simpl. unfold bind at 1. unfold get_table.
    destruct (items (table w) !! k) as [v|] eqn:Hk.
    + destruct (writer_waits o w Ho Hheld) as (w' & Hrun).
      exists w'. unfold bind. rewrite Hrun. reflexivity.
    + apply IH; [exact Hheld|]. exists k0. split; [|exact Hk0].
      apply elem_of_cons in Hin as [-> | Hin]; [|exact Hin].
      rewrite Hk in Hk0. destruct Hk0 as [? ?]. discriminate.
Qed.

(** X15: a Foreach visitor must not change the table.  On a table that has
    an entry, a visitor that calls Add, NotFoundAdd, Delete, Flush or one
    of the setters of the table (anything but Value and Exists) never
    returns: the call waits for the read lock that Foreach itself holds
    until the loop is over. *)
Theorem Foreach_writer_deadlock (o : Op) (k : Key) (w : World) :
  range_complete ->
  writes_table o = true ->
  is_Some (items (table w) !! k) ->
  exists w', Foreach (fun _ _ => run_op o) w = Blocked w'.
Proof.
  intros Hrange Ho Hk.
  unfold Foreach.
  unfold bind at 1. unfold table_RLock, on_table_mu, bind at 1, get_table.
  unfold rw_RLock. destruct (writer (table_mu (table w))) eqn:Hwr; simpl.
  - eexists. reflexivity.
  - unfold modify_table. unfold bind at 1. unfold get_table.
    destruct (foreach_loop_waits o
                (range_order
                   (items (table (with_table
                      (set_table_mu (mkRWMutex false (S (readers (table_mu (table w)))))
                         (table w)) w))))
                Ho
                (with_table
                   (set_table_mu (mkRWMutex false (S (readers (table_mu (table w)))))
                      (table w)) w)) as (w' & Hloop).
    + destruct w as [h tb ts n tr]; destruct tb; reflexivity.
    + exists k. split.
      * apply Hrange. destruct w as [h tb ts n tr]; destruct tb; exact Hk.
      * destruct w as [h tb ts n tr]; destruct tb; exact Hk.
    + exists w'. unfold bind. rewrite Hloop. reflexivity.
Qed.


(** ** The most accessed items *)

(** The first loop of [MostAccessed] on a table whose entries point to
    items. *)
Lemma pairs_loop_returns (ks : list Key) :
  forall (p : list CacheItemPair) (w : World),
    (forall k r, items (table w) !! k = Some r -> is_Some (heap w !! r)) ->
    pairs_loop ks p w =
    Done (p ++ map (fun kv => mkCacheItemPair kv.1 (hits w kv.2))
                 (entries_of (items (table w)) ks)) w.
Proof.
  data_only.
  induction ks as [|k ks IH]; intros p w Hits.
  - simpl. rewrite app_nil_r. reflexivity.
  - cbn [pairs_loop]. unfold bind at 1. unfold get_table.
    rewrite entries_of_cons.
    destruct (items (table w) !! k) as [r|] eqn:Hk.
    + destruct (Hits k r Hk) as [it Hr].
      unfold bind at 1. unfold load. rewrite Hr.
      rewrite IH by exact Hits. simpl. unfold hits at 2. rewrite Hr.
      rewrite <- app_assoc. reflexivity.
    + apply IH. exact Hits.
Qed.

(** The second loop: [c] counts the pairs looked at. *)
Lemma first_loop_returns (m : gmap Key ptr) (count : Z) (p : list CacheItemPair) :
  count <= int64_max ->
  forall (c : Z) (r : list ptr) (w : World),
    items (table w) = m ->
    0 <= c ->
    first_loop p c count r w =
    Done (r ++ omap (fun v => m !! pairKey v) (take (Z.to_nat (count - c)) p)) w.
Proof.
  data_only.
  intros Hcount. induction p as [|v p IH]; intros c r w Hm Hc.
  - simpl. rewrite take_nil. simpl. rewrite app_nil_r. reflexivity.
  - cbn [first_loop]. destruct (count <=? c) eqn:Hle.
    + apply Z.leb_le in Hle.
      replace (Z.to_nat (count - c)) with O by lia.
      rewrite take_0. simpl. rewrite app_nil_r. reflexivity.
    + apply Z.leb_gt in Hle.
      unfold bind at 1. unfold get_table. rewrite Hm.
      assert (Hwrap : wrap64 (c + 1) = c + 1).
      { apply wrap64_small. unfold int64_min, int64_max in *. lia. }
      rewrite Hwrap, IH by (auto; lia).
      replace (Z.to_nat (count - c)) with (S (Z.to_nat (count - (c + 1)))) by lia.
      simpl. destruct (m !! pairKey v) as [item|]; simpl.
      * rewrite <- app_assoc. reflexivity.
      * reflexivity.
Qed.

Lemma StronglySorted_members {A} (R : relation A) (P : A -> Prop) (l : list A) :
  StronglySorted R l ->
  Forall P l ->
  StronglySorted (fun a b => R a b /\ P a /\ P b) l.
Proof.
  data_only.
  induction 1 as [|a l Hl IH Ha]; intros HP; constructor.
  - apply IH. apply Forall_inv_tail in HP. exact HP.
  - pose proof (Forall_inv HP) as Pa. apply Forall_inv_tail in HP.
    rewrite Forall_forall in *. intros b Hb. auto.
Qed.

Section Sorted.

Variable sort_Sort : list CacheItemPair -> list CacheItemPair.
Hypothesis sort_Sort_sorts : sorts sort_Sort.

(** X16: MostAccessed(count) returns the first count items of the table's
    entries arranged by access count, largest first (all of them when the
    table has fewer, none when count is 0 or negative), and leaves the
    world as it was.  The code's comment announces the keys hit more than
    count times; count is a number of items, not a threshold. *)
Theorem MostAccessed_spec (count : Z) (w : World) :
  range_exact ->
  well_formed w ->
  count <= int64_max ->
  exists entries : list (Key * ptr),
    entries ≡ₚ map_to_list (items (table w)) /\
    StronglySorted (fun a b => hits w b.2 <= hits w a.2) entries /\
    MostAccessed sort_Sort count w = Done (take (Z.to_nat count) entries.*2) w.
Proof.
  clear clock item_callback key_callback data_loader.
  intros Hrange [Hmu Hits Htm] Hcount.
  set (m := items (table w)).
  set (es0 := entries_of m (range_order m)).
  set (G := fun kv : Key * ptr => mkCacheItemPair kv.1 (hits w kv.2)).
  set (F := fun v : CacheItemPair => (pairKey v, default O (m !! pairKey v))).
  set (sp := sort_Sort (map G es0)).
  destruct (sort_Sort_sorts (map G es0)) as [Hperm Hsorted]. fold sp in Hperm, Hsorted.
  (* what the sorted pairs are *)
  assert (Hes0 : forall kv, kv ∈ es0 -> m !! kv.1 = Some kv.2).
  { intros [k v] Hin. apply (entries_of_stored m (range_order m)). exact Hin. }
  assert (HFG : forall kv, kv ∈ es0 -> F (G kv) = kv).
  { intros [k v] Hin. pose proof (Hes0 _ Hin) as Hm. simpl in Hm.
    unfold F, G. simpl. rewrite Hm. reflexivity. }
  assert (Hsp : Forall (fun v => m !! pairKey v = Some (F v).2 /\
                            pairAccessCount v = hits w (F v).2) sp).
  { rewrite Forall_forall. intros v Hv. rewrite Hperm in Hv.
    apply list_elem_of_fmap in Hv as (kv & -> & Hkv).
    rewrite (HFG kv Hkv). split; [apply Hes0; exact Hkv | reflexivity]. }
  exists (map F sp). split; [|split].
  - rewrite Hperm. rewrite <- list_fmap_compose.
    transitivity es0; [|apply entries_of_range; exact Hrange].
    assert (Heq : forall l : list (Key * ptr),
              (forall kv, kv ∈ l -> F (G kv) = kv) -> (F ∘ G) <$> l = l).
    { clear. induction l as [|a l IH]; intros Hl; [reflexivity|].
      rewrite fmap_cons.
      rewrite IH by (intros kv Hin; apply Hl, elem_of_cons; auto).
      unfold compose. rewrite (Hl a) by (apply elem_of_cons; auto). reflexivity. }
    rewrite (Heq es0 HFG). reflexivity.
  - apply (StronglySorted_fmap F
             (fun a b => Less b a = false /\
                (m !! pairKey a = Some (F a).2 /\ pairAccessCount a = hits w (F a).2) /\
                (m !! pairKey b = Some (F b).2 /\ pairAccessCount b = hits w (F b).2))).
    + intros a b (Hless & [_ Ha] & [_ Hb]).
      unfold Less in Hless. apply Z.ltb_ge in Hless. rewrite <- Ha, <- Hb. exact Hless.
    + apply StronglySorted_members; assumption.
  - destruct w as [h tb ts n tr].
    destruct tb as [mu nm its tmr itv lg ld ad dl]; simpl in *. subst mu.
    unfold MostAccessed.
    unfold bind at 1. unfold table_RLock, on_table_mu, bind at 1, get_table; simpl.
    unfold modify_table, with_table, set_table_mu; simpl.
    unfold bind at 1. unfold get_table; simpl.
    unfold bind at 1. rewrite pairs_loop_returns by (simpl; intros k r Hk;
      destruct (Hits k r Hk) as (it & Hr & _); eauto).
    simpl. unfold bind at 1.
    rewrite (first_loop_returns its count _ Hcount) by (simpl; auto; lia).
    unfold_ops. rewrite Z.sub_0_r.
    assert (Hlook : forall l : list CacheItemPair, Forall (fun v => its !! pairKey v = Some (F v).2) l ->
                      omap (fun v => its !! pairKey v) l = (F <$> l).*2).
    { clear. induction l as [|v l IH]; intros Hl; [reflexivity|].
      csimpl. rewrite (Forall_inv Hl). csimpl. rewrite IH; [reflexivity|].
      apply Forall_inv_tail in Hl. exact Hl. }
    rewrite <- !fmap_take.
    rewrite <- Hlook.
    + reflexivity.
    + apply Forall_take. eapply Forall_impl; [exact Hsp|]. simpl. tauto.
Qed.

End Sorted.


(** ** Checking a world by computation *)

Lemma rw_is_free_true (m : RWMutex) : rw_is_free m = true -> m = rw_free.
Proof.
  destruct m as [wr rd]. unfold rw_is_free; simpl.
  intros Hm. apply andb_true_iff in Hm as [Hw Hr].
  apply negb_true_iff in Hw. apply Nat.eqb_eq in Hr. subst. reflexivity.
Qed.

Lemma well_formedb_sound (w : World) : well_formedb w = true -> well_formed w.
Proof.
  data_only.
  unfold well_formedb. intros Hw.
  apply andb_true_iff in Hw as [Hw Htm]. apply andb_true_iff in Hw as [Hmu Hits].
  split.
  - apply rw_is_free_true. exact Hmu.
  - intros k r Hk. rewrite forallb_forall in Hits.
    specialize (Hits (k, r)). simpl in Hits.
    destruct (heap w !! r) as [it|].
    + exists it. split; [reflexivity|]. apply rw_is_free_true, Hits.
      apply list_elem_of_In, elem_of_map_to_list. exact Hk.
    + discriminate Hits.
      apply list_elem_of_In, elem_of_map_to_list. exact Hk.
  - intros t Ht. rewrite Ht in Htm. apply Nat.ltb_lt. exact Htm.
Qed.

Lemma lifespans_typedb_sound (h : list CacheItem) :
  lifespans_typedb h = true -> lifespans_typed h.
Proof.
  data_only.
  unfold lifespans_typedb. intros Hh r it Hr.
  rewrite forallb_forall in Hh. specialize (Hh it).
  assert (Hin : In it h) by (apply list_elem_of_In; eapply list_elem_of_lookup_2; exact Hr).
  apply Hh in Hin. apply andb_true_iff in Hin as [Hlo Hhi].
  apply Z.leb_le in Hlo. apply Z.leb_le in Hhi. lia.
Qed.

(** *** The remaining time without overflow *)

Lemma time_Sub_exact (t u : Z) :
  int64_min <= t - u <= int64_max -> time_Sub t u = t - u.
Proof.
  intros Hr. unfold time_Sub. rewrite (wrap64_small _ Hr).
  destruct (t - u <? 0) eqn:Hneg; simpl.
  - apply Z.ltb_lt in Hneg. assert ((u <? t) = false) as -> by (apply Z.ltb_ge; lia).
    simpl. destruct (0 <? t - u) eqn:Hpos; [apply Z.ltb_lt in Hpos; lia | reflexivity].
  - destruct (0 <? t - u) eqn:Hpos; simpl; [|reflexivity].
    apply Z.ltb_lt in Hpos. assert ((t <? u) = false) as -> by (apply Z.ltb_ge; lia).
    reflexivity.
Qed.

(** For an item last touched in the past, by a clock whose readings are
    non-negative [int64] values, the idle time is [now - accessedOn] and,
    for an item the sweep keeps, the remaining time is
    [lifeSpan - (now - accessedOn)]. *)
Lemma remaining_exact (now : Z) (it : CacheItem) :
  0 <= accessedOn it <= now -> now <= int64_max ->
  int64_min <= lifeSpan it <= int64_max ->
  idle_time now it = now - accessedOn it /\
  (idle_time now it < lifeSpan it ->
   remaining now it = lifeSpan it - (now - accessedOn it)).
Proof.
  data_only.
  intros Hacc Hnow Hty. unfold remaining, idle_time, dur_sub.
  rewrite time_Sub_exact by (unfold int64_min, int64_max in *; lia).
  split; [reflexivity|]. intros Hidle.
  apply wrap64_small. unfold int64_min, int64_max in *. lia.
Qed.

End Cache.

(** * A table at work

    One instance of the model: natural numbers as keys, integers as data,
    a clock that advances by one nanosecond at every reading, [range] in
    the order of the map's list of entries, callbacks that only return. *)

Definition tick_clock (n : nat) : Z := Z.of_nat n.

Definition entry_order (m : gmap nat nat) : list nat := (map_to_list m).*1.

Definition quiet_item (_ _ : nat) : M (Key := nat) (Any := Z) unit := ret tt.

Definition quiet_key (_ : nat) (_ : nat) : M (Key := nat) (Any := Z) unit := ret tt.

(** A loader that finds nothing, and one that makes an item of lifespan 0
    holding 7. *)
Definition no_loader (_ : nat) (_ : nat) (_ : list (Arg (Any := Z)))
  : M (Key := nat) (Any := Z) (option nat) := ret None.

Definition seven_loader (_ : nat) (k : nat) (_ : list (Arg (Any := Z)))
  : M (Key := nat) (Any := Z) (option nat) :=
  bind (NewCacheItem tick_clock k 0 7) (fun p => ret (Some p)).

(** Modelled from the spec: the constructor of a table is not among the
    sources; a new table has a name, an empty item map, no timer (no sweep
    scheduled), no logger, no loader and no callbacks.  Below it, the same
    table with a loader. *)
Definition new_table : CacheTable (Key := nat) :=
  mkCacheTable rw_free [] ∅ None 0 None None [] [].

Definition new_world : World (Key := nat) (Any := Z) :=
  mkWorld [] new_table [] 0 [].

Definition loading_world : World (Key := nat) (Any := Z) :=
  mkWorld [] (set_loadData (Some 3%nat) new_table) [] 0 [].

(** A table in use at clock reading 10: key 10 never expires, key 11 has
    been idle for 8ns of its 5ns, key 12 for 7ns of its 100ns; a logger,
    callbacks, and a timer pending from the last sweep. *)
Definition busy_world : World (Key := nat) (Any := Z) :=
  mkWorld
    [mkCacheItem rw_free 10%nat 1 0 0 0 0 [];
     mkCacheItem rw_free 11%nat 2 5 1 2 1 [4%nat];
     mkCacheItem rw_free 12%nat 3 100 3 3 0 []]
    (mkCacheTable rw_free [] (<[10%nat := 0%nat]> (<[11%nat := 1%nat]> (<[12%nat := 2%nat]> ∅)))
       (Some 0%nat) 3 (Some 0%nat) None [7%nat] [8%nat; 9%nat])
    [mkTimer 3 true] 10 [].

Lemma tick_clock_monotone : monotone_clock tick_clock.
Proof. intros a b Hab. unfold tick_clock. lia. Qed.

Lemma entry_order_complete : range_complete entry_order.
Proof.
  intros m k [r Hr]. unfold entry_order.
  apply list_elem_of_fmap. exists (k, r). split; [reflexivity|].
  apply elem_of_map_to_list. exact Hr.
Qed.

Lemma quiet_item_passive :
  forall f p (w : World (Key := nat) (Any := Z)), quiet_item f p w = Done tt w.
Proof. reflexivity. Qed.

Lemma quiet_key_passive :
  forall f k (w : World (Key := nat) (Any := Z)), quiet_key f k w = Done tt w.
Proof. reflexivity. Qed.

Lemma busy_world_well_formed : well_formed busy_world.
Proof. apply well_formedb_sound. vm_compute. reflexivity. Qed.

Lemma Flush_resets_witness :
  well_formed busy_world /\
  exists w',
    Flush busy_world = Done tt w' /\
    items (table w') = ∅ /\
    cleanupInterval (table w') = 0 /\
    timers w' !! 0%nat = Some (mkTimer 3 false).
Proof.
  split; [exact busy_world_well_formed|].
  destruct (Flush_resets busy_world busy_world_well_formed)
    as (w' & Hrun & Hits & Hitv & Htm & _).
  exists w'. split; [exact Hrun|]. split; [exact Hits|]. split; [exact Hitv|].
  rewrite Flush_returns in Hrun by exact busy_world_well_formed.
  injection Hrun as <-. reflexivity.
Defined.

Lemma Flush_frame_witness :
  well_formed busy_world /\
  exists w',
    Flush busy_world = Done tt w' /\
    loadData (table w') = None /\
    addedItem (table w') = [7%nat] /\
    aboutToDeleteItem (table w') = [8%nat; 9%nat] /\
    logger (table w') = Some 0%nat /\
    name (table w') = [].
Proof.
  split; [exact busy_world_well_formed|].
  destruct (Flush_frame busy_world busy_world_well_formed)
    as (w' & Hrun & Hld & Hadd & Hdel & Hlog & Hname).
  exists w'. repeat split; assumption.
Defined.

(** Count on a new table: the runtime aborts the process. *)
Example Count_new_table :
  Count new_world =
  Fatal UnlockOfUnlockedRWMutex
    (with_table (set_table_mu (mkRWMutex false 1) new_table) new_world).
Proof. reflexivity. Qed.

Lemma Value_absent_witness :
  (table_mu (table new_world) = rw_free /\
   items (table new_world) !! 5%nat = None /\
   loadData (table new_world) = None /\
   Value tick_clock entry_order quiet_item quiet_key no_loader 5%nat [] new_world =
     Done (None, Some ErrKeyNotFound) new_world) /\
  (table_mu (table loading_world) = rw_free /\
   items (table loading_world) !! 5%nat = None /\
   loadData (table loading_world) = Some 3%nat /\
   Value tick_clock entry_order quiet_item quiet_key no_loader 5%nat [] loading_world =
     Done (None, Some ErrKeyNotFoundOrLoadable)
       (with_trace [EvLoadData 3%nat 5%nat [ArgSlice []]] loading_world)).
Proof.
  split.
  - do 3 (split; [reflexivity|]).
    apply (proj1 (Value_absent tick_clock entry_order quiet_item quiet_key no_loader
                    5%nat [] new_world eq_refl eq_refl)).
    reflexivity.
  - do 3 (split; [reflexivity|]).
    apply (proj2 (Value_absent tick_clock entry_order quiet_item quiet_key no_loader
                    5%nat [] loading_world eq_refl eq_refl) 3%nat).
    + reflexivity.
    + reflexivity.
Defined.

(** One item, created and then read once. *)
Definition read_once : World (Key := nat) (Any := Z) :=
  mkWorld [mkCacheItem rw_free 1%nat 5 0 0 1 1 []] new_table [] 2 [].

Lemma read_once_reached : rtc (item_step tick_clock) new_world read_once.
Proof.
  eapply rtc_l; [eapply (step_NewCacheItem _ _ _ 1%nat 0 5 0%nat); reflexivity|].
  eapply rtc_l; [eapply (step_KeepAlive _ _ _ 0%nat); reflexivity|].
  apply rtc_refl.
Qed.

Lemma item_invariant_witness :
  monotone_clock tick_clock /\
  heap new_world = [] /\
  rtc (item_step tick_clock) new_world read_once /\
  createdOn (mkCacheItem (Key := nat) (Any := Z) rw_free 1%nat 5 0 0 1 1 []) <=
  accessedOn (mkCacheItem (Key := nat) (Any := Z) rw_free 1%nat 5 0 0 1 1 []).
Proof.
  split; [exact tick_clock_monotone|]. split; [reflexivity|].
  split; [exact read_once_reached|].
  apply (proj1 (item_invariant tick_clock new_world read_once
                  tick_clock_monotone eq_refl read_once_reached) 0%nat).
  reflexivity.
Defined.

Lemma busy_world_typed : lifespans_typed (heap busy_world).
Proof. apply lifespans_typedb_sound. vm_compute. reflexivity. Qed.

(** C2 fails for a short lifespan: with a lifespan of 1ns on a new
    table, the sweep that Add runs reads the clock 1ns after the item was
    created and deletes it, and the Value that follows finds no key. *)
Lemma Add_then_Value_expired :
  exists w1,
    Add tick_clock entry_order quiet_item quiet_key 5%nat 1 42 new_world = Done 0%nat w1 /\
    items (table w1) !! 5%nat = None /\
    Value tick_clock entry_order quiet_item quiet_key no_loader 5%nat [] w1 =
      Done (None, Some ErrKeyNotFound) w1.
Proof.
  eexists. split; [vm_compute; reflexivity|].
  split; vm_compute; reflexivity.
Qed.


(** Adding twice under one key: the second item replaces the first, and
    the read that follows is its first. *)
Example Add_overwrites :
  exists w it,
    bind (Add tick_clock entry_order quiet_item quiet_key 5%nat 0 1)
      (fun _ =>
         bind (Add tick_clock entry_order quiet_item quiet_key 5%nat 0 2)
           (fun _ => Value tick_clock entry_order quiet_item quiet_key no_loader 5%nat []))
      new_world = Done (Some 1%nat, None) w /\
    heap w !! 1%nat = Some it /\
    data it = 2 /\ accessCount it = 1.
Proof.
  eexists _, _. split; [vm_compute; reflexivity|].
  split; [vm_compute; reflexivity|]. split; reflexivity.
Qed.

(** ** The accessors and the setters at work *)

Lemma KeepAlive_counts_witness :
  heap read_once !! 0%nat = Some (mkCacheItem rw_free 1%nat 5 0 0 1 1 []) /\
  item_mu (mkCacheItem (Key := nat) (Any := Z) rw_free 1%nat 5 0 0 1 1 []) = rw_free /\
  int64_min <= 1 /\
  1 + 3 <= int64_max /\
  exists w',
    KeepAlive_times tick_clock 3 0%nat read_once = Done tt w' /\
    AccessCount 0%nat w' = Done 4 w' /\
    AccessedOn 0%nat w' = Done 4 w'.
Proof.
  do 2 (split; [reflexivity|]).
  split; [unfold int64_min; lia|]. split; [unfold int64_max; lia|].
  destruct (KeepAlive_counts tick_clock 2 0%nat
              (mkCacheItem rw_free 1%nat 5 0 0 1 1 []) read_once eq_refl eq_refl)
    as (w' & Hrun & Hcount & Hacc & _).
  - unfold int64_min. simpl. lia.
  - unfold int64_max. simpl. lia.
  - exists w'. split; [exact Hrun|]. split; [exact Hcount | exact Hacc].
Defined.

Lemma aboutToExpire_setters_witness :
  heap busy_world !! 1%nat = Some (mkCacheItem rw_free 11%nat 2 5 1 2 1 [4%nat]) /\
  item_mu (mkCacheItem (Key := nat) (Any := Z) rw_free 11%nat 2 5 1 2 1 [4%nat]) = rw_free /\
  SetAboutToExpireCallback 1%nat 6%nat busy_world =
    Done tt
      (with_heap
         (<[1%nat := mkCacheItem rw_free 11%nat 2 5 1 2 1 [6%nat]]> (heap busy_world))
         busy_world) /\
  AddAboutToExpireCallback 1%nat 6%nat busy_world =
    Done tt
      (with_heap
         (<[1%nat := mkCacheItem rw_free 11%nat 2 5 1 2 1 [4%nat; 6%nat]]> (heap busy_world))
         busy_world).
Proof.
  do 2 (split; [reflexivity|]).
  destruct (aboutToExpire_setters 1%nat 6%nat
              (mkCacheItem rw_free 11%nat 2 5 1 2 1 [4%nat]) busy_world eq_refl eq_refl)
    as (Hset & Hadd & _).
  split; [exact Hset | exact Hadd].
Defined.

Lemma table_setters_witness :
  table_mu (table busy_world) = rw_free /\
  SetAddedItemCallback 5%nat busy_world =
    Done tt (with_table (set_addedItem [5%nat] (table busy_world)) busy_world) /\
  AddAboutToDeleteItemCallback 5%nat busy_world =
    Done tt
      (with_table (set_aboutToDeleteItem [8%nat; 9%nat; 5%nat] (table busy_world))
         busy_world).
Proof.
  split; [reflexivity|].
  destruct (table_setters 5%nat None None busy_world eq_refl)
    as (Hset & _ & _ & _ & Hadd & _).
  split; [exact Hset | exact Hadd].
Defined.

Lemma Exists_spec_witness :
  writer (table_mu (table busy_world)) = false /\
  Exists 11%nat busy_world = Done true busy_world /\
  Exists 5%nat busy_world = Done false busy_world.
Proof.
  split; [reflexivity|]. split.
  - exact (Exists_spec 11%nat busy_world eq_refl).
  - exact (Exists_spec 5%nat busy_world eq_refl).
Defined.

(** ** Adding, deleting and reading at work *)

Lemma Add_notifies_witness :
  well_formed busy_world /\
  exists evs w',
    Add tick_clock entry_order quiet_item quiet_key 13%nat 0 9 busy_world = Done 3%nat w' /\
    trace w' = trace busy_world ++ evs /\
    filter (fun e => is_add_event e = true) evs =
      [EvMapStore 13%nat 3%nat; EvAddedItem 7%nat 3%nat].
Proof.
  split; [exact busy_world_well_formed|].
  exact (Add_notifies tick_clock entry_order quiet_item quiet_key
           quiet_item_passive quiet_key_passive 13%nat 0 9 busy_world
           busy_world_well_formed).
Defined.

Lemma busy_world_keys_match : keys_match busy_world.
Proof.
  intros k r it Hk Hr. simpl in Hk.
  repeat (apply lookup_insert_Some in Hk as [[<- <-] | [_ Hk]];
          [vm_compute in Hr; injection Hr as <-; reflexivity|]).
  rewrite lookup_empty in Hk. discriminate.
Qed.

Lemma busy_world_inv : table_inv busy_world.
Proof.
  split.
  - exact busy_world_well_formed.
  - exact busy_world_keys_match.
  - intros t tm Ht Hp. destruct t as [|t]; [|destruct t; discriminate].
    injection Ht as <-. simpl. repeat split; lia.
  - intros _. exists 0%nat. split; reflexivity.
Qed.

(** Key 11 is overwritten while its item has expired and carries a
    callback. *)
Lemma Add_replaces_quietly_witness :
  well_formed busy_world /\
  keys_match busy_world /\
  items (table busy_world) !! 11%nat = Some 1%nat /\
  exists evs w',
    Add tick_clock entry_order quiet_item quiet_key 11%nat 50 9 busy_world = Done 3%nat w' /\
    heap w' !! 1%nat = Some (mkCacheItem rw_free 11%nat 2 5 1 2 1 [4%nat]) /\
    trace w' = trace busy_world ++ evs /\
    (EvAboutToDeleteItem 8%nat 1%nat ∉ evs) /\
    (EvAboutToExpire 4%nat 11%nat ∉ evs).
Proof.
  split; [exact busy_world_well_formed|]. split; [exact busy_world_keys_match|].
  split; [reflexivity|].
  destruct (Add_replaces_quietly tick_clock entry_order quiet_item quiet_key
              quiet_item_passive quiet_key_passive 11%nat 50 9 1%nat busy_world
              busy_world_well_formed busy_world_keys_match eq_refl)
    as (evs & w' & Hrun & _ & Hheap & _ & Htr & Hdel & Hexp).
  exists evs, w'. split; [exact Hrun|]. split; [rewrite Hheap; reflexivity|].
  split; [exact Htr|]. split; [apply Hdel | apply Hexp].
Defined.

Lemma Add_drops_witness :
  range_complete entry_order /\
  well_formed new_world /\
  expires_on_add tick_clock new_world 1 = true /\
  exists w',
    Add tick_clock entry_order quiet_item quiet_key 5%nat 1 42 new_world = Done 0%nat w' /\
    items (table w') !! 5%nat = None.
Proof.
  assert (Hwf : well_formed new_world) by (apply well_formedb_sound; reflexivity).
  split; [exact entry_order_complete|]. split; [exact Hwf|]. split; [reflexivity|].
  exact (Add_drops tick_clock entry_order quiet_item quiet_key
           quiet_item_passive quiet_key_passive 5%nat 1 42 new_world
           entry_order_complete Hwf eq_refl).
Defined.

Lemma Delete_then_gone_witness :
  well_formed busy_world /\
  items (table busy_world) !! 11%nat = Some 1%nat /\
  loadData (table busy_world) = None /\
  exists w',
    Delete quiet_item quiet_key 11%nat busy_world = Done (Some 1%nat, None) w' /\
    Exists 11%nat w' = Done false w' /\
    Delete quiet_item quiet_key 11%nat w' = Done (None, Some ErrKeyNotFound) w' /\
    Value tick_clock entry_order quiet_item quiet_key no_loader 11%nat [] w' =
      Done (None, Some ErrKeyNotFound) w' /\
    items (table w') !! 12%nat = Some 2%nat.
Proof.
  split; [exact busy_world_well_formed|]. do 2 (split; [reflexivity|]).
  destruct (Delete_then_gone tick_clock entry_order quiet_item quiet_key no_loader
              quiet_item_passive quiet_key_passive 11%nat 1%nat busy_world
              busy_world_well_formed eq_refl)
    as (w' & Hdel & Hex & Hagain & Hval & Hrest & _).
  exists w'. split; [exact Hdel|]. split; [exact Hex|]. split; [exact Hagain|].
  split; [apply Hval; reflexivity|].
  rewrite Hrest by discriminate. reflexivity.
Defined.

(** Key 11 has been idle for 8ns of its 5ns: the sweep would delete it,
    a Value before the sweep saves it. *)
Lemma Value_keeps_alive_witness :
  well_formed busy_world /\
  items (table busy_world) !! 11%nat = Some 1%nat /\
  heap busy_world !! 1%nat = Some (mkCacheItem rw_free 11%nat 2 5 1 2 1 [4%nat]) /\
  time_Sub (tick_clock 11) (tick_clock 10) < 5 /\
  (exists w0,
     expirationCheck tick_clock entry_order quiet_item quiet_key busy_world = Done tt w0 /\
     items (table w0) !! 11%nat = None) /\
  exists w1 w2,
    Value tick_clock entry_order quiet_item quiet_key no_loader 11%nat [] busy_world =
      Done (Some 1%nat, None) w1 /\
    expirationCheck tick_clock entry_order quiet_item quiet_key w1 = Done tt w2 /\
    items (table w2) !! 11%nat = Some 1%nat.
Proof.
  split; [exact busy_world_well_formed|]. do 2 (split; [reflexivity|]).
  split; [vm_compute; reflexivity|].
  split; [eexists; split; vm_compute; reflexivity|].
  destruct (Value_keeps_alive tick_clock entry_order quiet_item quiet_key no_loader
              quiet_item_passive quiet_key_passive 11%nat [] 1%nat
              (mkCacheItem rw_free 11%nat 2 5 1 2 1 [4%nat]) busy_world
              busy_world_well_formed eq_refl eq_refl)
    as (w1 & w2 & Hval & Hsweep & Hk & _).
  - right. vm_compute. reflexivity.
  - exists w1, w2. split; [exact Hval|]. split; [exact Hsweep | exact Hk].
Defined.

(** A loader that allocates an item keeps the invariant of the table. *)
Lemma seven_loader_safe : loader_safe seven_loader.
Proof.
  intros f k args w [[Hmu Hits Htm] Hkeys Hone Harm].
  exists (Some (length (heap w))).
  exists (mkWorld (heap w ++ [mkCacheItem rw_free k 7 0 (tick_clock (ticks w))
                                 (tick_clock (ticks w)) 0 []])
            (table w) (timers w) (S (ticks w)) (trace w)).
  split; [destruct w; reflexivity|]. split.
  - split; [split|..]; simpl; try assumption.
    + intros k' r Hk'. destruct (Hits k' r Hk') as (it & Hr & Hfree).
      exists it. split; [apply lookup_app_l_Some; exact Hr | exact Hfree].
    + intros k' r it Hk' Hr. destruct (Hits k' r Hk') as (it' & Hr' & _).
      simpl in Hr. rewrite (lookup_app_l_Some _ _ _ _ Hr') in Hr. injection Hr as <-.
      exact (Hkeys k' r it' Hk' Hr').
  - intros q [= <-]. simpl. rewrite list_lookup_middle by reflexivity. eauto.
Qed.

Lemma operations_keep_invariant_witness :
  loader_safe seven_loader /\
  table_inv busy_world /\
  exists w',
    for_each
      [OpSetDataLoader (Some 3%nat); OpValue 5%nat []; OpAdd 13%nat 4 9;
       OpDelete 10%nat; OpTimerFires; OpExists 12%nat; OpFlush]
      (run_op tick_clock entry_order quiet_item quiet_key seven_loader) busy_world =
      Done tt w' /\
    table_inv w'.
Proof.
  split; [exact seven_loader_safe|]. split; [exact busy_world_inv|].
  exact (operations_keep_invariant tick_clock entry_order quiet_item quiet_key
           seven_loader quiet_item_passive quiet_key_passive seven_loader_safe
           _ busy_world busy_world_inv).
Defined.

(** ** Callbacks that call back, at work *)

(** A callback that looks its key up, as a user's callback would with
    [table.Value(key)], and one that asks whether the key is there. *)
Definition calls_Value (_ : nat) (k : nat) : M (Key := nat) (Any := Z) unit :=
  bind (Value tick_clock entry_order quiet_item quiet_key no_loader k [])
    (fun _ => ret tt).

Definition item_calls_Exists (_ : nat) (p : nat) : M (Key := nat) (Any := Z) unit :=
  bind (Exists p) (fun _ => ret tt).

Definition key_calls_Exists (_ : nat) (k : nat) : M (Key := nat) (Any := Z) unit :=
  bind (Exists k) (fun _ => ret tt).

(** Without a loader that finds something, Value never reaches a
    callback: which callbacks are installed makes no difference to it. *)
Lemma Value_no_loader (kc : nat -> nat -> M (Key := nat) (Any := Z) unit)
    (k : nat) (args : list Z) (w : World) :
  Value tick_clock entry_order quiet_item kc no_loader k args w =
  Value tick_clock entry_order quiet_item quiet_key no_loader k args w.
Proof.
  destruct w as [h tb ts n tr].
  destruct tb as [[wr rd] nm its tmr itv lg ld ad dl].
  unfold Value, call_loadData, no_loader, bind, table_RLock, table_RUnlock,
    on_table_mu, get_table, lock_step, rw_RLock, rw_RUnlock; simpl.
  destruct wr; simpl; [reflexivity|].
  destruct (its !! k); [reflexivity|].
  destruct ld; reflexivity.
Qed.

Lemma calls_Value_calls_Value (f k : nat) (w0 : World) :
  calls_Value f k w0 =
  bind (Value tick_clock entry_order quiet_item calls_Value no_loader k [])
    (fun _ => ret tt) w0.
Proof.
  unfold calls_Value at 1. unfold bind. rewrite (Value_no_loader calls_Value).
  reflexivity.
Qed.

Lemma aboutToExpire_Value_deadlock_witness :
  well_formed busy_world /\
  items (table busy_world) !! 11%nat = Some 1%nat /\
  heap busy_world !! 1%nat = Some (mkCacheItem rw_free 11%nat 2 5 1 2 1 [4%nat]) /\
  exists w',
    Delete quiet_item calls_Value 11%nat busy_world = Blocked w' /\
    items (table w') !! 11%nat = Some 1%nat.
Proof.
  split; [exact busy_world_well_formed|]. do 2 (split; [reflexivity|]).
  destruct (aboutToExpire_Value_deadlock tick_clock entry_order quiet_item calls_Value
              no_loader quiet_item_passive 11%nat [] 1%nat
              (mkCacheItem rw_free 11%nat 2 5 1 2 1 [4%nat]) 4%nat [] busy_world
              busy_world_well_formed eq_refl eq_refl eq_refl
              (calls_Value_calls_Value 4%nat 11%nat))
    as (w' & Hrun & Hk & _).
  exists w'. split; [exact Hrun | exact Hk].
Defined.

Lemma calls_Exists_polite (k : nat) (w : World (Key := nat) (Any := Z)) :
  table_mu (table w) = rw_free ->
  exists w', bind (Exists k) (fun _ => ret tt) w = Done tt w' /\ undisturbed w w'.
Proof.
  intros Hmu. exists w. split.
  - destruct w as [h tb ts n tr]; destruct tb; simpl in Hmu; subst. reflexivity.
  - apply undisturbed_refl. exact Hmu.
Qed.

Lemma item_calls_Exists_polite :
  polite (fun fp : nat * nat => item_calls_Exists fp.1 fp.2).
Proof. intros [f p] w. apply calls_Exists_polite. Qed.

Lemma key_calls_Exists_polite :
  polite (fun fk : nat * nat => key_calls_Exists fk.1 fk.2).
Proof. intros [f k] w. apply calls_Exists_polite. Qed.

Lemma Delete_with_callbacks_witness :
  polite (fun fp : nat * nat => item_calls_Exists fp.1 fp.2) /\
  polite (fun fk : nat * nat => key_calls_Exists fk.1 fk.2) /\
  well_formed busy_world /\
  items (table busy_world) !! 11%nat = Some 1%nat /\
  exists w',
    Delete item_calls_Exists key_calls_Exists 11%nat busy_world =
      Done (Some 1%nat, None) w' /\
    items (table w') !! 11%nat = None /\
    EvAboutToDeleteItem 9%nat 1%nat ∈ trace w'.
Proof.
  split; [exact item_calls_Exists_polite|]. split; [exact key_calls_Exists_polite|].
  split; [exact busy_world_well_formed|]. split; [reflexivity|].
  destruct (Delete_with_callbacks item_calls_Exists key_calls_Exists
              item_calls_Exists_polite key_calls_Exists_polite 11%nat 1%nat busy_world
              busy_world_well_formed eq_refl)
    as (w' & Hrun & Hgone & _ & _ & Hcalled).
  exists w'. split; [exact Hrun|]. split; [exact Hgone|].
  apply Hcalled. simpl. apply elem_of_cons. right. apply elem_of_cons. left. reflexivity.
Defined.

(** ** Walking and ranking at work *)

Lemma entry_order_exact : range_exact entry_order.
Proof. intros m. reflexivity. Qed.

(** A visitor that records the item it is shown. *)
Definition note_item (_ : nat) (v : nat) : M (Key := nat) (Any := Z) unit :=
  emit (EvAddedItem 0%nat v).

Lemma Foreach_visits_witness :
  range_exact entry_order /\
  writer (table_mu (table busy_world)) = false /\
  exists entries,
    entries ≡ₚ map_to_list (items (table busy_world)) /\
    Foreach entry_order note_item busy_world =
      Done tt
        (with_table (table busy_world)
           (foldl (fun w0 kv => with_trace (trace w0 ++ [EvAddedItem 0%nat kv.2]) w0)
              (with_table (set_table_mu (mkRWMutex false 1) (table busy_world)) busy_world)
              entries)).
Proof.
  split; [exact entry_order_exact|]. split; [reflexivity|].
  apply (Foreach_visits entry_order note_item
           (fun _ v w0 => with_trace (trace w0 ++ [EvAddedItem 0%nat v]) w0) busy_world
           entry_order_exact eq_refl).
  - reflexivity.
  - intros k v w0. destruct w0; reflexivity.
Defined.

Lemma Foreach_writer_deadlock_witness :
  range_complete entry_order /\
  writes_table (OpDelete (Any := Z) 11%nat) = true /\
  is_Some (items (table busy_world) !! 11%nat) /\
  exists w',
    Foreach entry_order
      (fun _ _ => run_op tick_clock entry_order quiet_item quiet_key no_loader
                    (OpDelete 11%nat))
      busy_world = Blocked w'.
Proof.
  split; [exact entry_order_complete|]. split; [reflexivity|].
  split; [eexists; reflexivity|].
  apply (Foreach_writer_deadlock tick_clock entry_order quiet_item quiet_key no_loader
           (OpDelete 11%nat) 11%nat busy_world entry_order_complete eq_refl).
  eexists. reflexivity.
Defined.

(** Merge sort by [Less]. *)
Definition by_AccessCount (a b : CacheItemPair (Key := nat)) : Prop :=
  pairAccessCount b <= pairAccessCount a.

#[local] Instance by_AccessCount_dec (a b : CacheItemPair (Key := nat)) :
  Decision (by_AccessCount a b).
Proof. unfold by_AccessCount. apply _. Defined.

Definition merge_Sort (l : list (CacheItemPair (Key := nat))) : list CacheItemPair :=
  merge_sort by_AccessCount l.

Lemma merge_Sort_sorts : sorts merge_Sort.
Proof.
  assert (Htrans : Transitive by_AccessCount).
  { intros a b c. unfold by_AccessCount. lia. }
  assert (Htotal : Total by_AccessCount).
  { intros a b. unfold by_AccessCount. lia. }
  intros l. split; [apply merge_sort_Permutation|].
  pose proof (StronglySorted_merge_sort by_AccessCount l) as Hs.
  fold (merge_Sort l) in Hs. induction Hs as [|a l' Hl' IH Ha]; constructor.
  - exact IH.
  - eapply Forall_impl; [exact Ha|]. intros b Hab. simpl in Hab.
    unfold Less. apply Z.ltb_ge. exact Hab.
Qed.

(** Three reads of key 12, one of key 11, none of key 10: the two most
    accessed items are those of keys 12 and 11. *)
Definition read_world : World (Key := nat) (Any := Z) :=
  mkWorld
    [mkCacheItem rw_free 10%nat 1 0 0 0 0 [];
     mkCacheItem rw_free 11%nat 2 5 1 2 1 [];
     mkCacheItem rw_free 12%nat 3 100 3 3 3 []]
    (mkCacheTable rw_free [] (<[10%nat := 0%nat]> (<[11%nat := 1%nat]> (<[12%nat := 2%nat]> ∅)))
       None 0 None None [] [])
    [] 10 [].

Lemma MostAccessed_spec_witness :
  sorts merge_Sort /\
  range_exact entry_order /\
  well_formed read_world /\
  2 <= int64_max /\
  MostAccessed entry_order merge_Sort 2 read_world = Done [2%nat; 1%nat] read_world /\
  exists entries,
    entries ≡ₚ map_to_list (items (table read_world)) /\
    MostAccessed entry_order merge_Sort 2 read_world =
      Done (take 2 entries.*2) read_world.
Proof.
  assert (Hwf : well_formed read_world) by (apply well_formedb_sound; vm_compute; reflexivity).
  split; [exact merge_Sort_sorts|]. split; [exact entry_order_exact|].
  split; [exact Hwf|]. split; [unfold int64_max; lia|].
  split; [vm_compute; reflexivity|].
  destruct (MostAccessed_spec entry_order merge_Sort merge_Sort_sorts 2 read_world
              entry_order_exact Hwf)
    as (entries & Hperm & _ & Hrun).
  - unfold int64_max. lia.
  - exists entries. split; [exact Hperm | exact Hrun].
Defined.

(** ** Callbacks that do something, at work *)

(** Callbacks that leave the cache alone: each reads the clock and
    writes a line to a sink of its own. *)
Definition noting_item (f p : nat) : M (Key := nat) (Any := Z) unit :=
  bind (time_Now tick_clock) (fun _ => emit (EvLog (100 + f)%nat (LogAdd p 0))).

Definition noting_key (f k : nat) : M (Key := nat) (Any := Z) unit :=
  bind (time_Now tick_clock) (fun _ => emit (EvLog (200 + f)%nat (LogAdd k 0))).

Definition item_note (f p : nat) (w : World (Key := nat) (Any := Z)) : World :=
  mkWorld (heap w) (table w) (timers w) (S (ticks w))
    (trace w ++ [EvLog (100 + f)%nat (LogAdd p 0)]).

Definition key_note (f k : nat) (w : World (Key := nat) (Any := Z)) : World :=
  mkWorld (heap w) (table w) (timers w) (S (ticks w))
    (trace w ++ [EvLog (200 + f)%nat (LogAdd k 0)]).





(** A table with one addedItem callback and no sweep scheduled. *)
Definition ready_world : World (Key := nat) (Any := Z) :=
  mkWorld [] (set_addedItem [7%nat] new_table) [] 0 [].

(** An aboutToDeleteItem callback that adds an entry: callback 8 calls
    [Add(20, 51ns, 0)] on the table. *)
Definition adding_item (f _ : nat) : M (Key := nat) (Any := Z) unit :=
  if Nat.eqb f 8
  then bind (Add tick_clock entry_order quiet_item quiet_key 20%nat 51 0) (fun _ => ret tt)
  else ret tt.

Lemma noting_item_observes :
  forall f p (w : World (Key := nat) (Any := Z)),
    noting_item f p w = Done tt (item_note f p w).
Proof. intros f p w. destruct w; reflexivity. Qed.

Lemma noting_key_observes :
  forall f k (w : World (Key := nat) (Any := Z)),
    noting_key f k w = Done tt (key_note f k w).
Proof. intros f k w. destruct w; reflexivity. Qed.

Lemma item_note_same :
  forall f p (w : World (Key := nat) (Any := Z)), same_cache w (item_note f p w).
Proof. intros f p w. repeat split. Qed.

Lemma key_note_same :
  forall f k (w : World (Key := nat) (Any := Z)), same_cache w (key_note f k w).
Proof. intros f k w. repeat split. Qed.

(** The sweep of [busy_world] with callbacks that write their lines:
    key 10 (lifeSpan 0) and key 12 (93ns left) stay, key 11 (idle for 8ns
    of its 5ns) goes, after the two aboutToDeleteItem callbacks on its
    item and its aboutToExpire callback on the key, each followed by the
    line it wrote; the next sweep is due in at most 93ns. *)
Lemma expirationCheck_sweeps_witness :
  (forall f p (w : World (Key := nat) (Any := Z)),
     noting_item f p w = Done tt (item_note f p w)) /\
  (forall f k (w : World (Key := nat) (Any := Z)),
     noting_key f k w = Done tt (key_note f k w)) /\
  (forall f p (w : World (Key := nat) (Any := Z)), same_cache w (item_note f p w)) /\
  (forall f k (w : World (Key := nat) (Any := Z)), same_cache w (key_note f k w)) /\
  range_complete entry_order /\
  well_formed busy_world /\
  lifespans_typed (heap busy_world) /\
  exists w',
    expirationCheck tick_clock entry_order noting_item noting_key busy_world = Done tt w' /\
    items (table w') !! 10%nat = Some 0%nat /\
    items (table w') !! 11%nat = None /\
    items (table w') !! 12%nat = Some 2%nat /\
    cleanupInterval (table w') <= 93 /\
    trace w' =
      [EvLog 0%nat (LogCheckAfter 3 []);
       EvAboutToDeleteItem 8%nat 1%nat; EvLog 108%nat (LogAdd 1%nat 0);
       EvAboutToDeleteItem 9%nat 1%nat; EvLog 109%nat (LogAdd 1%nat 0);
       EvAboutToExpire 4%nat 11%nat; EvLog 204%nat (LogAdd 11%nat 0);
       EvLog 0%nat (LogDelete 11%nat 1 1 []); EvMapDelete 11%nat].
Proof.
  split; [exact noting_item_observes|]. split; [exact noting_key_observes|].
  split; [exact item_note_same|]. split; [exact key_note_same|].
  split; [exact entry_order_complete|]. split; [exact busy_world_well_formed|].
  split; [exact busy_world_typed|].
  destruct (expirationCheck_sweeps tick_clock entry_order noting_item noting_key
              item_note key_note noting_item_observes noting_key_observes
              item_note_same key_note_same busy_world
              entry_order_complete busy_world_well_formed busy_world_typed)
    as (w' & Hrun & Heq & Hheap & Hfate & _ & Hlow & _).
  exists w'. split; [exact Hrun|].
  pose proof (Hfate 10%nat 0%nat (mkCacheItem rw_free 10%nat 1 0 0 0 0 [])
                eq_refl eq_refl) as (H10 & _ & _).
  pose proof (Hfate 11%nat 1%nat (mkCacheItem rw_free 11%nat 2 5 1 2 1 [4%nat])
                eq_refl eq_refl) as (_ & H11 & _).
  pose proof (Hfate 12%nat 2%nat (mkCacheItem rw_free 12%nat 3 100 3 3 0 [])
                eq_refl eq_refl) as (_ & _ & H12).
  assert (Hk12 : items (table w') !! 12%nat = Some 2%nat).
  { apply H12; [discriminate | vm_compute; reflexivity]. }
  split; [apply H10; reflexivity|].
  split; [apply H11; [discriminate | vm_compute; discriminate]|].
  split; [exact Hk12|].
  split.
  - apply (Hlow 12%nat 2%nat (mkCacheItem rw_free 12%nat 3 100 3 3 0 [])).
    + exact Hk12.
    + rewrite Hheap. reflexivity.
    + discriminate.
  - rewrite Heq. vm_compute. reflexivity.
Defined.

(** C1 fails when a callback adds an entry: the sweep of [busy_world]
    deletes key 11, whose aboutToDeleteItem callback 8 runs with the
    table's lock released and calls [Add(20, 51ns, 0)].  The loop, which
    does not come to the entry made while it ranges, goes on, and the
    sweep sets cleanupInterval to the 93ns left for key 12, while key 20
    is in the table with 52ns left. *)
Lemma expirationCheck_sweeps_reentrant :
  range_complete entry_order /\
  well_formed busy_world /\
  lifespans_typed (heap busy_world) /\
  (forall p (w0 : World (Key := nat) (Any := Z)),
     table_mu (table w0) = rw_free ->
     addedItem (table w0) = [7%nat] ->
     cleanupInterval (table w0) = 3 ->
     adding_item 8%nat p w0 =
     bind (Add tick_clock entry_order adding_item quiet_key 20%nat 51 0)
       (fun _ => ret tt) w0) /\
  exists w' it12 it20,
    expirationCheck tick_clock entry_order adding_item quiet_key busy_world = Done tt w' /\
    items (table w') !! 11%nat = None /\
    items (table w') !! 12%nat = Some 2%nat /\
    heap w' !! 2%nat = Some it12 /\
    remaining (tick_clock (ticks busy_world)) it12 = 93 /\
    items (table busy_world) !! 20%nat = None /\
    items (table w') !! 20%nat = Some 3%nat /\
    heap w' !! 3%nat = Some it20 /\
    lifeSpan it20 = 51 /\
    remaining (tick_clock (ticks busy_world)) it20 = 52 /\
    cleanupInterval (table w') = 93.
Proof.
  split; [exact entry_order_complete|]. split; [exact busy_world_well_formed|].
  split; [exact busy_world_typed|].
  split.
  - intros p w0 Hmu Had Hitv.
    destruct w0 as [h tb ts n tr]; destruct tb as [mu nm its tmr itv lg ld ad dl].
    simpl in Hmu, Had, Hitv. subst mu ad itv.
    change (adding_item 8%nat p)
      with (bind (Add tick_clock entry_order quiet_item quiet_key 20%nat 51 0)
              (fun _ : nat => ret (Key := nat) (Any := Z) tt)).
    unfold bind. rewrite !Add_stores by reflexivity.
    unfold addInternal_callbacks, stored, bind, load. simpl.
    rewrite !list_lookup_middle by reflexivity.
    reflexivity.
  - eexists. exists (mkCacheItem rw_free 12%nat 3 100 3 3 0 []),
      (mkCacheItem rw_free 20%nat 0 51 11 11 0 []).
    split; [vm_compute; reflexivity|].
    repeat split; vm_compute; reflexivity.
Qed.

Lemma ready_world_well_formed : well_formed ready_world.
Proof. apply well_formedb_sound. vm_compute. reflexivity. Qed.

(** Add on a table with an addedItem callback that writes its line and
    reads the clock: the callback has run when the sweep starts, 2ns
    after the item was made, well within its 1000ns. *)
Lemma Add_then_Value_witness :
  (forall f p (w : World (Key := nat) (Any := Z)),
     noting_item f p w = Done tt (item_note f p w)) /\
  (forall f k (w : World (Key := nat) (Any := Z)),
     noting_key f k w = Done tt (key_note f k w)) /\
  (forall f p (w : World (Key := nat) (Any := Z)), same_cache w (item_note f p w)) /\
  (forall f k (w : World (Key := nat) (Any := Z)), same_cache w (key_note f k w)) /\
  well_formed ready_world /\
  expires_after_added tick_clock item_note 5%nat 1000 42 ready_world = false /\
  exists p w1 w2 it,
    Add tick_clock entry_order noting_item noting_key 5%nat 1000 42 ready_world =
      Done p w1 /\
    trace w1 =
      [EvMapStore 5%nat 0%nat; EvAddedItem 7%nat 0%nat; EvLog 107%nat (LogAdd 0%nat 0)] /\
    cleanupInterval (table w1) = 998 /\
    Value tick_clock entry_order noting_item noting_key no_loader 5%nat [] w1 =
      Done (Some p, None) w2 /\
    heap w2 !! p = Some it /\
    data it = 42 /\ lifeSpan it = 1000 /\ accessCount it = 1.
Proof.
  split; [exact noting_item_observes|]. split; [exact noting_key_observes|].
  split; [exact item_note_same|]. split; [exact key_note_same|].
  split; [exact ready_world_well_formed|]. split; [reflexivity|].
  destruct (Add_then_Value tick_clock entry_order noting_item noting_key no_loader
              item_note key_note noting_item_observes noting_key_observes
              item_note_same key_note_same 5%nat 1000 42 ready_world
              ready_world_well_formed eq_refl)
    as (p & w1 & w2 & it & Hadd & Heq & Hval & Hit & Hd & Hl & Hc).
  exists p, w1, w2, it.
  split; [exact Hadd|].
  split; [rewrite Heq; vm_compute; reflexivity|].
  split; [rewrite Heq; vm_compute; reflexivity|].
  split; [exact Hval|]. split; [exact Hit|].
  split; [exact Hd|]. split; [exact Hl | exact Hc].
Defined.







